(** * shaka.util.AbortableOperation: a shallow embedding and its properties

    The source is the class [shaka.util.AbortableOperation], whose text is
    in lib/media/gap_jumping_controller.js of the sources.  Its methods
    mutate objects that are shared by reference (promises, operations, the
    closure variable [abort] of [chain]) and schedule continuations on the
    promise job queue, so the embedding is a state-and-error monad over an
    explicit heap:

    - promises, operations, the closure environments of [chain] and the
      records of [Promise.all] live in lists indexed by their identity;
      allocation appends, so a new identity is the length of the list;
    - the closures the source creates are defunctionalised, one constructor
      per arrow function of the source;
    - the job queue of the event loop is a list of jobs; one job runs at a
      time, to completion;
    - a ghost log records each invocation of an operation's [onAbort_], of a
      continuation passed to [chain] and of a callback passed to [finally],
      the way a test spy would.

    The same file of the sources opens with the class
    [shaka.media.GapJumpingController].  It is embedded in the module
    [GapJumpingController]: a method is a function from the world (the
    controller, the media element and the timeline it watches, and what it has
    done to them) to the way the call ends. *)

From Stdlib Require Import ZArith List Bool Lia String PrimFloat.
From stdpp Require Import base option list.
Import ListNotations.

Set Default Proof Using "Type".
Set Warnings "-register-all".
Local Open Scope Z_scope.
Local Open Scope nat_scope.

(** ** Values *)

(** Modelled from the spec: [shaka.util.Error] and its enumerations
    [Severity], [Category] and [Code] are declared in lib/util/error.js,
    which is not part of the sources; the spec fixes the triple carried by
    the abort error, the other members stand for every other error. *)
Inductive Severity := RECOVERABLE | CRITICAL.
Inductive Category := NETWORK | MEDIA | MANIFEST | STREAMING | PLAYER.
Inductive Code := OPERATION_ABORTED | OTHER_CODE (n : Z).

Abbreviation pid := nat (only parsing).  (* identity of a promise *)
Abbreviation oid := nat (only parsing).  (* identity of an AbortableOperation *)
Abbreviation lid := nat (only parsing).  (* identity of one call of [chain] (its closure environment) *)
Abbreviation cid := nat (only parsing).  (* identity of one call of [Promise.all] *)

(** The JavaScript values that flow through operations. *)
Inductive value :=
| VUndefined
| VNumber (n : Z)
| VString (s : string)
| VError (severity : Severity) (category : Category) (code : Code)
| VTypeError
| VArray (elements : list value)
| VPromise (p : pid)
| VOperation (o : oid).

(** [typeof v.then === 'function']: only promises are thenables here; an
    AbortableOperation has no [then] method. *)
Definition thenable (v : value) : bool :=
  match v with VPromise _ => true | _ => false end.

(** The result of calling a function supplied by the caller: it returns a
    value or throws one. *)
Inductive outcome :=
| Return (v : value)
| Throw (e : value).

(** A continuation passed to [chain]. *)
Definition callback := value -> outcome.

(** ** Closures of the source, defunctionalised *)

(** Functions that are attached to a promise with [then] or [catch]. *)
Inductive handler :=
| HNoop                                    (* () => {} *)
| HChainCallback (isSuccess : bool) (link : lid)  (* makeCallback(isSuccess) *)
| HFinally (onFinal : bool -> outcome) (flag : bool) (* (value) => onFinal(flag) *)
| HCapReject (target : pid)                (* the reject function of a promise's capability *)
| HAdoptResolve (target : pid)             (* resolving functions handed to a thenable *)
| HAdoptReject (target : pid)
| HAllElement (cell : cid) (index : nat).  (* Promise.all resolve element function *)

(** The [onAbort] function an operation is constructed with. *)
Inductive abortFn :=
| AExternal (ret : pid)     (* supplied by the caller; returns the promise [ret] *)
| AResolved                 (* () => Promise.resolve() *)
| ACatch (promise : pid)    (* () => promise.catch(() => {}) *)
| AAll (operations : list oid) (* () => Promise.all(operations.map((op) => op.abort())) *)
| AChain (link : lid).      (* () => abort() *)

(** The values taken by the closure variable [abort] of [chain]. *)
Inductive delegate :=
| DInitial                  (* () => { newPromise.reject(abortError); return this.abort(); } *)
| DOperation (ret : oid)    (* () => ret.abort() *)
| DValue (ret : value)      (* () => Promise.resolve(ret).then(() => {}, () => {}) *)
| DResolved.                (* () => Promise.resolve() *)

(** ** The heap *)

Inductive pstate :=
| Pending
| Fulfilled (v : value)
| Rejected (e : value).

Record reaction := Reaction {
  r_onFulfilled : option handler;
  r_onRejected : option handler;
  r_derived : pid
}.

(** Modelled from the spec: the future type ([Promise], and
    [shaka.util.PublicPromise] of lib/util/public_promise.js, which is not
    part of the sources: a promise whose resolve and reject functions are
    public methods).  It holds a state [{pending | fulfilled | rejected}],
    settles once, supports one-shot continuations and has an explicit
    "observed" flag.  The operations below follow the promise jobs of
    ECMAScript; [p_resolved] is the [alreadyResolved] flag shared by the
    resolve and reject functions of a promise. *)
Record promise := Promise {
  p_state : pstate;
  p_reactions : list reaction;
  p_resolved : bool;
  p_handled : bool
}.

Record operation := Operation {
  op_promise : pid;                 (* this.promise *)
  onAbort_ : abortFn;             (* this.onAbort_ *)
  abortPromise_ : option pid      (* this.abortPromise_ *)
}.

(** The closure environment of one call [this.chain(onSuccess, onError)]. *)
Record chainLink := ChainLink {
  l_this : oid;
  l_newPromise : pid;
  l_onSuccess : option callback;
  l_onError : option callback;
  l_abort : delegate
}.

(** The record shared by the resolve element functions of one [Promise.all]. *)
Record allCell := AllCell {
  a_target : pid;
  a_values : list value;
  a_called : list bool;
  a_remaining : nat
}.

Inductive job :=
| JReaction (h : option handler) (fulfilled : bool) (derived : pid) (arg : value)
| JThenable (target thenable : pid).

(** Ghost events. *)
Inductive event :=
| EvOnAbort (o : oid)                                 (* o.onAbort_() was called *)
| EvContinuation (link : lid) (isSuccess : bool) (arg : value)
                                                      (* onSuccess(arg) or onError(arg) was called *)
| EvFinal (flag : bool).                              (* onFinal(flag) was called *)

Record state := State {
  promises : list promise;
  operations : list operation;
  links : list chainLink;
  cells : list allCell;
  microtasks : list job;
  log : list event
}.

Definition empty_state : state := State [] [] [] [] [] [].

(** ** The monad *)

Definition M (A : Type) : Type := state -> option (A * state).

Definition ret {A} (a : A) : M A := fun s => Some (a, s).

Definition bind {A B} (m : M A) (k : A -> M B) : M B :=
  fun s => match m s with
           | Some (a, s') => k a s'
           | None => None
           end.

Definition fail {A} : M A := fun _ => None.

Declare Scope monad_scope.
Delimit Scope monad_scope with M.
Notation "x <- m ;; k" := (bind m (fun x => k))
  (at level 100, m at next level, right associativity) : monad_scope.
Notation "m ;;; k" := (bind m (fun _ => k))
  (at level 100, right associativity) : monad_scope.
Local Open Scope monad_scope.

Definition lift_option {A} (o : option A) : M A :=
  fun s => match o with Some a => Some (a, s) | None => None end.

Fixpoint mapM {A B} (f : A -> M B) (l : list A) : M (list B) :=
  match l with
  | [] => ret []
  | x :: l' => y <- f x ;; ys <- mapM f l' ;; ret (y :: ys)
  end.

(** ** Heap accessors *)

Definition set_promises (f : list promise -> list promise) (s : state) : state :=
  State (f (promises s)) (operations s) (links s) (cells s) (microtasks s) (log s).
Definition set_operations (f : list operation -> list operation) (s : state) : state :=
  State (promises s) (f (operations s)) (links s) (cells s) (microtasks s) (log s).
Definition set_links (f : list chainLink -> list chainLink) (s : state) : state :=
  State (promises s) (operations s) (f (links s)) (cells s) (microtasks s) (log s).
Definition set_cells (f : list allCell -> list allCell) (s : state) : state :=
  State (promises s) (operations s) (links s) (f (cells s)) (microtasks s) (log s).
Definition set_microtasks (f : list job -> list job) (s : state) : state :=
  State (promises s) (operations s) (links s) (cells s) (f (microtasks s)) (log s).
Definition set_log (f : list event -> list event) (s : state) : state :=
  State (promises s) (operations s) (links s) (cells s) (microtasks s) (f (log s)).

Definition get_promise (p : pid) : M promise := fun s => lift_option (promises s !! p) s.
Definition put_promise (p : pid) (x : promise) : M unit :=
  fun s => Some (tt, set_promises (fun l => <[p := x]> l) s).
Definition alloc_promise (x : promise) : M pid :=
  fun s => Some (length (promises s), set_promises (fun l => l ++ [x]) s).

Definition get_operation (o : oid) : M operation := fun s => lift_option (operations s !! o) s.
Definition put_operation (o : oid) (x : operation) : M unit :=
  fun s => Some (tt, set_operations (fun l => <[o := x]> l) s).
Definition alloc_operation (x : operation) : M oid :=
  fun s => Some (length (operations s), set_operations (fun l => l ++ [x]) s).

Definition get_link (k : lid) : M chainLink := fun s => lift_option (links s !! k) s.
Definition put_link (k : lid) (x : chainLink) : M unit :=
  fun s => Some (tt, set_links (fun l => <[k := x]> l) s).
Definition alloc_link (x : chainLink) : M lid :=
  fun s => Some (length (links s), set_links (fun l => l ++ [x]) s).

Definition get_cell (c : cid) : M allCell := fun s => lift_option (cells s !! c) s.
Definition put_cell (c : cid) (x : allCell) : M unit :=
  fun s => Some (tt, set_cells (fun l => <[c := x]> l) s).
Definition alloc_cell (x : allCell) : M cid :=
  fun s => Some (length (cells s), set_cells (fun l => l ++ [x]) s).

Definition enqueue (js : list job) : M unit :=
  fun s => Some (tt, set_microtasks (fun q => q ++ js) s).
Definition emit (e : event) : M unit :=
  fun s => Some (tt, set_log (fun l => l ++ [e]) s).

(** ** Promises *)

(** A new promise: pending, unresolved, nobody listening. *)
Definition fresh_promise : promise := Promise Pending [] false false.

Definition reaction_job (fulfilled : bool) (arg : value) (r : reaction) : job :=
  JReaction (if fulfilled then r_onFulfilled r else r_onRejected r)
            fulfilled (r_derived r) arg.

(** FulfillPromise and RejectPromise: settle a pending promise and schedule
    its reactions; a settled promise is left as it is. *)
Definition settle_promise (p : pid) (fulfilled : bool) (arg : value) : M unit :=
  x <- get_promise p ;;
  match p_state x with
  | Pending =>
      put_promise p (Promise (if fulfilled then Fulfilled arg else Rejected arg)
                             [] (p_resolved x) (p_handled x)) ;;;
      enqueue (map (reaction_job fulfilled arg) (p_reactions x))
  | _ => ret tt
  end.

(** The body of a promise resolve function, after its [alreadyResolved]
    check: a promise adopts a thenable, and is fulfilled with anything else. *)
Definition resolve_core (p : pid) (v : value) : M unit :=
  match v with
  | VPromise q =>
      if Nat.eqb q p then settle_promise p false VTypeError
      else enqueue [JThenable p q]
  | _ => settle_promise p true v
  end.

(** Modelled from the spec: [p.resolve(v)], a public method of
    [shaka.util.PublicPromise] (lib/util/public_promise.js, not part of the
    sources): the resolve function of the capability of [p].  The promise
    settles once: the first call of [resolve] or [reject] wins, later calls
    do nothing. *)
Definition resolve_fn (p : pid) (v : value) : M unit :=
  x <- get_promise p ;;
  if p_resolved x then ret tt
  else put_promise p (Promise (p_state x) (p_reactions x) true (p_handled x)) ;;;
       resolve_core p v.

(** Modelled from the spec: [p.reject(e)], the other public method of
    [shaka.util.PublicPromise]: the reject function of the capability. *)
Definition reject_fn (p : pid) (e : value) : M unit :=
  x <- get_promise p ;;
  if p_resolved x then ret tt
  else put_promise p (Promise (p_state x) (p_reactions x) true (p_handled x)) ;;;
       settle_promise p false e.

(** The second pair of resolving functions, made for the thenable a promise
    was resolved with; they act while the promise is pending. *)
Definition adopt_resolve (p : pid) (v : value) : M unit :=
  x <- get_promise p ;;
  match p_state x with
  | Pending => resolve_core p v
  | _ => ret tt
  end.

Definition adopt_reject (p : pid) (e : value) : M unit :=
  settle_promise p false e.

(** [p.then(onFulfilled, onRejected)]; [p.catch(f)] is [p.then(undefined, f)]. *)
Definition then_ (p : pid) (onFulfilled onRejected : option handler) : M pid :=
  d <- alloc_promise fresh_promise ;;
  x <- get_promise p ;;
  match p_state x with
  | Pending =>
      put_promise p (Promise Pending
                             (p_reactions x ++ [Reaction onFulfilled onRejected d])
                             (p_resolved x) true)
  | Fulfilled v =>
      put_promise p (Promise (p_state x) (p_reactions x) (p_resolved x) true) ;;;
      enqueue [JReaction onFulfilled true d v]
  | Rejected e =>
      put_promise p (Promise (p_state x) (p_reactions x) (p_resolved x) true) ;;;
      enqueue [JReaction onRejected false d e]
  end ;;;
  ret d.

Definition catch_ (p : pid) (onRejected : handler) : M pid :=
  then_ p None (Some onRejected).

(** Modelled from the spec: [new shaka.util.PublicPromise()], a pending
    promise; also [new Promise(...)]. *)
Definition new_promise : M pid := alloc_promise fresh_promise.

(** [Promise.resolve(v)]: a promise is returned as it is. *)
Definition promise_resolve (v : value) : M pid :=
  match v with
  | VPromise q => ret q
  | _ => p <- new_promise ;; resolve_fn p v ;;; ret p
  end.

(** [Promise.reject(e)]. *)
Definition promise_reject (e : value) : M pid :=
  p <- new_promise ;; reject_fn p e ;;; ret p.

(** The loop of [Promise.all] over its elements, from index [i]. *)
Fixpoint promise_all_loop (c : cid) (t : pid) (i : nat) (ps : list pid) : M unit :=
  match ps with
  | [] => ret tt
  | p :: ps' =>
      x <- get_cell c ;;
      put_cell c (AllCell (a_target x) (a_values x ++ [VUndefined])
                          (a_called x ++ [false]) (S (a_remaining x))) ;;;
      q <- promise_resolve (VPromise p) ;;
      then_ q (Some (HAllElement c i)) (Some (HCapReject t)) ;;;
      promise_all_loop c t (S i) ps'
  end.

(** [Promise.all(ps)] for a list of promises. *)
Definition promise_all (ps : list pid) : M pid :=
  t <- new_promise ;;
  c <- alloc_cell (AllCell t [] [] 1) ;;
  promise_all_loop c t 0 ps ;;;
  x <- get_cell c ;;
  put_cell c (AllCell (a_target x) (a_values x) (a_called x) (pred (a_remaining x))) ;;;
  (if Nat.eqb (pred (a_remaining x)) 0 then resolve_fn t (VArray (a_values x)) else ret tt) ;;;
  ret t.

(** A resolve element function of [Promise.all]. *)
Definition all_resolve_element (c : cid) (i : nat) (v : value) : M unit :=
  x <- get_cell c ;;
  match a_called x !! i with
  | Some false =>
      let values := <[i := v]> (a_values x) in
      put_cell c (AllCell (a_target x) values (<[i := true]> (a_called x))
                          (pred (a_remaining x))) ;;;
      if Nat.eqb (pred (a_remaining x)) 0 then resolve_fn (a_target x) (VArray values)
      else ret tt
  | _ => ret tt
  end.

(** ** shaka.util.AbortableOperation *)

Module AbortableOperation.

(** [new shaka.util.AbortableOperation(promise, onAbort)]. *)
Definition new (promise : pid) (onAbort : abortFn) : M oid :=
  alloc_operation (Operation promise onAbort None).

(** [get aborted()]. *)
Definition get_aborted (this : oid) : M bool :=
  op <- get_operation this ;;
  ret (match abortPromise_ op with Some _ => true | None => false end).

(** [static abortError()]. *)
Definition abortError : value := VError CRITICAL PLAYER OPERATION_ABORTED.

(** [static failed(error)]. *)
Definition failed (error : value) : M oid :=
  p <- promise_reject error ;;
  new p AResolved.

(** [static aborted()]. *)
Definition aborted : M oid :=
  p <- promise_reject abortError ;;
  catch_ p HNoop ;;;
  new p AResolved.

(** [static completed(value)]. *)
Definition completed (v : value) : M oid :=
  p <- promise_resolve v ;;
  new p AResolved.

(** [static notAbortable(promise)]. *)
Definition notAbortable (promise : pid) : M oid :=
  new promise (ACatch promise).

(** The body of the function stored in the closure variable [abort] of
    [chain]; [abort_rec] is the method [abort]. *)
Definition call_delegate (abort_rec : oid -> M pid) (k : lid) : M pid :=
  l <- get_link k ;;
  match l_abort l with
  | DInitial => reject_fn (l_newPromise l) abortError ;;; abort_rec (l_this l)
  | DOperation r => abort_rec r
  | DValue r => q <- promise_resolve r ;; then_ q (Some HNoop) (Some HNoop)
  | DResolved => promise_resolve VUndefined
  end.

(** The call [this.onAbort_()]. *)
Definition call_onAbort (abort_rec : oid -> M pid) (f : abortFn) : M pid :=
  match f with
  | AExternal r => ret r
  | AResolved => promise_resolve VUndefined
  | ACatch p => catch_ p HNoop
  | AAll ops => ps <- mapM abort_rec ops ;; promise_all ps
  | AChain k => call_delegate abort_rec k
  end.

(** [abort()].  The callbacks reach other operations through the heap, so
    the recursion is bounded by [fuel]; it fails when the bound is reached. *)
Fixpoint abort (fuel : nat) (this : oid) : M pid :=
  match fuel with
  | 0 => fail
  | S fuel' =>
      op <- get_operation this ;;
      match abortPromise_ op with
      | Some p => ret p
      | None =>
          emit (EvOnAbort this) ;;;
          p <- call_onAbort (abort fuel') (onAbort_ op) ;;
          op' <- get_operation this ;;
          put_operation this (Operation (op_promise op') (onAbort_ op') (Some p)) ;;;
          ret p
      end
  end.

(** [static all(operations)]. *)
Definition all (ops : list oid) : M oid :=
  ps <- mapM (fun o => op <- get_operation o ;; ret (op_promise op)) ops ;;
  t <- promise_all ps ;;
  new t (AAll ops).

(** [finally(onFinal)]. *)
Definition finally (this : oid) (onFinal : bool -> outcome) : M oid :=
  op <- get_operation this ;;
  then_ (op_promise op) (Some (HFinally onFinal true)) (Some (HFinally onFinal false)) ;;;
  ret this.

(** [static wrapChainCallback_(callback, value, newPromise)]. *)
Definition wrapChainCallback_ (cb : callback) (v : value) (newPromise : pid)
  : M delegate :=
  match cb v with
  | Return (VOperation r) =>
      rop <- get_operation r ;;
      resolve_fn newPromise (VPromise (op_promise rop)) ;;;
      ret (DOperation r)
  | Return r =>
      resolve_fn newPromise r ;;;
      ret (DValue r)
  | Throw exception =>
      reject_fn newPromise exception ;;;
      ret DResolved
  end.

(** The function [makeCallback(isSuccess)] of [chain], applied to [v]; the
    ghost event records that the continuation is about to be called, which
    is the first thing [wrapChainCallback_] does. *)
Definition makeCallback (k : lid) (isSuccess : bool) (v : value) : M unit :=
  l <- get_link k ;;
  this <- get_operation (l_this l) ;;
  if (match abortPromise_ this with Some _ => true | None => false end) && isSuccess
  then reject_fn (l_newPromise l) abortError
  else
    match (if isSuccess then l_onSuccess l else l_onError l) with
    | None =>
        if isSuccess then resolve_fn (l_newPromise l) v
        else reject_fn (l_newPromise l) v
    | Some cb =>
        emit (EvContinuation k isSuccess v) ;;;
        d <- wrapChainCallback_ cb v (l_newPromise l) ;;
        l' <- get_link k ;;
        put_link k (ChainLink (l_this l') (l_newPromise l') (l_onSuccess l')
                              (l_onError l') d)
    end.

(** [chain(onSuccess, onError)]. *)
Definition chain (this : oid) (onSuccess onError : option callback) : M oid :=
  newPromise <- new_promise ;;
  catch_ newPromise HNoop ;;;
  k <- alloc_link (ChainLink this newPromise onSuccess onError DInitial) ;;
  op <- get_operation this ;;
  then_ (op_promise op) (Some (HChainCallback true k)) (Some (HChainCallback false k)) ;;;
  new newPromise (AChain k).

End AbortableOperation.

(** ** The event loop *)

(** Calling a handler with [arg]. *)
Definition run_handler (h : handler) (arg : value) : M outcome :=
  match h with
  | HNoop => ret (Return VUndefined)
  | HChainCallback isSuccess k =>
      AbortableOperation.makeCallback k isSuccess arg ;;; ret (Return VUndefined)
  | HFinally onFinal flag => emit (EvFinal flag) ;;; ret (onFinal flag)
  | HCapReject t => reject_fn t arg ;;; ret (Return VUndefined)
  | HAdoptResolve t => adopt_resolve t arg ;;; ret (Return VUndefined)
  | HAdoptReject t => adopt_reject t arg ;;; ret (Return VUndefined)
  | HAllElement c i => all_resolve_element c i arg ;;; ret (Return VUndefined)
  end.

(** PromiseReactionJob and NewPromiseResolveThenableJob. *)
Definition run_job (j : job) : M unit :=
  match j with
  | JReaction None fulfilled d arg =>
      if fulfilled then resolve_fn d arg else reject_fn d arg
  | JReaction (Some h) _ d arg =>
      o <- run_handler h arg ;;
      match o with
      | Return r => resolve_fn d r
      | Throw e => reject_fn d e
      end
  | JThenable t q =>
      then_ q (Some (HAdoptResolve t)) (Some (HAdoptReject t)) ;;; ret tt
  end.

(** One turn of the job queue: the oldest job runs to completion. *)
Definition tick : M unit :=
  fun s => match microtasks s with
           | [] => None
           | j :: q => run_job j (set_microtasks (fun _ => q) s)
           end.

(** Run jobs until the queue is empty, at most [fuel] of them. *)
Fixpoint run_microtasks (fuel : nat) : M unit :=
  fun s => match microtasks s with
           | [] => Some (tt, s)
           | _ :: _ =>
               match fuel with
               | 0 => None
               | S fuel' => (tick ;;; run_microtasks fuel') s
               end
           end.

(** What the rest of the program can do between two jobs. *)
Inductive action :=
| ActNewPromise
| ActResolve (p : pid) (v : value)
| ActReject (p : pid) (e : value)
| ActThen (p : pid) (onFulfilled onRejected : option handler)
| ActNew (promise : pid) (onAbort : abortFn)
| ActFailed (error : value)
| ActAborted
| ActCompleted (v : value)
| ActNotAbortable (promise : pid)
| ActAbort (fuel : nat) (this : oid)
| ActAll (ops : list oid)
| ActFinally (this : oid) (onFinal : bool -> outcome)
| ActChain (this : oid) (onSuccess onError : option callback)
| ActTick.

Definition perform (a : action) : M unit :=
  match a with
  | ActNewPromise => new_promise ;;; ret tt
  | ActResolve p v => resolve_fn p v
  | ActReject p e => reject_fn p e
  | ActThen p f g => then_ p f g ;;; ret tt
  | ActNew p f => AbortableOperation.new p f ;;; ret tt
  | ActFailed e => AbortableOperation.failed e ;;; ret tt
  | ActAborted => AbortableOperation.aborted ;;; ret tt
  | ActCompleted v => AbortableOperation.completed v ;;; ret tt
  | ActNotAbortable p => AbortableOperation.notAbortable p ;;; ret tt
  | ActAbort fuel o => AbortableOperation.abort fuel o ;;; ret tt
  | ActAll ops => AbortableOperation.all ops ;;; ret tt
  | ActFinally o f => AbortableOperation.finally o f ;;; ret tt
  | ActChain o f g => AbortableOperation.chain o f g ;;; ret tt
  | ActTick => tick
  end.

(** [run as s]: the actions [as] performed in order from [s]. *)
Fixpoint run (acts : list action) : M unit :=
  match acts with
  | [] => ret tt
  | a :: acts' => perform a ;;; run acts'
  end.

(** * Observations and invariants *)

Import AbortableOperation.

(** ** What can be observed of a state *)

(** The state of the promise [p], if it is in the heap. *)
Definition promise_state (s : state) (p : pid) : option pstate :=
  p_state <$> promises s !! p.

(** Whether the rejection of [p] has been observed (a handler was attached). *)
Definition promise_handled (s : state) (p : pid) : option bool :=
  p_handled <$> promises s !! p.

(** The state of [o.promise]. *)
Definition result_state (s : state) (o : oid) : option pstate :=
  match operations s !! o with
  | Some op => promise_state s (op_promise op)
  | None => None
  end.

Fixpoint count {A} (f : A -> bool) (l : list A) : nat :=
  match l with
  | [] => 0
  | x :: l' => (if f x then 1 else 0) + count f l'
  end.

Definition is_onAbort (o : oid) (e : event) : bool :=
  match e with EvOnAbort o' => Nat.eqb o' o | _ => false end.

Definition is_continuation (k : lid) (isSuccess : bool) (e : event) : bool :=
  match e with
  | EvContinuation k' b _ => Nat.eqb k' k && Bool.eqb b isSuccess
  | _ => false
  end.

(** How many times [o.onAbort_] has been called. *)
Definition onAbort_calls (s : state) (o : oid) : nat := count (is_onAbort o) (log s).

(** How many times the continuation of link [k] has been called. *)
Definition continuation_calls (s : state) (k : lid) (isSuccess : bool) : nat :=
  count (is_continuation k isSuccess) (log s).

(** What a run from [s] lets one observe, if it succeeds. *)
Definition observe {A B} (m : M A) (s : state) (f : A -> state -> B) : option B :=
  match m s with
  | Some (a, s') => Some (f a s')
  | None => None
  end.

(** The result of [o] is [st] and stays so, whatever the program does. *)
Definition settled_for_good (s : state) (o : oid) (st : pstate) : Prop :=
  result_state s o = Some st /\
  forall acts s', run acts s = Some (tt, s') -> result_state s' o = Some st.

(** [n] calls of [o.abort()] in a row; the result lists the promises returned. *)
Fixpoint abort_times (n fuel : nat) (o : oid) : M (list pid) :=
  match n with
  | 0 => ret []
  | S n' => p <- abort fuel o ;; ps <- abort_times n' fuel o ;; ret (p :: ps)
  end.

(** The value a continuation returned is neither a promise nor an operation. *)
Definition plain (v : value) : bool :=
  match v with VPromise _ | VOperation _ => false | _ => true end.

(** An [onAbort] function that calls no other operation: one supplied by the
    caller, or that of [completed], [failed] and [aborted], or that of
    [notAbortable] for a promise of the heap. *)
Definition standalone (s : state) (f : abortFn) : Prop :=
  match f with
  | AExternal _ | AResolved => True
  | ACatch p => is_Some (promises s !! p)
  | AAll _ | AChain _ => False
  end.

(** ** How a state evolves

    [evolves s s'] collects what no operation ever undoes: objects stay
    where they are; a settled promise keeps its state, a resolved one stays
    resolved; an operation keeps its promise and its [onAbort_], and stays
    aborted once it is; a link keeps everything but its variable [abort];
    the log grows, with [onAbort_] events only for operations that were not
    aborted and success continuations only for links whose upstream
    operation was not aborted. *)

Definition promise_le (x x' : promise) : Prop :=
  (p_state x <> Pending -> p_state x' = p_state x) /\
  (p_resolved x = true -> p_resolved x' = true) /\
  (p_handled x = true -> p_handled x' = true).

Definition operation_le (x x' : operation) : Prop :=
  op_promise x' = op_promise x /\
  onAbort_ x' = onAbort_ x /\
  (is_Some (abortPromise_ x) -> is_Some (abortPromise_ x')).

Definition link_le (x x' : chainLink) : Prop :=
  l_this x' = l_this x /\
  l_newPromise x' = l_newPromise x /\
  l_onSuccess x' = l_onSuccess x /\
  l_onError x' = l_onError x.

Definition event_allowed (s : state) (e : event) : Prop :=
  match e with
  | EvOnAbort o =>
      forall x, operations s !! o = Some x -> abortPromise_ x = None
  | EvContinuation k true _ =>
      forall l x, links s !! k = Some l -> operations s !! l_this l = Some x ->
                  abortPromise_ x = None
  | _ => True
  end.

Record evolves (s s' : state) : Prop := Evolves {
  ev_promises : forall p x, promises s !! p = Some x ->
      exists x', promises s' !! p = Some x' /\ promise_le x x';
  ev_operations : forall o x, operations s !! o = Some x ->
      exists x', operations s' !! o = Some x' /\ operation_le x x';
  ev_links : forall k x, links s !! k = Some x ->
      exists x', links s' !! k = Some x' /\ link_le x x';
  ev_log : exists ext, log s' = log s ++ ext /\ Forall (event_allowed s) ext
}.

Definition mono {A} (m : M A) : Prop :=
  forall s a s', m s = Some (a, s') -> evolves s s'.

(** ** The abort race of [chain] *)

(** [abort_committed s a b k np f g]: [b] is the operation returned by
    [a.chain(f, g)], with closure environment [k] and promise [np]; an abort
    has been requested on [a] and [np] has been rejected with the abort
    error.  This is the state in which the first [b.abort()] leaves the heap
    when it comes before the continuation. *)
Definition abort_committed (s : state) (a b : oid) (k : lid) (np : pid)
    (f g : option callback) : Prop :=
  (exists ab, operations s !! b = Some (Operation np (AChain k) ab)) /\
  (exists d, links s !! k = Some (ChainLink a np f g d)) /\
  (exists xa, operations s !! a = Some xa /\ is_Some (abortPromise_ xa)) /\
  (exists y, promises s !! np = Some y /\ p_resolved y = true /\
             p_state y = Rejected abortError).

(** ** [Promise.all] as a machine

    The aggregate promise of [Promise.all(ps)] is described by a small
    machine.  Each element is pending, settled with its job waiting in the
    queue, or processed (its job has run); the machine keeps the queue of
    waiting elements and the reason of the first rejection processed. *)

Inductive status :=
| SPending
| SQueued (fulfilled : bool) (arg : value)
| SProcessed (fulfilled : bool) (arg : value).

Record agg := Agg {
  g_sts : list status;
  g_queue : list (nat * bool * value);
  g_first : option value
}.

Inductive agg_event :=
| AggSettle (i : nat) (fulfilled : bool) (arg : value)  (* element [i] is settled *)
| AggTick.                                              (* the oldest job runs *)

Definition agg_step (ev : agg_event) (g : agg) : option agg :=
  match ev with
  | AggSettle i b arg =>
      match g_sts g !! i with
      | Some SPending =>
          if b && thenable arg then None
          else Some (Agg (<[i := SQueued b arg]> (g_sts g))
                         (g_queue g ++ [(i, b, arg)]) (g_first g))
      | _ => None
      end
  | AggTick =>
      match g_queue g with
      | (i, b, arg) :: q =>
          Some (Agg (<[i := SProcessed b arg]> (g_sts g)) q
                    (match g_first g with
                     | Some e => Some e
                     | None => if b then None else Some arg
                     end))
      | [] => None
      end
  end.

Fixpoint agg_run (evs : list agg_event) (g : agg) : option agg :=
  match evs with
  | [] => Some g
  | ev :: evs' =>
      match agg_step ev g with
      | Some g' => agg_run evs' g'
      | None => None
      end
  end.

(** The value an element contributes, and whether its resolve element
    function was called. *)
Definition value_of (st : status) : value :=
  match st with SProcessed true v => v | _ => VUndefined end.

Definition called_of (st : status) : bool :=
  match st with SProcessed true _ => true | _ => false end.

(** The number of elements whose resolve element function was not called. *)
Definition open_count (sts : list status) : nat :=
  count (fun st => negb (called_of st)) sts.

(** The state of the aggregate promise: rejected with the first rejection
    processed; else fulfilled with the values, in the order of the elements,
    once every element was processed as fulfilled; else pending. *)
Definition agg_result (g : agg) : pstate :=
  match g_first g with
  | Some e => Rejected e
  | None =>
      if Nat.eqb (open_count (g_sts g)) 0
      then Fulfilled (VArray (map value_of (g_sts g)))
      else Pending
  end.

(** The elements as [Promise.all] finds them. *)
Definition init_status (x : pstate) : status :=
  match x with
  | Pending => SPending
  | Fulfilled v => SQueued true v
  | Rejected e => SQueued false e
  end.

Fixpoint queued_from (i : nat) (sts : list status) : list (nat * bool * value) :=
  match sts with
  | [] => []
  | SQueued b arg :: sts' => (i, b, arg) :: queued_from (S i) sts'
  | _ :: sts' => queued_from (S i) sts'
  end.

Definition agg_init (xs : list pstate) : agg :=
  Agg (map init_status xs) (queued_from 0 (map init_status xs)) None.

(** The events on the heap: element [i] of [ps] is settled by its owner, or
    the oldest job runs. *)
Definition agg_perform (ps : list pid) (ev : agg_event) : M unit :=
  match ev with
  | AggSettle i b arg =>
      p <- lift_option (ps !! i) ;;
      if b then resolve_fn p arg else reject_fn p arg
  | AggTick => tick
  end.

Fixpoint agg_perform_all (ps : list pid) (evs : list agg_event) : M unit :=
  match evs with
  | [] => ret tt
  | ev :: evs' => agg_perform ps ev ;;; agg_perform_all ps evs'
  end.

(** When the jobs scheduled by the call of [Promise.all] have run, the
    aggregate promise is rejected with the reason of the first rejected
    element, in the order of the list; else fulfilled with the values in
    that order if every element was fulfilled; else pending. *)

Fixpoint first_rejection (xs : list pstate) : option value :=
  match xs with
  | [] => None
  | Rejected e :: _ => Some e
  | _ :: xs' => first_rejection xs'
  end.

Fixpoint fulfilled_values (xs : list pstate) : option (list value) :=
  match xs with
  | [] => Some []
  | Fulfilled v :: xs' =>
      match fulfilled_values xs' with
      | Some vs => Some (v :: vs)
      | None => None
      end
  | _ :: _ => None
  end.

Definition settled_result (xs : list pstate) : pstate :=
  match first_rejection xs with
  | Some e => Rejected e
  | None =>
      match fulfilled_values xs with
      | Some vs => Fulfilled (VArray vs)
      | None => Pending
      end
  end.

(** The number of jobs the call schedules. *)
Definition settled_count (xs : list pstate) : nat :=
  length (queued_from 0 (map init_status xs)).

Definition process (st : status) : status :=
  match st with SQueued b arg => SProcessed b arg | _ => st end.

Definition note_rejection (fr : option value) (st : status) : option value :=
  match fr with
  | Some e => Some e
  | None => match st with SQueued false e => Some e | _ => None end
  end.

(** ** The heap of [Promise.all] *)

(** What a first call of a resolving function makes of a promise record. *)
Definition settle_rec (fulfilled : bool) (arg : value) (x : promise) : promise :=
  if p_resolved x then x
  else Promise (if fulfilled then Fulfilled arg else Rejected arg) [] true (p_handled x).

Definition member_reaction (c t i : nat) : reaction :=
  Reaction (Some (HAllElement c i)) (Some (HCapReject t)) (S t + i).

Definition member_job (c t : nat) (e : nat * bool * value) : job :=
  match e with
  | (i, b, arg) =>
      JReaction (Some (if b then HAllElement c i else HCapReject t)) b (S t + i) arg
  end.

(** The record of the aggregate promise, nobody listening to it. *)
Definition target_promise (g : agg) : promise :=
  match agg_result g with
  | Pending => fresh_promise
  | st => Promise st [] true false
  end.

(** [all_inv c t ps g s]: in [s], the promise [t] is the aggregate of
    [Promise.all(ps)], with record [c], in the configuration [g].  The
    elements are distinct promises older than [t]; a pending element has the
    reaction of the aggregate and no other; the queue holds the jobs of [g]
    and no other. *)
Record all_inv (c t : nat) (ps : list pid) (g : agg) (s : state) : Prop := AllInv {
  ai_length : length (g_sts g) = length ps;
  ai_nodup : NoDup ps;
  ai_old : forall i p, ps !! i = Some p -> p < t;
  ai_cell : cells s !! c =
      Some (AllCell t (map value_of (g_sts g)) (map called_of (g_sts g))
                    (open_count (g_sts g)));
  ai_member : forall i p st, ps !! i = Some p -> g_sts g !! i = Some st ->
      exists x, promises s !! p = Some x /\
        match st with
        | SPending => x = Promise Pending [member_reaction c t i] false true
        | SQueued b arg | SProcessed b arg =>
            p_state x = (if b then Fulfilled arg else Rejected arg)
        end;
  ai_derived : forall i st, g_sts g !! i = Some st ->
      promises s !! (S t + i) =
      Some (match st with
            | SProcessed _ _ => Promise (Fulfilled VUndefined) [] true false
            | _ => fresh_promise
            end);
  ai_target : promises s !! t = Some (target_promise g);
  ai_queue : microtasks s = map (member_job c t) (g_queue g);
  ai_queued : forall i b arg, In (i, b, arg) (g_queue g) ->
      g_sts g !! i = Some (SQueued b arg);
  ai_queue_nodup : NoDup (map (fun e => fst (fst e)) (g_queue g))
}.

(** The configuration after the job of element [i] has run. *)
Definition agg_processed (g : agg) (i : nat) (b : bool) (arg : value)
    (q : list (nat * bool * value)) : agg :=
  Agg (<[i := SProcessed b arg]> (g_sts g)) q
      (match g_first g with
       | Some e => Some e
       | None => if b then None else Some arg
       end).

(** The state after the job of element [i] has run. *)
Definition ticked (c t : nat) (g' : agg) (i : nat) (q : list (nat * bool * value))
    (s : state) : state :=
  State (<[S t + i := Promise (Fulfilled VUndefined) [] true false]>
           (<[t := target_promise g']> (promises s)))
        (operations s) (links s)
        (<[c := AllCell t (map value_of (g_sts g')) (map called_of (g_sts g'))
                        (open_count (g_sts g'))]> (cells s))
        (map (member_job c t) q) (log s).

Definition unprocessed (st : status) : Prop :=
  match st with SProcessed _ _ => False | _ => True end.

(** A promise [Promise.all] may be given: in the heap, and if it is pending,
    unresolved and with nobody listening. *)
Definition quiet_member (s : state) (p : pid) (x : promise) : Prop :=
  promises s !! p = Some x /\
  (p_state x = Pending -> p_reactions x = [] /\ p_resolved x = false).

(** The heap in the course of the loop of [Promise.all]: the elements [done]
    have been visited, [s0] is the heap before the call. *)
Record loop_inv (s0 : state) (c t : nat) (done : list pid) (sts : list status)
    (s : state) : Prop := LoopInv {
  li_length : length sts = length done;
  li_unprocessed : Forall unprocessed sts;
  li_promises : length (promises s) = S t + length done;
  li_cell : cells s !! c =
      Some (AllCell t (replicate (length done) VUndefined)
                    (replicate (length done) false) (S (length done)));
  li_member : forall i p st, done !! i = Some p -> sts !! i = Some st ->
      exists x, promises s !! p = Some x /\
        match st with
        | SPending => x = Promise Pending [member_reaction c t i] false true
        | SQueued b arg | SProcessed b arg =>
            p_state x = (if b then Fulfilled arg else Rejected arg)
        end;
  li_derived : forall i, i < length done ->
      promises s !! (S t + i) = Some fresh_promise;
  li_target : promises s !! t = Some fresh_promise;
  li_queue : microtasks s = map (member_job c t) (queued_from 0 sts);
  li_rest : forall p, p < t -> ~ In p done -> promises s !! p = promises s0 !! p;
  li_same : operations s = operations s0 /\ links s = links s0 /\ log s = log s0
}.

(** ** Sample continuations and heaps *)

(** [v => v * 2], on numbers. *)
Definition double : callback :=
  fun v => match v with
           | VNumber n => Return (VNumber (n * 2))
           | _ => Return VUndefined
           end.

(** [() => { throw boom; }]. *)
Definition thrower (boom : value) : callback := fun _ => Throw boom.

(** A heap with one pending promise, one fulfilled promise and an operation
    built from them by the caller. *)
Definition leaf_state : state :=
  State [fresh_promise; Promise (Fulfilled VUndefined) [] true false]
        [Operation 0 (AExternal 1) None] [] [] [] [].

(** The heap after [b = a.chain(double, double)], where [a] is the operation
    of [leaf_state]: [b] is operation 1, its link is 0 and its promise is 2. *)
Definition chained_state : state :=
  Eval cbv - [double] in
    match chain 0 (Some double) (Some double) leaf_state with
    | Some (_, s) => s
    | None => leaf_state
    end.

(** The heap after [b = completed(1).chain(() => { throw boom; })] on the
    empty heap: [a] is operation 0, [b] is operation 1, its link is 0 and
    its promise is 1. *)
Definition thrown_state (boom : value) : state :=
  match (a <- completed (VNumber 1) ;; chain a (Some (thrower boom)) None)
          empty_state with
  | Some (_, s) => s
  | None => empty_state
  end.

(** The heap after [b = completed(2).chain(double)] on the empty heap: [a] is
    operation 0, [b] is operation 1, its link is 0 and its promise is 1. *)
Definition doubled_state : state :=
  match (a <- completed (VNumber 2) ;; chain a (Some double) None) empty_state with
  | Some (_, s) => s
  | None => empty_state
  end.

(** The heap after [a = completed(1)] and [b = failed(err)] on the empty heap. *)
Definition pair_state (err : value) : state :=
  match (a <- completed (VNumber 1) ;; failed err) empty_state with
  | Some (_, s) => s
  | None => empty_state
  end.

(** ** Further observations and sample heaps *)

(** Whether a settled promise was fulfilled. *)
Definition succeeded (st : pstate) : bool :=
  match st with Fulfilled _ => true | _ => false end.

(** [chain_result s a f g fuel out lg]: [b = a.chain(f, g)] called in [s],
    then the jobs run: the result of [b] is [out], the log of calls is [lg]
    and the job queue is empty. *)
Definition chain_result (s : state) (a : oid) (f g : option callback) (fuel : nat)
    (out : pstate) (lg : list event) : Prop :=
  exists s2,
    (b <- chain a f g ;; run_microtasks (S (S fuel)) ;;; ret b) s
      = Some (length (operations s), s2) /\
    result_state s2 (length (operations s)) = Some out /\
    log s2 = lg /\
    microtasks s2 = [].

(** [() => r]: a continuation that returns [r] whatever it is given. *)
Definition returning (r : value) : callback := fun _ => Return r.

(** [leaf_state] after [abort()] on its operation. *)
Definition aborted_leaf_state : state :=
  match abort 1 0 leaf_state with
  | Some (_, s) => s
  | None => leaf_state
  end.

(** The heap after [r = new AbortableOperation(p, onAbort)], for a new
    promise [p], and [b = a.chain(() => r)] on [leaf_state]: [r] is
    operation 1 and its promise is 2; [b] is operation 2, its link is 0 and
    its promise is 3. *)
Definition forwarding_state : state :=
  match (p <- new_promise ;;
         r <- new p (AExternal 1) ;;
         chain 0 (Some (returning (VOperation r))) None) leaf_state with
  | Some (_, s) => s
  | None => leaf_state
  end.

(** [doubled_state] once its two jobs have run: the continuation has
    returned 4. *)
Definition doubled_done_state : state :=
  match run_microtasks 2 doubled_state with
  | Some (_, s) => s
  | None => doubled_state
  end.

(** The heap after [b = completed(1).chain(() => p)] for a new promise [p],
    once the two jobs have run: [p] is promise 1, [b] is operation 1, its
    link is 0 and its promise is 2, which follows [p]. *)
Definition following_state : state :=
  match (a <- completed (VNumber 1) ;;
         p <- new_promise ;;
         chain a (Some (returning (VPromise p))) None ;;;
         run_microtasks 2) empty_state with
  | Some (_, s) => s
  | None => empty_state
  end.

(** * shaka.media.GapJumpingController

    The class watches a media element and moves its playhead over gaps of the
    buffered ranges.  Its numbers are those of JavaScript, IEEE 754 binary64:
    [==] is [PrimFloat.eqb], [<] is [PrimFloat.ltb], [a >= b] is
    [PrimFloat.leb b a], and each is [false] on NaN.  The counter of the gaps
    starts at 0 and only ever has 1 added to it; it is a natural number here,
    which is exact below 2^53.

    What the class uses of the rest of the player is not in the sources and is
    taken as a parameter: the stall detector, [TimeRangesUtils.getGapIndex],
    the three questions to [Platform]; so are [Math.ceil] and what the browser
    does when [currentTime] is assigned.  A stall detector holds the media
    element it watches, so its [poll] may change that element.  The media
    element and the end of the seek range change under the controller: they are
    the part of the world that the browser and the timeline own. *)

Module GapJumpingController.

Abbreviation number := PrimFloat.float (only parsing).

(** [TimeRanges]: [start(i)] and [end(i)] throw when there is no range [i]. *)
Abbreviation TimeRanges :=
  (list (PrimFloat.float * PrimFloat.float)) (only parsing).

Definition TimeRanges_start (b : TimeRanges) (i : nat) : option number :=
  fst <$> b !! i.

Definition TimeRanges_end (b : TimeRanges) (i : nat) : option number :=
  snd <$> b !! i.

Record HTMLMediaElement := MediaElement {
  readyState : nat;
  seeking : bool;
  paused : bool;
  autoplay : bool;
  currentTime : number;
  buffered : TimeRanges
}.

Record StreamingConfiguration := Configuration {
  gapJumpTimerTime : number;
  gapDetectionThreshold : number;
  gapPadding : number
}.

(** [shaka.util.FakeEvent]: the controller raises one kind of event. *)
Inductive FakeEvent := GapJumped.

(** The two messages of [shaka.log.info], with their numbers. *)
Inductive message :=
  | JumpBeforeStart (jumpSize jumpTo : number)
      (* 'Jumping forward', jumpSize,
         'seconds because of gap before start time of', jumpTo *)
  | JumpOverGap (jumpSize gapStart jumpTo : number).
      (* 'Jumping forward', jumpSize, 'seconds because of gap starting at',
         gapStart, 'and ending at', jumpTo *)

Class Collaborators := {
  StallDetector : Type;
  (* [stallDetector.poll()]: whether the detector took some action, its next
     state, and the media element as it leaves it *)
  StallDetector_poll :
    StallDetector -> HTMLMediaElement -> bool * StallDetector * HTMLMediaElement;
  (* [shaka.media.TimeRangesUtils.getGapIndex(buffered, time, threshold)];
     [None]: [null] *)
  getGapIndex : TimeRanges -> number -> number -> option nat;
  isLegacyEdge : bool;
  isXboxOne : bool;
  isTizen : bool;
  Math_ceil : number -> number;
  (* the assignment [video.currentTime = t] *)
  set_currentTime : number -> HTMLMediaElement -> HTMLMediaElement
}.

Section Controller.
Context {platform : Collaborators}.

(** The fields of the controller.  The media element, the timeline and the
    callback [onEvent] are objects of the world; the controller holds a
    reference to each, or [null]. *)
Record controller := Controller {
  onEvent_ : bool;  (* [false]: [null] *)
  video_ : bool;  (* [false]: [null] *)
  timeline_ : bool;  (* [false]: [null] *)
  config_ : StreamingConfiguration;
  eventManager_ : bool;  (* [false]: [null] *)
  started_ : bool;
  seekingEventReceived_ : bool;
  prevReadyState_ : nat;
  startTime_ : number;
  gapsJumped_ : nat;
  stallDetector_ : option StallDetector;  (* [None]: [null] *)
  hadSegmentAppended_ : bool;
  (* [None]: [null]; [Some None]: a timer that was not started;
     [Some (Some t)]: a timer that ticks every [t] seconds *)
  gapJumpTimer_ : option (option number)
}.

(** The world of a controller: the controller itself, what it reads of the
    media element and of the timeline, and what it has done to the outside. *)
Record world := World {
  this : controller;  (* the controller *)
  video : HTMLMediaElement;  (* the media element *)
  seekRangeEnd : number;  (* what [timeline.getSeekRangeEnd()] returns *)
  seeks : list number;  (* the values assigned to [video.currentTime], in order *)
  dispatched : list FakeEvent;  (* the events passed to [onEvent], in order *)
  info : list message  (* the messages passed to [shaka.log.info], in order *)
}.

Definition set_onEvent_ (x : bool) (c : controller) : controller :=
  Controller x (video_ c) (timeline_ c) (config_ c) (eventManager_ c) (started_ c)
    (seekingEventReceived_ c) (prevReadyState_ c) (startTime_ c) (gapsJumped_ c)
    (stallDetector_ c) (hadSegmentAppended_ c) (gapJumpTimer_ c).

Definition set_video_ (x : bool) (c : controller) : controller :=
  Controller (onEvent_ c) x (timeline_ c) (config_ c) (eventManager_ c) (started_ c)
    (seekingEventReceived_ c) (prevReadyState_ c) (startTime_ c) (gapsJumped_ c)
    (stallDetector_ c) (hadSegmentAppended_ c) (gapJumpTimer_ c).

Definition set_timeline_ (x : bool) (c : controller) : controller :=
  Controller (onEvent_ c) (video_ c) x (config_ c) (eventManager_ c) (started_ c)
    (seekingEventReceived_ c) (prevReadyState_ c) (startTime_ c) (gapsJumped_ c)
    (stallDetector_ c) (hadSegmentAppended_ c) (gapJumpTimer_ c).

Definition set_eventManager_ (x : bool) (c : controller) : controller :=
  Controller (onEvent_ c) (video_ c) (timeline_ c) (config_ c) x (started_ c)
    (seekingEventReceived_ c) (prevReadyState_ c) (startTime_ c) (gapsJumped_ c)
    (stallDetector_ c) (hadSegmentAppended_ c) (gapJumpTimer_ c).

Definition set_started_ (x : bool) (c : controller) : controller :=
  Controller (onEvent_ c) (video_ c) (timeline_ c) (config_ c) (eventManager_ c) x
    (seekingEventReceived_ c) (prevReadyState_ c) (startTime_ c) (gapsJumped_ c)
    (stallDetector_ c) (hadSegmentAppended_ c) (gapJumpTimer_ c).

Definition set_seekingEventReceived_ (x : bool) (c : controller) : controller :=
  Controller (onEvent_ c) (video_ c) (timeline_ c) (config_ c) (eventManager_ c)
    (started_ c) x (prevReadyState_ c) (startTime_ c) (gapsJumped_ c) (stallDetector_ c)
    (hadSegmentAppended_ c) (gapJumpTimer_ c).

Definition set_prevReadyState_ (x : nat) (c : controller) : controller :=
  Controller (onEvent_ c) (video_ c) (timeline_ c) (config_ c) (eventManager_ c)
    (started_ c) (seekingEventReceived_ c) x (startTime_ c) (gapsJumped_ c)
    (stallDetector_ c) (hadSegmentAppended_ c) (gapJumpTimer_ c).

Definition set_startTime_ (x : number) (c : controller) : controller :=
  Controller (onEvent_ c) (video_ c) (timeline_ c) (config_ c) (eventManager_ c)
    (started_ c) (seekingEventReceived_ c) (prevReadyState_ c) x (gapsJumped_ c)
    (stallDetector_ c) (hadSegmentAppended_ c) (gapJumpTimer_ c).

Definition set_gapsJumped_ (x : nat) (c : controller) : controller :=
  Controller (onEvent_ c) (video_ c) (timeline_ c) (config_ c) (eventManager_ c)
    (started_ c) (seekingEventReceived_ c) (prevReadyState_ c) (startTime_ c) x
    (stallDetector_ c) (hadSegmentAppended_ c) (gapJumpTimer_ c).

Definition set_stallDetector_ (x : option StallDetector) (c : controller) : controller :=
  Controller (onEvent_ c) (video_ c) (timeline_ c) (config_ c) (eventManager_ c)
    (started_ c) (seekingEventReceived_ c) (prevReadyState_ c) (startTime_ c)
    (gapsJumped_ c) x (hadSegmentAppended_ c) (gapJumpTimer_ c).

Definition set_hadSegmentAppended_ (x : bool) (c : controller) : controller :=
  Controller (onEvent_ c) (video_ c) (timeline_ c) (config_ c) (eventManager_ c)
    (started_ c) (seekingEventReceived_ c) (prevReadyState_ c) (startTime_ c)
    (gapsJumped_ c) (stallDetector_ c) x (gapJumpTimer_ c).

Definition set_gapJumpTimer_ (x : option (option number)) (c : controller) : controller :=
  Controller (onEvent_ c) (video_ c) (timeline_ c) (config_ c) (eventManager_ c)
    (started_ c) (seekingEventReceived_ c) (prevReadyState_ c) (startTime_ c)
    (gapsJumped_ c) (stallDetector_ c) (hadSegmentAppended_ c) x.

Definition set_this (x : controller) (w : world) : world :=
  World x (video w) (seekRangeEnd w) (seeks w) (dispatched w) (info w).

Definition set_video (x : HTMLMediaElement) (w : world) : world :=
  World (this w) x (seekRangeEnd w) (seeks w) (dispatched w) (info w).

Definition set_seekRangeEnd (x : number) (w : world) : world :=
  World (this w) (video w) x (seeks w) (dispatched w) (info w).

Definition set_seeks (x : list number) (w : world) : world :=
  World (this w) (video w) (seekRangeEnd w) x (dispatched w) (info w).

Definition set_dispatched (x : list FakeEvent) (w : world) : world :=
  World (this w) (video w) (seekRangeEnd w) (seeks w) x (info w).

Definition set_info (x : list message) (w : world) : world :=
  World (this w) (video w) (seekRangeEnd w) (seeks w) (dispatched w) x.

Definition update (f : controller -> controller) (w : world) : world :=
  set_this (f (this w)) w.

(** How a call ends: it returns, or throws (a [TypeError] on [null], or the
    exception of [TimeRanges]); the world is as the call leaves it. *)
Inductive completion :=
  | Returns (w : world)
  | Throws (w : world).

Definition after (c : completion) : world :=
  match c with
  | Returns w | Throws w => w
  end.

#[warnings="-inexact-float"]
Definition BROWSER_GAP_TOLERANCE : number := 0.001%float.

(** The constructor.  [timeline] is given by the end of its seek range, and
    [onEvent] by the list of the events it is called with, empty at first. *)
Definition constructor (video : HTMLMediaElement) (timeline : number)
    (config : StreamingConfiguration) (stallDetector : option StallDetector)
    : world :=
  World
    (Controller true true true config true false false (readyState video)
       0%float 0 stallDetector false (Some None))
    video timeline [] [] [].

(** [this.stallDetector_ && this.stallDetector_.poll()] *)
Definition poll_stallDetector_ (w : world) : bool * world :=
  match stallDetector_ (this w) with
  | None => (false, w)
  | Some d =>
      let '(acted, d', v') := StallDetector_poll d (video w) in
      (acted, set_video v' (update (set_stallDetector_ (Some d')) w))
  end.

Definition onPollGapJump_ (w : world) : completion :=
  if negb (video_ (this w)) then Throws w else
  if readyState (video w) =? 0 then Returns w else
  if negb (started_ (this w)) then Returns w else
  if seeking (video w) && negb (seekingEventReceived_ (this w)) then Returns w else
  let w :=
    if seeking (video w) then w else update (set_seekingEventReceived_ false) w in
  if paused (video w) &&
     (negb (PrimFloat.eqb (currentTime (video w)) (startTime_ (this w))) ||
      (negb (autoplay (video w)) &&
       PrimFloat.eqb (currentTime (video w)) (startTime_ (this w))))
  then Returns w else
  let w :=
    if negb (readyState (video w) =? prevReadyState_ (this w))
    then update (set_prevReadyState_ (readyState (video w))) w
    else w in
  let '(acted, w) := poll_stallDetector_ w in
  if acted then Returns w else
  let currentTime := currentTime (video w) in
  let buffered := buffered (video w) in
  let gapDetectionThreshold := gapDetectionThreshold (config_ (this w)) in
  match getGapIndex buffered currentTime gapDetectionThreshold with
  | None => Returns w
  | Some gapIndex =>
  if (gapIndex =? 0) && negb (hadSegmentAppended_ (this w)) then Returns w else
  match TimeRanges_start buffered gapIndex with
  | None => Throws w
  | Some jumpTo =>
  let jumpTo :=
    if isLegacyEdge || isXboxOne || isTizen
    then
      let gapPadding := gapPadding (config_ (this w)) in
      PrimFloat.div
        (Math_ceil (PrimFloat.mul (PrimFloat.add jumpTo gapPadding) 100%float))
        100%float
    else jumpTo in
  if negb (timeline_ (this w)) then Throws w else
  let seekEnd := seekRangeEnd w in
  if PrimFloat.leb seekEnd jumpTo then Returns w else
  let jumpSize := PrimFloat.sub jumpTo currentTime in
  if PrimFloat.ltb jumpSize BROWSER_GAP_TOLERANCE then Returns w else
  match
    (if gapIndex =? 0
     then Some (JumpBeforeStart jumpSize jumpTo)
     else
       gapStart ← TimeRanges_end buffered (gapIndex - 1);
       Some (JumpOverGap jumpSize gapStart jumpTo))
  with
  | None => Throws w
  | Some line =>
  let w := set_info (info w ++ [line]) w in
  let w :=
    set_seeks (seeks w ++ [jumpTo])
      (set_video (set_currentTime jumpTo (video w)) w) in
  let w :=
    if PrimFloat.eqb currentTime (startTime_ (this w))
    then update (set_startTime_ jumpTo) w
    else w in
  let w := update (set_gapsJumped_ (S (gapsJumped_ (this w)))) w in
  if negb (onEvent_ (this w)) then Throws w else
  Returns (set_dispatched (dispatched w ++ [GapJumped]) w)
  end end end.

Definition release (w : world) : completion :=
  let w :=
    if eventManager_ (this w) then update (set_eventManager_ false) w else w in
  let w :=
    match gapJumpTimer_ (this w) with
    | Some _ => update (set_gapJumpTimer_ None) w
    | None => w
    end in
  let w :=
    match stallDetector_ (this w) with
    | Some _ => update (set_stallDetector_ None) w
    | None => w
    end in
  let w := update (set_onEvent_ false) w in
  let w := update (set_timeline_ false) w in
  let w := update (set_video_ false) w in
  Returns w.

Definition onSegmentAppended (w : world) : completion :=
  let w := update (set_hadSegmentAppended_ true) w in
  onPollGapJump_ w.

Definition onStarted (startTime : number) (w : world) : completion :=
  let w := update (set_started_ true) w in
  if negb (video_ (this w)) then Throws w else
  let w :=
    if seeking (video w) && negb (seekingEventReceived_ (this w))
    then
      let w := update (set_seekingEventReceived_ true) w in
      update (set_startTime_ startTime) w
    else w in
  let w :=
    match gapJumpTimer_ (this w) with
    | Some _ =>
        update
          (set_gapJumpTimer_ (Some (Some (gapJumpTimerTime (config_ (this w))))))
          w
    | None => w
    end in
  onPollGapJump_ w.

Definition onSeeking (w : world) : completion :=
  let w := update (set_seekingEventReceived_ true) w in
  let w := update (set_hadSegmentAppended_ false) w in
  onPollGapJump_ w.

Definition getGapsJumped (w : world) : nat :=
  gapsJumped_ (this w).

(** What happens to a controller: one of its methods is called, the listener
    of the waiting event or the timer calls [onPollGapJump_], or the world
    moves on. *)
Inductive call :=
  | Release
  | OnSegmentAppended
  | OnStarted (startTime : number)
  | OnSeeking
  | Poll
  | Browser (v : HTMLMediaElement)  (* the media element changes *)
  | Timeline (seekEnd : number).    (* the seek range changes *)

Definition invoke (a : call) (w : world) : completion :=
  match a with
  | Release => release w
  | OnSegmentAppended => onSegmentAppended w
  | OnStarted startTime => onStarted startTime w
  | OnSeeking => onSeeking w
  | Poll => onPollGapJump_ w
  | Browser v => Returns (set_video v w)
  | Timeline seekEnd => Returns (set_seekRangeEnd seekEnd w)
  end.

(** A sequence of calls; an exception ends the call that throws it, not the
    sequence. *)
Fixpoint run_calls (acts : list call) (w : world) : world :=
  match acts with
  | [] => w
  | a :: acts => run_calls acts (after (invoke a w))
  end.

(** No call of the sequence throws. *)
Fixpoint completes (acts : list call) (w : world) : bool :=
  match acts with
  | [] => true
  | a :: acts =>
      match invoke a w with
      | Returns w' => completes acts w'
      | Throws _ => false
      end
  end.

End Controller.

(** ** Observations of a controller *)

Section Observations.
Context {platform : Collaborators}.

(** What [onPollGapJump_] has written when it reaches the stall detector. *)
Definition noticed (w : world) : world :=
  update (set_prevReadyState_ (readyState (video w)))
    (update (set_seekingEventReceived_ (seeking (video w))) w).

(** Where a jump over the gap before the range [gapIndex] goes. *)
Definition target (w : world) (gapIndex : nat) : option number :=
  jumpTo ← TimeRanges_start (buffered (video w)) gapIndex;
  Some
    (if isLegacyEdge || isXboxOne || isTizen
     then
       PrimFloat.div
         (Math_ceil
            (PrimFloat.mul (PrimFloat.add jumpTo (gapPadding (config_ (this w))))
               100%float))
         100%float
     else jumpTo).

(** The world after a jump to [jumpTo] that is logged as [line]. *)
Definition jumped (w : world) (jumpTo : number) (line : message) : world :=
  World
    (set_gapsJumped_ (S (gapsJumped_ (this w)))
       (if PrimFloat.eqb (currentTime (video w)) (startTime_ (this w))
        then set_startTime_ jumpTo (this w)
        else this w))
    (set_currentTime jumpTo (video w)) (seekRangeEnd w) (seeks w ++ [jumpTo])
    (dispatched w ++ (if onEvent_ (this w) then [GapJumped] else []))
    (info w ++ [line]).

(** The ways through the second half of [onPollGapJump_], from the call of
    [getGapIndex] on. *)
Inductive jumps (w : world) : completion -> Prop :=
  | jumps_no_gap :
      getGapIndex (buffered (video w)) (currentTime (video w))
        (gapDetectionThreshold (config_ (this w))) = None ->
      jumps w (Returns w)
  | jumps_unbuffered_seek :
      getGapIndex (buffered (video w)) (currentTime (video w))
        (gapDetectionThreshold (config_ (this w))) = Some 0 ->
      hadSegmentAppended_ (this w) = false ->
      jumps w (Returns w)
  | jumps_no_range gapIndex :
      getGapIndex (buffered (video w)) (currentTime (video w))
        (gapDetectionThreshold (config_ (this w))) = Some gapIndex ->
      length (buffered (video w)) <= gapIndex ->
      jumps w (Throws w)
  | jumps_no_timeline gapIndex :
      getGapIndex (buffered (video w)) (currentTime (video w))
        (gapDetectionThreshold (config_ (this w))) = Some gapIndex ->
      timeline_ (this w) = false ->
      jumps w (Throws w)
  | jumps_seek_end gapIndex jumpTo :
      getGapIndex (buffered (video w)) (currentTime (video w))
        (gapDetectionThreshold (config_ (this w))) = Some gapIndex ->
      target w gapIndex = Some jumpTo ->
      PrimFloat.leb (seekRangeEnd w) jumpTo = true ->
      jumps w (Returns w)
  | jumps_small gapIndex jumpTo :
      getGapIndex (buffered (video w)) (currentTime (video w))
        (gapDetectionThreshold (config_ (this w))) = Some gapIndex ->
      target w gapIndex = Some jumpTo ->
      PrimFloat.ltb (PrimFloat.sub jumpTo (currentTime (video w)))
        BROWSER_GAP_TOLERANCE = true ->
      jumps w (Returns w)
  | jumps_jumped gapIndex jumpTo line :
      getGapIndex (buffered (video w)) (currentTime (video w))
        (gapDetectionThreshold (config_ (this w))) = Some gapIndex ->
      (gapIndex = 0 -> hadSegmentAppended_ (this w) = true) ->
      target w gapIndex = Some jumpTo ->
      timeline_ (this w) = true ->
      PrimFloat.leb (seekRangeEnd w) jumpTo = false ->
      PrimFloat.ltb (PrimFloat.sub jumpTo (currentTime (video w)))
        BROWSER_GAP_TOLERANCE = false ->
      (if gapIndex =? 0
       then
         line = JumpBeforeStart (PrimFloat.sub jumpTo (currentTime (video w)))
                  jumpTo
       else
         exists gapStart,
           TimeRanges_end (buffered (video w)) (gapIndex - 1) = Some gapStart /\
           line = JumpOverGap (PrimFloat.sub jumpTo (currentTime (video w)))
                    gapStart jumpTo) ->
      jumps w
        (if onEvent_ (this w)
         then Returns (jumped w jumpTo line)
         else Throws (jumped w jumpTo line)).

(** The ways through [onPollGapJump_]. *)
Inductive polls (w : world) : completion -> Prop :=
  | polls_released :
      video_ (this w) = false ->
      polls w (Throws w)
  | polls_not_ready :
      video_ (this w) = true ->
      readyState (video w) = 0 ->
      polls w (Returns w)
  | polls_not_started :
      video_ (this w) = true ->
      started_ (this w) = false ->
      polls w (Returns w)
  | polls_seeking :
      video_ (this w) = true ->
      seeking (video w) = true ->
      seekingEventReceived_ (this w) = false ->
      polls w (Returns w)
  | polls_paused :
      video_ (this w) = true ->
      readyState (video w) <> 0 ->
      started_ (this w) = true ->
      (seeking (video w) = true -> seekingEventReceived_ (this w) = true) ->
      paused (video w) = true ->
      autoplay (video w) = false \/
      PrimFloat.eqb (currentTime (video w)) (startTime_ (this w)) = false ->
      polls w (Returns (update (set_seekingEventReceived_ (seeking (video w))) w))
  | polls_stalled w' :
      video_ (this w) = true ->
      readyState (video w) <> 0 ->
      started_ (this w) = true ->
      (seeking (video w) = true -> seekingEventReceived_ (this w) = true) ->
      (paused (video w) = true ->
       autoplay (video w) = true /\
       PrimFloat.eqb (currentTime (video w)) (startTime_ (this w)) = true) ->
      poll_stallDetector_ (noticed w) = (true, w') ->
      polls w (Returns w')
  | polls_jumps w' c :
      video_ (this w) = true ->
      readyState (video w) <> 0 ->
      started_ (this w) = true ->
      (seeking (video w) = true -> seekingEventReceived_ (this w) = true) ->
      (paused (video w) = true ->
       autoplay (video w) = true /\
       PrimFloat.eqb (currentTime (video w)) (startTime_ (this w)) = true) ->
      poll_stallDetector_ (noticed w) = (false, w') ->
      jumps w' c ->
      polls w c.

(** Which call it is. *)
Definition is_Release (a : call) : bool :=
  match a with Release => true | _ => false end.

Definition is_OnSegmentAppended (a : call) : bool :=
  match a with OnSegmentAppended => true | _ => false end.

Definition is_OnStarted (a : call) : bool :=
  match a with OnStarted _ => true | _ => false end.

Definition is_OnSeeking (a : call) : bool :=
  match a with OnSeeking => true | _ => false end.

(** The browser keeps [P] true of the media element. *)
Definition keeps (P : HTMLMediaElement -> bool) (a : call) : bool :=
  match a with Browser v => P v | _ => true end.

(** What a message of the log says. *)
Definition before_start (line : message) : bool :=
  match line with JumpBeforeStart _ _ => true | JumpOverGap _ _ _ => false end.

Definition jumpSize_of (line : message) : number :=
  match line with
  | JumpBeforeStart jumpSize _ | JumpOverGap jumpSize _ _ => jumpSize
  end.

Definition jumpTo_of (line : message) : number :=
  match line with
  | JumpBeforeStart _ jumpTo | JumpOverGap _ _ jumpTo => jumpTo
  end.

(** Nothing of what the controller does to the outside differs. *)
Definition same_output (w w' : world) : Prop :=
  seeks w' = seeks w /\ dispatched w' = dispatched w /\ info w' = info w /\
  getGapsJumped w' = getGapsJumped w.

(** The counter, the assignments to [currentTime], the events and the messages
    agree, and a controller that has its media element has its callback. *)
Definition accounted (w : world) : Prop :=
  (video_ (this w) = true -> onEvent_ (this w) = true) /\
  getGapsJumped w = length (seeks w) /\
  length (dispatched w) = length (seeks w) /\
  length (info w) = length (seeks w).

(** A controller that was not released. *)
Definition alive (w : world) : Prop :=
  video_ (this w) = true /\ timeline_ (this w) = true /\ onEvent_ (this w) = true.

(** The media element as the stall detector leaves it when it is polled. *)
Definition watched (w : world) : HTMLMediaElement :=
  match stallDetector_ (this w) with
  | None => video w
  | Some d => snd (StallDetector_poll d (video w))
  end.

(** The calls that read the media element. *)
Definition reads_video (a : call) : bool :=
  match a with
  | OnSegmentAppended | OnStarted _ | OnSeeking | Poll => true
  | Release | Browser _ | Timeline _ => false
  end.

(** A controller after [release]. *)
Definition released (w : world) : Prop :=
  onEvent_ (this w) = false /\ video_ (this w) = false /\
  timeline_ (this w) = false /\ eventManager_ (this w) = false /\
  stallDetector_ (this w) = None /\ gapJumpTimer_ (this w) = None.

End Observations.

(** ** A sample of collaborators and of worlds

    A platform for the controller: no stall detector takes action, a gap is
    the first range that starts after the time and whose predecessor ends
    within the threshold of it, and an assignment to [currentTime] moves the
    playhead there and starts a seek. *)
Fixpoint sample_gap (previous : option number) (b : TimeRanges) (i : nat)
    (time threshold : number) : option nat :=
  match b with
  | [] => None
  | (s, e) :: b' =>
      if PrimFloat.ltb time s &&
         match previous with
         | None => true
         | Some p => PrimFloat.leb (PrimFloat.sub p time) threshold
         end
      then Some i
      else sample_gap (Some e) b' (S i) time threshold
  end.

Definition sample_platform : Collaborators :=
  {| StallDetector := unit;
     StallDetector_poll := fun d v => (false, d, v);
     getGapIndex := fun b time threshold => sample_gap None b 0 time threshold;
     isLegacyEdge := false;
     isXboxOne := false;
     isTizen := false;
     Math_ceil := fun x => x;  (* not called on this platform *)
     set_currentTime := fun t v =>
       MediaElement (readyState v) true (paused v) (autoplay v) t (buffered v) |}.

(** A media element that plays, at the end of its first buffered range. *)
Definition sample_video : HTMLMediaElement :=
  MediaElement 4 false false false 10%float
    [(0%float, 10%float); (12%float, 20%float)].

(** The same after a seek to 0, where nothing is buffered. *)
Definition sample_unbuffered : HTMLMediaElement :=
  MediaElement 4 false false false 0%float
    [(2%float, 10%float); (12%float, 20%float)].

Definition sample_config : StreamingConfiguration :=
  Configuration 0.25%float 0.5%float 0%float.

Definition sample_world : @world sample_platform :=
  @constructor sample_platform sample_video 100%float sample_config (Some tt).

(** A started controller whose media element is paused before the gap. *)
Definition sample_paused_world : @world sample_platform :=
  @run_calls sample_platform
    [OnStarted 0%float; Browser (MediaElement 4 false true false 10%float
                                   [(0%float, 10%float); (12%float, 20%float)])]
    sample_world.

(** A started controller whose media element has begun a seek into the gap. *)
Definition sample_seeking_world : @world sample_platform :=
  @run_calls sample_platform
    [OnStarted 0%float; Browser (MediaElement 4 true false false 10.5%float
                                   [(0%float, 10%float); (12%float, 20%float)])]
    sample_world.

(** A started controller without stall detector; its media element plays
    automatically and is paused at the start position, before everything that
    is buffered. *)
Definition sample_autoplay_world : @world sample_platform :=
  @run_calls sample_platform [OnStarted 0%float]
    (@constructor sample_platform
       (MediaElement 4 false true true 0%float [(2%float, 10%float)])
       100%float sample_config None).

End GapJumpingController.

(** * Reasoning about runs *)

(** ** The monad *)

Lemma bind_Some {A B} (m : M A) (k : A -> M B) s b s' :
  bind m k s = Some (b, s') <->
  exists a s1, m s = Some (a, s1) /\ k a s1 = Some (b, s').
Proof.
  unfold bind. split.
  - destruct (m s) as [[a s1]|]; [eauto | discriminate].
  - intros (a & s1 & -> & H). exact H.
Qed.

Lemma bind_eq {A B} (m : M A) (k : A -> M B) s a s1 :
  m s = Some (a, s1) -> bind m k s = k a s1.
Proof. unfold bind. now intros ->. Qed.

Lemma lift_option_Some {A} (o : option A) s a s' :
  lift_option o s = Some (a, s') <-> o = Some a /\ s' = s.
Proof.
  unfold lift_option. destruct o; split; intros H.
  - now inversion H.
  - destruct H as [[= ->] ->]. reflexivity.
  - discriminate.
  - destruct H; discriminate.
Qed.

(** Inversion of a successful run, one bind or accessor at a time. *)
Ltac minv H :=
  lazymatch type of H with
  | bind _ _ _ = Some _ =>
      let a := fresh "a" in
      let s := fresh "s" in
      let H1 := fresh "H" in
      apply bind_Some in H; destruct H as (a & s & H1 & H);
      minv H1; minv H
  | ret _ _ = Some _ => unfold ret in H; inversion H; subst; clear H
  | fail _ = Some _ => discriminate H
  | get_promise _ _ = Some _ =>
      apply lift_option_Some in H; destruct H as [H ->]
  | get_operation _ _ = Some _ =>
      apply lift_option_Some in H; destruct H as [H ->]
  | get_link _ _ = Some _ =>
      apply lift_option_Some in H; destruct H as [H ->]
  | get_cell _ _ = Some _ =>
      apply lift_option_Some in H; destruct H as [H ->]
  | put_promise _ _ _ = Some _ => unfold put_promise in H; inversion H; subst; clear H
  | put_operation _ _ _ = Some _ => unfold put_operation in H; inversion H; subst; clear H
  | put_link _ _ _ = Some _ => unfold put_link in H; inversion H; subst; clear H
  | put_cell _ _ _ = Some _ => unfold put_cell in H; inversion H; subst; clear H
  | alloc_promise _ _ = Some _ => unfold alloc_promise in H; inversion H; subst; clear H
  | alloc_operation _ _ = Some _ => unfold alloc_operation in H; inversion H; subst; clear H
  | alloc_link _ _ = Some _ => unfold alloc_link in H; inversion H; subst; clear H
  | alloc_cell _ _ = Some _ => unfold alloc_cell in H; inversion H; subst; clear H
  | enqueue _ _ = Some _ => unfold enqueue in H; inversion H; subst; clear H
  | emit _ _ = Some _ => unfold emit in H; inversion H; subst; clear H
  | _ => idtac
  end.

(** ** How a state evolves *)

Lemma promise_le_refl x : promise_le x x.
Proof. unfold promise_le. tauto. Qed.

Lemma operation_le_refl x : operation_le x x.
Proof. unfold operation_le. tauto. Qed.

Lemma link_le_refl x : link_le x x.
Proof. unfold link_le. tauto. Qed.

Lemma promise_le_trans x y z : promise_le x y -> promise_le y z -> promise_le x z.
Proof.
  unfold promise_le. intros (H1 & H2 & H3) (H4 & H5 & H6). repeat split.
  - intros H. rewrite <- (H1 H). apply H4. now rewrite (H1 H).
  - auto.
  - auto.
Qed.

Lemma operation_le_trans x y z :
  operation_le x y -> operation_le y z -> operation_le x z.
Proof.
  unfold operation_le. intros (H1 & H2 & H3) (H4 & H5 & H6).
  repeat split; [congruence | congruence | auto].
Qed.

Lemma link_le_trans x y z : link_le x y -> link_le y z -> link_le x z.
Proof.
  unfold link_le. intros (H1 & H2 & H3 & H4) (H5 & H6 & H7 & H8).
  repeat split; congruence.
Qed.

Lemma evolves_refl s : evolves s s.
Proof.
  split.
  - intros p x H. exists x. split; [exact H | apply promise_le_refl].
  - intros o x H. exists x. split; [exact H | apply operation_le_refl].
  - intros k x H. exists x. split; [exact H | apply link_le_refl].
  - exists []. split; [now rewrite app_nil_r | constructor].
Qed.

Lemma event_allowed_evolves s s' e :
  evolves s s' -> event_allowed s' e -> event_allowed s e.
Proof.
  intros E. destruct e as [o | k [] v | b]; simpl; auto.
  - intros H x Hx.
    destruct (ev_operations _ _ E _ _ Hx) as (x' & Hx' & _ & _ & Hab).
    specialize (H _ Hx').
    destruct (abortPromise_ x) eqn:Ex; [| reflexivity].
    destruct Hab as [q Hq]; [eauto | congruence].
  - intros H l x Hl Hx.
    destruct (ev_links _ _ E _ _ Hl) as (l' & Hl' & Hthis & _).
    destruct (ev_operations _ _ E _ _ Hx) as (x' & Hx' & _ & _ & Hab).
    rewrite <- Hthis in Hx'. specialize (H _ _ Hl' Hx').
    destruct (abortPromise_ x) eqn:Ex; [| reflexivity].
    destruct Hab as [q Hq]; [eauto | congruence].
Qed.

Lemma evolves_trans s1 s2 s3 : evolves s1 s2 -> evolves s2 s3 -> evolves s1 s3.
Proof.
  intros E1 E2. split.
  - intros p x H.
    destruct (ev_promises _ _ E1 _ _ H) as (y & Hy & Hxy).
    destruct (ev_promises _ _ E2 _ _ Hy) as (z & Hz & Hyz).
    exists z. split; [exact Hz | eapply promise_le_trans; eauto].
  - intros o x H.
    destruct (ev_operations _ _ E1 _ _ H) as (y & Hy & Hxy).
    destruct (ev_operations _ _ E2 _ _ Hy) as (z & Hz & Hyz).
    exists z. split; [exact Hz | eapply operation_le_trans; eauto].
  - intros k x H.
    destruct (ev_links _ _ E1 _ _ H) as (y & Hy & Hxy).
    destruct (ev_links _ _ E2 _ _ Hy) as (z & Hz & Hyz).
    exists z. split; [exact Hz | eapply link_le_trans; eauto].
  - destruct (ev_log _ _ E1) as (e1 & H1 & F1).
    destruct (ev_log _ _ E2) as (e2 & H2 & F2).
    exists (e1 ++ e2). split.
    + rewrite H2, H1. now rewrite app_assoc.
    + apply Forall_app. split; [exact F1 |].
      eapply Forall_impl; [exact F2 |].
      intros e. now apply event_allowed_evolves.
Qed.

(** ** Every operation makes the state evolve *)

Lemma evolves_same_heap s s' :
  promises s' = promises s -> operations s' = operations s ->
  links s' = links s -> log s' = log s -> evolves s s'.
Proof.
  intros Hp Ho Hl Hg. split.
  - intros p x H. exists x. rewrite Hp. split; [exact H | apply promise_le_refl].
  - intros o x H. exists x. rewrite Ho. split; [exact H | apply operation_le_refl].
  - intros k x H. exists x. rewrite Hl. split; [exact H | apply link_le_refl].
  - exists []. rewrite Hg. split; [now rewrite app_nil_r | constructor].
Qed.

Lemma evolves_set_promises s f :
  (forall p x, promises s !! p = Some x ->
     exists x', f (promises s) !! p = Some x' /\ promise_le x x') ->
  evolves s (set_promises f s).
Proof.
  intros H. split; simpl.
  - exact H.
  - intros o x Hx. exists x. split; [exact Hx | apply operation_le_refl].
  - intros k x Hx. exists x. split; [exact Hx | apply link_le_refl].
  - exists []. split; [now rewrite app_nil_r | constructor].
Qed.

Lemma evolves_put_promise s p x x' :
  promises s !! p = Some x -> promise_le x x' ->
  evolves s (set_promises (fun l => <[p := x']> l) s).
Proof.
  intros Hp Hle. apply evolves_set_promises. intros q y Hq.
  destruct (decide (p = q)) as [<- | Hne].
  - exists x'. split.
    + apply list_lookup_insert_eq. now apply lookup_lt_Some in Hp.
    + congruence.
  - exists y. split.
    + now rewrite list_lookup_insert_ne.
    + apply promise_le_refl.
Qed.

Lemma evolves_alloc_promise s x :
  evolves s (set_promises (fun l => l ++ [x]) s).
Proof.
  apply evolves_set_promises. intros q y Hq. exists y. split.
  - now apply lookup_app_l_Some.
  - apply promise_le_refl.
Qed.

Lemma evolves_put_operation s o x x' :
  operations s !! o = Some x -> operation_le x x' ->
  evolves s (set_operations (fun l => <[o := x']> l) s).
Proof.
  intros Ho Hle. split; simpl.
  - intros p y Hy. exists y. split; [exact Hy | apply promise_le_refl].
  - intros q y Hq. destruct (decide (o = q)) as [<- | Hne].
    + exists x'. split.
      * apply list_lookup_insert_eq. now apply lookup_lt_Some in Ho.
      * congruence.
    + exists y. split.
      * now rewrite list_lookup_insert_ne.
      * apply operation_le_refl.
  - intros k y Hy. exists y. split; [exact Hy | apply link_le_refl].
  - exists []. split; [now rewrite app_nil_r | constructor].
Qed.

Lemma evolves_alloc_operation s x :
  evolves s (set_operations (fun l => l ++ [x]) s).
Proof.
  split; simpl.
  - intros p y Hy. exists y. split; [exact Hy | apply promise_le_refl].
  - intros q y Hq. exists y. split.
    + now apply lookup_app_l_Some.
    + apply operation_le_refl.
  - intros k y Hy. exists y. split; [exact Hy | apply link_le_refl].
  - exists []. split; [now rewrite app_nil_r | constructor].
Qed.

Lemma evolves_put_link s k x x' :
  links s !! k = Some x -> link_le x x' ->
  evolves s (set_links (fun l => <[k := x']> l) s).
Proof.
  intros Hk Hle. split; simpl.
  - intros p y Hy. exists y. split; [exact Hy | apply promise_le_refl].
  - intros o y Hy. exists y. split; [exact Hy | apply operation_le_refl].
  - intros q y Hq. destruct (decide (k = q)) as [<- | Hne].
    + exists x'. split.
      * apply list_lookup_insert_eq. now apply lookup_lt_Some in Hk.
      * congruence.
    + exists y. split.
      * now rewrite list_lookup_insert_ne.
      * apply link_le_refl.
  - exists []. split; [now rewrite app_nil_r | constructor].
Qed.

Lemma evolves_alloc_link s x :
  evolves s (set_links (fun l => l ++ [x]) s).
Proof.
  split; simpl.
  - intros p y Hy. exists y. split; [exact Hy | apply promise_le_refl].
  - intros o y Hy. exists y. split; [exact Hy | apply operation_le_refl].
  - intros q y Hq. exists y. split.
    + now apply lookup_app_l_Some.
    + apply link_le_refl.
  - exists []. split; [now rewrite app_nil_r | constructor].
Qed.

Lemma evolves_emit s e :
  event_allowed s e -> evolves s (set_log (fun l => l ++ [e]) s).
Proof.
  intros H. split; simpl.
  - intros p y Hy. exists y. split; [exact Hy | apply promise_le_refl].
  - intros o y Hy. exists y. split; [exact Hy | apply operation_le_refl].
  - intros k y Hy. exists y. split; [exact Hy | apply link_le_refl].
  - exists [e]. split; [reflexivity | now repeat constructor].
Qed.

Lemma evolves_set_microtasks s s' f :
  evolves s s' -> evolves s (set_microtasks f s').
Proof.
  intros E. eapply evolves_trans; [exact E |]. now apply evolves_same_heap.
Qed.

Lemma mono_ret {A} (a : A) : mono (ret a).
Proof. intros s b s' H. minv H. apply evolves_refl. Qed.

Lemma mono_fail {A} : mono (@fail A).
Proof. intros s b s' H. discriminate. Qed.

Lemma mono_bind {A B} (m : M A) (k : A -> M B) :
  mono m -> (forall a, mono (k a)) -> mono (bind m k).
Proof.
  intros Hm Hk s b s' H. apply bind_Some in H. destruct H as (a & s1 & H1 & H2).
  eapply evolves_trans; [eapply Hm | eapply Hk]; eauto.
Qed.

Lemma mono_lift_option {A} (f : state -> option A) :
  mono (fun s => lift_option (f s) s).
Proof.
  intros s a s' H. apply lift_option_Some in H. destruct H as [_ ->].
  apply evolves_refl.
Qed.

Lemma mono_get_promise p : mono (get_promise p).
Proof. apply (mono_lift_option (fun s => promises s !! p)). Qed.

Lemma mono_get_operation o : mono (get_operation o).
Proof. apply (mono_lift_option (fun s => operations s !! o)). Qed.

Lemma mono_get_link k : mono (get_link k).
Proof. apply (mono_lift_option (fun s => links s !! k)). Qed.

Lemma mono_get_cell c : mono (get_cell c).
Proof. apply (mono_lift_option (fun s => cells s !! c)). Qed.

Lemma mono_put_cell c x : mono (put_cell c x).
Proof. intros s a s' H. minv H. now apply evolves_same_heap. Qed.

Lemma mono_alloc_cell x : mono (alloc_cell x).
Proof. intros s a s' H. minv H. now apply evolves_same_heap. Qed.

Lemma mono_enqueue js : mono (enqueue js).
Proof. intros s a s' H. minv H. now apply evolves_same_heap. Qed.

Lemma mono_alloc_promise x : mono (alloc_promise x).
Proof. intros s a s' H. minv H. apply evolves_alloc_promise. Qed.

Lemma mono_alloc_operation x : mono (alloc_operation x).
Proof. intros s a s' H. minv H. apply evolves_alloc_operation. Qed.

Lemma mono_alloc_link x : mono (alloc_link x).
Proof. intros s a s' H. minv H. apply evolves_alloc_link. Qed.

Lemma mono_emit_final b : mono (emit (EvFinal b)).
Proof. intros s a s' H. minv H. now apply evolves_emit. Qed.

Lemma mono_mapM {A B} (f : A -> M B) l :
  (forall a, mono (f a)) -> mono (mapM f l).
Proof.
  intros Hf. induction l as [| x l IH]; simpl.
  - apply mono_ret.
  - apply mono_bind; [apply Hf |]. intros y.
    apply mono_bind; [exact IH |]. intros ys. apply mono_ret.
Qed.

Create HintDb mono discriminated.
#[local] Hint Resolve mono_ret mono_fail mono_get_promise mono_get_operation
  mono_get_link mono_get_cell mono_put_cell mono_alloc_cell mono_enqueue
  mono_alloc_promise mono_alloc_operation mono_alloc_link mono_emit_final : mono.

(** Splits a composite computation into its parts. *)
Ltac mono_tac :=
  repeat first
    [ solve [auto with mono]
    | match goal with
      | |- forall _, _ => intro
      | |- mono (bind _ _) => apply mono_bind
      | |- mono (mapM _ _) => apply mono_mapM
      | |- mono (match ?x with _ => _ end) => destruct x
      | |- mono (if ?x then _ else _) => destruct x
      end ].

Ltac le_tac :=
  unfold promise_le, operation_le, link_le; simpl;
  repeat split; intros; solve [congruence | auto | eauto].

Lemma mono_settle_promise p b v : mono (settle_promise p b v).
Proof.
  intros s a s' H. unfold settle_promise in H. minv H.
  destruct (p_state a0) eqn:E; minv H.
  - apply evolves_set_microtasks.
    eapply evolves_put_promise; [exact H0 | le_tac].
  - apply evolves_refl.
  - apply evolves_refl.
Qed.
#[local] Hint Resolve mono_settle_promise : mono.

Lemma mono_resolve_core p v : mono (resolve_core p v).
Proof. unfold resolve_core. mono_tac. Qed.
#[local] Hint Resolve mono_resolve_core : mono.

Lemma mono_mark_resolved p x s :
  promises s !! p = Some x ->
  evolves s (set_promises
    (fun l => <[p := Promise (p_state x) (p_reactions x) true (p_handled x)]> l) s).
Proof.
  intros H. eapply evolves_put_promise; [exact H |].
  le_tac.
Qed.

Lemma mono_resolve_fn p v : mono (resolve_fn p v).
Proof.
  intros s a s' H. unfold resolve_fn in H. minv H.
  destruct (p_resolved a0); minv H.
  - apply evolves_refl.
  - eapply evolves_trans; [eapply mono_mark_resolved; eassumption |].
    eapply mono_resolve_core; eauto.
Qed.

Lemma mono_reject_fn p v : mono (reject_fn p v).
Proof.
  intros s a s' H. unfold reject_fn in H. minv H.
  destruct (p_resolved a0); minv H.
  - apply evolves_refl.
  - eapply evolves_trans; [eapply mono_mark_resolved; eassumption |].
    eapply mono_settle_promise; eauto.
Qed.
#[local] Hint Resolve mono_resolve_fn mono_reject_fn : mono.

Lemma mono_adopt_resolve p v : mono (adopt_resolve p v).
Proof. unfold adopt_resolve. mono_tac. Qed.

Lemma mono_adopt_reject p v : mono (adopt_reject p v).
Proof. unfold adopt_reject. mono_tac. Qed.
#[local] Hint Resolve mono_adopt_resolve mono_adopt_reject : mono.

Lemma mono_then_ p f g : mono (then_ p f g).
Proof.
  intros s a s' H. unfold then_ in H.
  apply bind_Some in H. destruct H as (d & s1 & H1 & H).
  eapply evolves_trans; [eapply mono_alloc_promise; eauto |].
  apply bind_Some in H. destruct H as (x & s2 & H2 & H). minv H2.
  apply bind_Some in H. destruct H as ([] & s3 & H3 & H). minv H.
  destruct (p_state x) eqn:E; minv H3.
  - eapply evolves_put_promise; [exact H2 | le_tac].
  - apply evolves_set_microtasks.
    eapply evolves_put_promise; [exact H2 | le_tac].
  - apply evolves_set_microtasks.
    eapply evolves_put_promise; [exact H2 | le_tac].
Qed.
#[local] Hint Resolve mono_then_ : mono.

Lemma mono_new_promise : mono new_promise.
Proof. unfold new_promise. mono_tac. Qed.
#[local] Hint Resolve mono_new_promise : mono.

Lemma mono_promise_resolve v : mono (promise_resolve v).
Proof. unfold promise_resolve. mono_tac. Qed.

Lemma mono_promise_reject v : mono (promise_reject v).
Proof. unfold promise_reject. mono_tac. Qed.
#[local] Hint Resolve mono_promise_resolve mono_promise_reject : mono.

Lemma mono_promise_all_loop c t ps : forall i, mono (promise_all_loop c t i ps).
Proof.
  induction ps as [| p ps IH]; intros i; simpl.
  - apply mono_ret.
  - mono_tac; apply IH.
Qed.
#[local] Hint Resolve mono_promise_all_loop : mono.

Lemma mono_promise_all ps : mono (promise_all ps).
Proof. unfold promise_all. mono_tac. Qed.

Lemma mono_all_resolve_element c i v : mono (all_resolve_element c i v).
Proof. unfold all_resolve_element. mono_tac. Qed.
#[local] Hint Resolve mono_promise_all mono_all_resolve_element : mono.

Lemma mono_new p f : mono (new p f).
Proof. unfold new. mono_tac. Qed.
#[local] Hint Resolve mono_new : mono.

Lemma mono_catch_ p h : mono (catch_ p h).
Proof. unfold catch_. mono_tac. Qed.
#[local] Hint Resolve mono_catch_ : mono.

Lemma mono_failed e : mono (failed e).
Proof. unfold failed. mono_tac. Qed.

Lemma mono_aborted : mono aborted.
Proof. unfold aborted. mono_tac. Qed.

Lemma mono_completed v : mono (completed v).
Proof. unfold completed. mono_tac. Qed.

Lemma mono_notAbortable p : mono (notAbortable p).
Proof. unfold notAbortable. mono_tac. Qed.

Lemma mono_call_delegate rec k :
  (forall o, mono (rec o)) -> mono (call_delegate rec k).
Proof. intros Hrec. unfold call_delegate. mono_tac; apply Hrec. Qed.

Lemma mono_call_onAbort rec f :
  (forall o, mono (rec o)) -> mono (call_onAbort rec f).
Proof.
  intros Hrec. unfold call_onAbort. destruct f; mono_tac.
  now apply mono_call_delegate.
Qed.

Lemma mono_abort fuel : forall o, mono (abort fuel o).
Proof.
  unfold mono. induction fuel as [| fuel IH]; intros o s p s' H; simpl in H.
  - discriminate.
  - apply bind_Some in H. destruct H as (op & s0 & Hop & H). minv Hop.
    destruct (abortPromise_ op) eqn:E.
    + minv H. apply evolves_refl.
    + apply bind_Some in H. destruct H as ([] & s1 & H1 & H). minv H1.
      apply bind_Some in H. destruct H as (q & s2 & H2 & H).
      apply bind_Some in H. destruct H as (op' & s3 & H3 & H). minv H3.
      minv H.
      eapply evolves_trans.
      { apply (evolves_emit _ (EvOnAbort o)). simpl. intros x Hx. congruence. }
      eapply evolves_trans.
      { eapply mono_call_onAbort; [exact IH | exact H2]. }
      eapply evolves_put_operation; [exact H3 | le_tac].
Qed.

Lemma mono_all ops : mono (all ops).
Proof. unfold all. mono_tac. Qed.

Lemma mono_finally o f : mono (finally o f).
Proof. unfold finally. mono_tac. Qed.

Lemma mono_wrapChainCallback_ cb v np : mono (wrapChainCallback_ cb v np).
Proof. unfold wrapChainCallback_. destruct (cb v) as [[] |]; mono_tac. Qed.

(** The continuation of a link is called when no abort was requested on the
    upstream operation, or on the failure path. *)
Lemma evolves_continuation k b cb v np s d s' :
  event_allowed s (EvContinuation k b v) ->
  (emit (EvContinuation k b v) ;;; wrapChainCallback_ cb v np) s = Some (d, s') ->
  evolves s s'.
Proof.
  intros Hal H.
  apply bind_Some in H. destruct H as ([] & s1 & H1 & H). minv H1.
  eapply evolves_trans; [apply (evolves_emit _ (EvContinuation k b v)); exact Hal |].
  eapply mono_wrapChainCallback_; eauto.
Qed.

Lemma mono_makeCallback k b v : mono (makeCallback k b v).
Proof.
  intros s a s' H. unfold makeCallback in H.
  apply bind_Some in H. destruct H as (l & s0 & Hl & H). minv Hl.
  apply bind_Some in H. destruct H as (this & s0 & Hthis & H). minv Hthis.
  assert (Hcb : forall cb,
    event_allowed s (EvContinuation k b v) ->
    (emit (EvContinuation k b v) ;;;
     d <- wrapChainCallback_ cb v (l_newPromise l) ;;
     l' <- get_link k ;;
     put_link k (ChainLink (l_this l') (l_newPromise l') (l_onSuccess l')
                           (l_onError l') d)) s = Some (a, s') ->
    evolves s s').
  { intros cb Hal Hrun.
    apply bind_Some in Hrun. destruct Hrun as ([] & s1 & H1 & Hrun).
    apply bind_Some in Hrun. destruct Hrun as (d & s2 & H2 & Hrun).
    apply bind_Some in Hrun. destruct Hrun as (l' & s3 & H3 & Hrun). minv H3.
    minv Hrun.
    eapply evolves_trans.
    { eapply (evolves_continuation k b cb v); [exact Hal |].
      rewrite (bind_eq _ _ _ _ _ H1). exact H2. }
    eapply evolves_put_link; [exact H3 | le_tac]. }
  destruct (abortPromise_ this) as [q |] eqn:Eab; simpl in H.
  - destruct b; simpl in H.
    + eapply mono_reject_fn; eauto.
    + destruct (l_onError l) as [cb |].
      * apply (Hcb cb); [exact I | exact H].
      * eapply mono_reject_fn; eauto.
  - destruct (if b then l_onSuccess l else l_onError l) as [cb |].
    + apply (Hcb cb); [| exact H].
      destruct b; simpl; [| exact I]. intros l0 x Hl0 Hx. congruence.
    + destruct b; [eapply mono_resolve_fn | eapply mono_reject_fn]; eauto.
Qed.

Lemma mono_chain o f g : mono (chain o f g).
Proof. unfold chain. mono_tac. Qed.

#[local] Hint Resolve mono_failed mono_aborted mono_completed mono_notAbortable
  mono_abort mono_all mono_finally mono_makeCallback mono_chain : mono.

Lemma mono_run_handler h v : mono (run_handler h v).
Proof. unfold run_handler. mono_tac. Qed.
#[local] Hint Resolve mono_run_handler : mono.

Lemma mono_run_job j : mono (run_job j).
Proof. unfold run_job. mono_tac. Qed.

Lemma mono_tick : mono tick.
Proof.
  intros s a s' H. unfold tick in H.
  destruct (microtasks s) as [| j q] eqn:E; [discriminate |].
  eapply evolves_trans; [| eapply mono_run_job; exact H].
  now apply evolves_same_heap.
Qed.
#[local] Hint Resolve mono_run_job mono_tick : mono.

Lemma mono_run_microtasks fuel : mono (run_microtasks fuel).
Proof.
  induction fuel as [| fuel IH]; intros s a s' H; simpl in H.
  - destruct (microtasks s); [| discriminate]. minv H. inversion H; subst.
    apply evolves_refl.
  - destruct (microtasks s).
    + inversion H; subst. apply evolves_refl.
    + revert H. apply mono_bind; [apply mono_tick | intros _; exact IH].
Qed.

Lemma mono_perform a : mono (perform a).
Proof. unfold perform. mono_tac. Qed.

(** Whatever the program does, the state evolves. *)
Lemma mono_run acts : mono (run acts).
Proof.
  induction acts as [| a acts IH]; simpl.
  - apply mono_ret.
  - apply mono_bind; [apply mono_perform | intros _; exact IH].
Qed.

(** ** Running the operations on a symbolic heap *)

Lemma lookup_snoc {A} (l : list A) (x : A) : (l ++ [x]) !! length l = Some x.
Proof. now apply list_lookup_middle. Qed.

Lemma insert_snoc {A} (l : list A) (x y : A) :
  <[length l := y]> (l ++ [x]) = l ++ [y].
Proof.
  rewrite insert_app_r_alt by lia. now rewrite Nat.sub_diag.
Qed.

Lemma lookup_snoc_eq {A} (l : list A) (x : A) i :
  i = length l -> (l ++ [x]) !! i = Some x.
Proof. intros ->. apply lookup_snoc. Qed.

Lemma lookup_snoc_lt {A} (l : list A) (x : A) i y :
  l !! i = Some y -> (l ++ [x]) !! i = Some y.
Proof. intros H. now apply lookup_app_l_Some. Qed.

Lemma insert_snoc_lt {A} (l : list A) (x y : A) i :
  i < length l -> <[i := y]> (l ++ [x]) = <[i := y]> l ++ [x].
Proof. intros H. now apply insert_app_l. Qed.

(** Brings a state built by the setters into constructor form. *)
Ltac state_simpl :=
  unfold put_promise, put_operation, put_link, put_cell, alloc_promise,
    alloc_operation, alloc_link, alloc_cell, enqueue, emit, ret,
    set_promises, set_operations, set_links, set_cells, set_microtasks, set_log;
  cbn [promises operations links cells microtasks log].

Lemma get_promise_eq s p x : promises s !! p = Some x -> get_promise p s = Some (x, s).
Proof. unfold get_promise. now intros ->. Qed.

Lemma get_operation_eq s o x :
  operations s !! o = Some x -> get_operation o s = Some (x, s).
Proof. unfold get_operation. now intros ->. Qed.

Lemma get_link_eq s k x : links s !! k = Some x -> get_link k s = Some (x, s).
Proof. unfold get_link. now intros ->. Qed.

Lemma get_cell_eq s c x : cells s !! c = Some x -> get_cell c s = Some (x, s).
Proof. unfold get_cell. now intros ->. Qed.

(** A resolved promise ignores its resolving functions. *)
Lemma resolve_fn_resolved s p x v :
  promises s !! p = Some x -> p_resolved x = true -> resolve_fn p v s = Some (tt, s).
Proof.
  intros Hp Hr. unfold resolve_fn. rewrite (bind_eq _ _ _ _ _ (get_promise_eq _ _ _ Hp)).
  now rewrite Hr.
Qed.

Lemma reject_fn_resolved s p x e :
  promises s !! p = Some x -> p_resolved x = true -> reject_fn p e s = Some (tt, s).
Proof.
  intros Hp Hr. unfold reject_fn. rewrite (bind_eq _ _ _ _ _ (get_promise_eq _ _ _ Hp)).
  now rewrite Hr.
Qed.

(** Settling a pending promise. *)
Lemma settle_promise_pending s p x b v :
  promises s !! p = Some x -> p_state x = Pending ->
  settle_promise p b v s =
  Some (tt, State (<[p := Promise (if b then Fulfilled v else Rejected v) []
                                  (p_resolved x) (p_handled x)]> (promises s))
                  (operations s) (links s) (cells s)
                  (microtasks s ++ map (reaction_job b v) (p_reactions x)) (log s)).
Proof.
  intros Hp Hs. unfold settle_promise.
  rewrite (bind_eq _ _ _ _ _ (get_promise_eq _ _ _ Hp)). now rewrite Hs.
Qed.

Lemma settle_promise_settled s p x b v :
  promises s !! p = Some x -> p_state x <> Pending ->
  settle_promise p b v s = Some (tt, s).
Proof.
  intros Hp Hs. unfold settle_promise.
  rewrite (bind_eq _ _ _ _ _ (get_promise_eq _ _ _ Hp)).
  now destruct (p_state x).
Qed.

(** The first call of [reject] on a pending promise. *)
Lemma reject_fn_pending s p x e :
  promises s !! p = Some x -> p_resolved x = false -> p_state x = Pending ->
  reject_fn p e s =
  Some (tt, State (<[p := Promise (Rejected e) [] true (p_handled x)]> (promises s))
                  (operations s) (links s) (cells s)
                  (microtasks s ++ map (reaction_job false e) (p_reactions x)) (log s)).
Proof.
  intros Hp Hr Hs. unfold reject_fn.
  rewrite (bind_eq _ _ _ _ _ (get_promise_eq _ _ _ Hp)). rewrite Hr.
  unfold bind at 1. unfold put_promise.
  erewrite settle_promise_pending; cycle 1.
  - simpl. apply list_lookup_insert_eq. now apply lookup_lt_Some in Hp.
  - exact Hs.
  - simpl. now rewrite list_insert_insert_eq.
Qed.

(** The first call of [resolve] on a pending promise, with a value that is
    not a promise. *)
Lemma resolve_fn_pending s p x v :
  promises s !! p = Some x -> p_resolved x = false -> p_state x = Pending ->
  thenable v = false ->
  resolve_fn p v s =
  Some (tt, State (<[p := Promise (Fulfilled v) [] true (p_handled x)]> (promises s))
                  (operations s) (links s) (cells s)
                  (microtasks s ++ map (reaction_job true v) (p_reactions x)) (log s)).
Proof.
  intros Hp Hr Hs Hv. unfold resolve_fn.
  rewrite (bind_eq _ _ _ _ _ (get_promise_eq _ _ _ Hp)). rewrite Hr.
  unfold bind at 1. unfold put_promise.
  assert (Hc : forall s0, resolve_core p v s0 = settle_promise p true v s0).
  { intros s0. destruct v; try reflexivity. discriminate. }
  rewrite Hc. erewrite settle_promise_pending; cycle 1.
  - simpl. apply list_lookup_insert_eq. now apply lookup_lt_Some in Hp.
  - exact Hs.
  - simpl. now rewrite list_insert_insert_eq.
Qed.

(** The first call of [resolve] with another promise: the promise is locked
    in and a job is scheduled to follow the other promise. *)
Lemma resolve_fn_thenable s p x q :
  promises s !! p = Some x -> p_resolved x = false -> q <> p ->
  resolve_fn p (VPromise q) s =
  Some (tt, State (<[p := Promise (p_state x) (p_reactions x) true (p_handled x)]>
                     (promises s))
                  (operations s) (links s) (cells s)
                  (microtasks s ++ [JThenable p q]) (log s)).
Proof.
  intros Hp Hr Hq. unfold resolve_fn.
  rewrite (bind_eq _ _ _ _ _ (get_promise_eq _ _ _ Hp)). rewrite Hr.
  unfold bind at 1. unfold put_promise. unfold resolve_core.
  apply Nat.eqb_neq in Hq. now rewrite Hq.
Qed.

(** [then] on a promise of the heap. *)
Lemma then__eq s p x f g :
  promises s !! p = Some x ->
  then_ p f g s =
  Some (length (promises s),
        State (<[p := Promise (p_state x)
                          (match p_state x with
                           | Pending => p_reactions x ++ [Reaction f g (length (promises s))]
                           | _ => p_reactions x
                           end) (p_resolved x) true]> (promises s) ++ [fresh_promise])
              (operations s) (links s) (cells s)
              (microtasks s ++
                 match p_state x with
                 | Pending => []
                 | Fulfilled v => [JReaction f true (length (promises s)) v]
                 | Rejected e => [JReaction g false (length (promises s)) e]
                 end) (log s)).
Proof.
  intros Hp. pose proof (lookup_lt_Some _ _ _ Hp) as Hlt.
  unfold then_. unfold bind at 1. unfold alloc_promise.
  erewrite bind_eq; cycle 1.
  { apply get_promise_eq. simpl. apply lookup_snoc_lt. exact Hp. }
  destruct (p_state x) eqn:E; unfold bind; state_simpl;
    rewrite insert_snoc_lt by exact Hlt; try rewrite app_nil_r; reflexivity.
Qed.

(** [Promise.reject(e)] and [Promise.resolve(v)] allocate a settled promise. *)
Lemma promise_reject_eq s e :
  promise_reject e s =
  Some (length (promises s),
        State (promises s ++ [Promise (Rejected e) [] true false])
              (operations s) (links s) (cells s) (microtasks s) (log s)).
Proof.
  unfold promise_reject, new_promise. unfold bind at 1. unfold alloc_promise.
  erewrite bind_eq; cycle 1.
  { eapply reject_fn_pending; state_simpl; [apply lookup_snoc | reflexivity..]. }
  state_simpl. now rewrite insert_snoc, app_nil_r.
Qed.

Lemma promise_resolve_eq s v :
  thenable v = false ->
  promise_resolve v s =
  Some (length (promises s),
        State (promises s ++ [Promise (Fulfilled v) [] true false])
              (operations s) (links s) (cells s) (microtasks s) (log s)).
Proof.
  intros Hv.
  assert (promise_resolve v = (p <- new_promise ;; resolve_fn p v ;;; ret p)) as ->.
  { destruct v; try reflexivity. discriminate. }
  unfold new_promise. unfold bind at 1. unfold alloc_promise.
  erewrite bind_eq; cycle 1.
  { eapply resolve_fn_pending; state_simpl;
      [apply lookup_snoc | reflexivity | reflexivity | exact Hv]. }
  state_simpl. now rewrite insert_snoc, app_nil_r.
Qed.

Lemma promise_resolve_promise s q : promise_resolve (VPromise q) s = Some (q, s).
Proof. reflexivity. Qed.

(** The factories. *)
Lemma failed_eq s e :
  failed e s =
  Some (length (operations s),
        State (promises s ++ [Promise (Rejected e) [] true false])
              (operations s ++ [Operation (length (promises s)) AResolved None])
              (links s) (cells s) (microtasks s) (log s)).
Proof.
  unfold failed. rewrite (bind_eq _ _ _ _ _ (promise_reject_eq s e)). reflexivity.
Qed.

Lemma completed_eq s v :
  thenable v = false ->
  completed v s =
  Some (length (operations s),
        State (promises s ++ [Promise (Fulfilled v) [] true false])
              (operations s ++ [Operation (length (promises s)) AResolved None])
              (links s) (cells s) (microtasks s) (log s)).
Proof.
  intros Hv. unfold completed.
  rewrite (bind_eq _ _ _ _ _ (promise_resolve_eq s v Hv)). reflexivity.
Qed.

Lemma aborted_eq s :
  aborted s =
  Some (length (operations s),
        State (promises s ++ [Promise (Rejected abortError) [] true true; fresh_promise])
              (operations s ++ [Operation (length (promises s)) AResolved None])
              (links s) (cells s)
              (microtasks s ++
                 [JReaction (Some HNoop) false (S (length (promises s))) abortError])
              (log s)).
Proof.
  unfold aborted. rewrite (bind_eq _ _ _ _ _ (promise_reject_eq s abortError)).
  unfold catch_. erewrite bind_eq; cycle 1.
  { apply then__eq. state_simpl. apply lookup_snoc. }
  unfold new, alloc_operation. state_simpl.
  rewrite insert_snoc, length_app, <- app_assoc. simpl.
  now rewrite Nat.add_1_r.
Qed.

Lemma notAbortable_eq s p :
  notAbortable p s =
  Some (length (operations s),
        State (promises s) (operations s ++ [Operation p (ACatch p) None])
              (links s) (cells s) (microtasks s) (log s)).
Proof. reflexivity. Qed.

(** [abort()] on an operation that has been aborted returns the cached promise. *)
Lemma abort_cached fuel s o x q :
  operations s !! o = Some x -> abortPromise_ x = Some q ->
  abort (S fuel) o s = Some (q, s).
Proof.
  intros Ho Hq. simpl. rewrite (bind_eq _ _ _ _ _ (get_operation_eq _ _ _ Ho)).
  now rewrite Hq.
Qed.

(** The first [abort()] of an operation: [onAbort_] is called, and the
    promise it returns is cached. *)
Lemma abort_run fuel s o x q s1 y :
  operations s !! o = Some x -> abortPromise_ x = None ->
  call_onAbort (abort fuel) (onAbort_ x)
    (State (promises s) (operations s) (links s) (cells s) (microtasks s)
           (log s ++ [EvOnAbort o])) = Some (q, s1) ->
  operations s1 !! o = Some y ->
  abort (S fuel) o s =
  Some (q, State (promises s1)
                 (<[o := Operation (op_promise y) (onAbort_ y) (Some q)]> (operations s1))
                 (links s1) (cells s1) (microtasks s1) (log s1)).
Proof.
  intros Ho Hn Hrun Hy. simpl.
  rewrite (bind_eq _ _ _ _ _ (get_operation_eq _ _ _ Ho)). rewrite Hn.
  unfold bind at 1. unfold emit. state_simpl.
  rewrite (bind_eq _ _ _ _ _ Hrun).
  rewrite (bind_eq _ _ _ _ _ (get_operation_eq _ _ _ Hy)). reflexivity.
Qed.

(** [abort()] on an operation whose [onAbort_] does not call [abort] again:
    the callback runs once and its promise is cached. *)
Lemma abort_first fuel s o x rec q s1 :
  operations s !! o = Some x -> abortPromise_ x = None ->
  (forall s0, call_onAbort (abort fuel) (onAbort_ x) s0 = rec s0) ->
  rec (State (promises s) (operations s) (links s) (cells s) (microtasks s)
             (log s ++ [EvOnAbort o])) = Some (q, s1) ->
  forall y, operations s1 !! o = Some y ->
  abort (S fuel) o s =
  Some (q, State (promises s1)
                 (<[o := Operation (op_promise y) (onAbort_ y) (Some q)]> (operations s1))
                 (links s1) (cells s1) (microtasks s1) (log s1)).
Proof.
  intros Ho Hn Hrec Hrun y Hy. simpl.
  rewrite (bind_eq _ _ _ _ _ (get_operation_eq _ _ _ Ho)). rewrite Hn.
  unfold bind at 1. unfold emit. state_simpl.
  erewrite bind_eq; [| rewrite Hrec; exact Hrun].
  rewrite (bind_eq _ _ _ _ _ (get_operation_eq _ _ _ Hy)). reflexivity.
Qed.

(** ** Counting events *)

Lemma count_app {A} (f : A -> bool) l1 l2 :
  count f (l1 ++ l2) = count f l1 + count f l2.
Proof. induction l1 as [| x l1 IH]; simpl; [reflexivity | rewrite IH; lia]. Qed.

Lemma count_zero {A} (f : A -> bool) l :
  Forall (fun x => f x = false) l -> count f l = 0.
Proof. induction 1 as [| x l Hx _ IH]; simpl; [reflexivity | now rewrite Hx, IH]. Qed.

(** * The properties of the specification *)

(** ** C7: [aborted()] *)

(** C7.  [aborted()] returns an operation whose promise is already rejected
    with the abort error, the triple (CRITICAL, PLAYER, OPERATION_ABORTED),
    and already marked as handled; its [abort()] returns a promise that is
    already fulfilled with [undefined], touches no other promise, schedules
    no job, and returns the same promise when called again. *)
Theorem C7_aborted_is_rejected_and_observed (s : state) :
  exists o p s1,
    aborted s = Some (o, s1) /\
    operations s1 !! o = Some (Operation p AResolved None) /\
    promise_state s1 p = Some (Rejected (VError CRITICAL PLAYER OPERATION_ABORTED)) /\
    abortError = VError CRITICAL PLAYER OPERATION_ABORTED /\
    promise_handled s1 p = Some true /\
    forall fuel, exists q s2,
      abort (S fuel) o s1 = Some (q, s2) /\
      promise_state s2 q = Some (Fulfilled VUndefined) /\
      promises s2 = promises s1 ++ [Promise (Fulfilled VUndefined) [] true false] /\
      microtasks s2 = microtasks s1 /\
      result_state s2 o = Some (Rejected abortError) /\
      forall fuel', abort (S fuel') o s2 = Some (q, s2).
Proof.
  eexists _, _, _. split; [apply aborted_eq |].
  split; [state_simpl; apply lookup_snoc |].
  assert (Hp : forall l : list promise,
    (promises s ++ [Promise (Rejected abortError) [] true true; fresh_promise] ++ l)
      !! length (promises s) = Some (Promise (Rejected abortError) [] true true)).
  { intros l. now apply list_lookup_middle. }
  split.
  { unfold promise_state. state_simpl. specialize (Hp []). rewrite app_nil_r in Hp.
    now rewrite Hp. }
  split; [reflexivity |].
  split.
  { unfold promise_handled. state_simpl. specialize (Hp []). rewrite app_nil_r in Hp.
    now rewrite Hp. }
  intros fuel. eexists _, _.
  split.
  { eapply abort_first with (rec := promise_resolve VUndefined).
    - state_simpl. apply lookup_snoc.
    - reflexivity.
    - reflexivity.
    - rewrite promise_resolve_eq by reflexivity. state_simpl. reflexivity.
    - state_simpl. apply lookup_snoc. }
  state_simpl. split.
  { unfold promise_state. state_simpl. now rewrite lookup_snoc. }
  split; [reflexivity |]. split; [reflexivity |]. split.
  { unfold result_state, promise_state. state_simpl.
    rewrite insert_snoc, lookup_snoc. simpl.
    rewrite <- app_assoc. now rewrite Hp. }
  intros fuel'. eapply abort_cached.
  - state_simpl. rewrite insert_snoc. apply lookup_snoc.
  - reflexivity.
Qed.

(** ** C3: [abort()] is idempotent *)

Lemma abort_times_cached n fuel s o x q :
  operations s !! o = Some x -> abortPromise_ x = Some q ->
  abort_times n (S fuel) o s = Some (replicate n q, s).
Proof.
  intros Ho Hq. induction n as [| n IH]; [reflexivity |].
  cbn [abort_times]. rewrite (bind_eq _ _ _ _ _ (abort_cached fuel s o x q Ho Hq)).
  now rewrite (bind_eq _ _ _ _ _ IH).
Qed.

(** Once [abort()] has returned, for any kind of operation, every later call
    returns the same promise and changes nothing. *)
Lemma abort_idempotent fuel s o q s' :
  abort fuel o s = Some (q, s') ->
  forall fuel', abort (S fuel') o s' = Some (q, s').
Proof.
  intros H fuel'. destruct fuel as [| fuel]; [discriminate |]. simpl in H.
  apply bind_Some in H. destruct H as (op & s0 & Hop & H). minv Hop.
  destruct (abortPromise_ op) eqn:E.
  - minv H. eapply abort_cached; eauto.
  - apply bind_Some in H. destruct H as ([] & s1 & H1 & H). minv H1.
    apply bind_Some in H. destruct H as (r & s2 & H2 & H).
    apply bind_Some in H. destruct H as (op' & s3 & H3 & H). minv H3. minv H.
    eapply abort_cached.
    + state_simpl. apply list_lookup_insert_eq. now apply lookup_lt_Some in H3.
    + reflexivity.
Qed.

(** C3.  For an operation [o] constructed with a callback supplied by the
    caller (it returns the promise [r]) and not aborted so far, [n >= 1]
    calls of [o.abort()] call the callback exactly once, all return the very
    promise [r] the callback returned, which is cached in [abortPromise_];
    so all returned promises are fulfilled as soon as [r] is. *)
Theorem C3_abort_invokes_callback_once (s : state) (o : oid) (x : operation)
    (r : pid) (n fuel : nat) :
  operations s !! o = Some x ->
  onAbort_ x = AExternal r ->
  abortPromise_ x = None ->
  0 < n ->
  exists s',
    abort_times n (S fuel) o s = Some (replicate n r, s') /\
    log s' = log s ++ [EvOnAbort o] /\
    onAbort_calls s' o = onAbort_calls s o + 1 /\
    operations s' !! o = Some (Operation (op_promise x) (AExternal r) (Some r)) /\
    promises s' = promises s /\
    microtasks s' = microtasks s /\
    (forall s'' v, promise_state s'' r = Some (Fulfilled v) ->
       Forall (fun q => promise_state s'' q = Some (Fulfilled v)) (replicate n r)) /\
    (forall fuel', abort (S fuel') o s' = Some (r, s')).
Proof.
  intros Ho Hf Hn Hpos. destruct n as [| n]; [lia |].
  pose proof (lookup_lt_Some _ _ _ Ho) as Hlt.
  eexists. split.
  { cbn [abort_times]. erewrite bind_eq; cycle 1.
    { eapply abort_first with (rec := ret r); [exact Ho | exact Hn | | reflexivity |].
      - intros s0. now rewrite Hf.
      - state_simpl. exact Ho. }
    erewrite bind_eq; cycle 1.
    { eapply abort_times_cached; state_simpl;
        [now apply list_lookup_insert_eq | reflexivity]. }
    reflexivity. }
  state_simpl. split; [reflexivity |]. split.
  { unfold onAbort_calls. state_simpl. rewrite count_app. simpl.
    now rewrite Nat.eqb_refl. }
  split; [rewrite Hf; now apply list_lookup_insert_eq |].
  split; [reflexivity |]. split; [reflexivity |]. split.
  { intros s'' v Hv. apply Forall_forall. intros q Hq.
    apply elem_of_replicate in Hq. destruct Hq as [-> _]. exact Hv. }
  intros fuel'. eapply abort_cached; state_simpl.
  - now apply list_lookup_insert_eq.
  - reflexivity.
Qed.

Lemma C3_abort_invokes_callback_once_witness :
  exists s',
    abort_times 3 (S 0) 0 leaf_state = Some (replicate 3 1, s') /\
    log s' = log leaf_state ++ [EvOnAbort 0] /\
    onAbort_calls s' 0 = onAbort_calls leaf_state 0 + 1 /\
    operations s' !! 0 = Some (Operation 0 (AExternal 1) (Some 1)) /\
    promises s' = promises leaf_state /\
    microtasks s' = microtasks leaf_state /\
    (forall s'' v, promise_state s'' 1 = Some (Fulfilled v) ->
       Forall (fun q => promise_state s'' q = Some (Fulfilled v)) (replicate 3 1)) /\
    (forall fuel', abort (S fuel') 0 s' = Some (1, s')).
Proof.
  apply (C3_abort_invokes_callback_once leaf_state 0 (Operation 0 (AExternal 1) None)
           1 3 0); [reflexivity | reflexivity | reflexivity | lia].
Defined.

(** ** C6 and C10: [notAbortable] *)

(** Side conditions on indices: the lengths of updated lists, and the bounds
    that lookups in the context give. *)
Ltac heap_lia :=
  repeat match goal with
         | H : _ !! _ = Some _ |- _ => apply lookup_lt_Some in H
         end;
  repeat (rewrite ?length_insert, ?length_app in *; cbn [length] in *);
  lia.

(** Lookups in a list built from updates and appends. *)
Ltac heap_lookup :=
  repeat first
    [ rewrite lookup_snoc
    | rewrite lookup_snoc_eq by heap_lia
    | rewrite list_lookup_insert_eq by heap_lia
    | rewrite list_lookup_insert_ne by heap_lia
    | rewrite lookup_app_l by heap_lia ];
  try reflexivity; try eassumption.

(** A queue of one job whose run schedules nothing is emptied in one turn. *)
Lemma run_microtasks_one fuel s j s' :
  microtasks s = [j] ->
  run_job j (State (promises s) (operations s) (links s) (cells s) [] (log s))
    = Some (tt, s') ->
  microtasks s' = [] ->
  run_microtasks (S fuel) s = Some (tt, s').
Proof.
  intros Hq Hj Hq'. simpl. rewrite Hq. unfold bind, tick. rewrite Hq.
  unfold set_microtasks. rewrite Hj.
  destruct fuel; simpl; now rewrite Hq'.
Qed.

(** The job of [p.catch(() => {})] on a pending derived promise [d]: if [p]
    was fulfilled the value is passed on, if it was rejected the handler
    returns [undefined]; either way [d] is fulfilled. *)
Lemma catch_job_fulfilled s d y v :
  promises s !! d = Some y -> p_resolved y = false -> p_state y = Pending ->
  thenable v = false ->
  run_job (JReaction None true d v) s =
  Some (tt, State (<[d := Promise (Fulfilled v) [] true (p_handled y)]> (promises s))
                  (operations s) (links s) (cells s)
                  (microtasks s ++ map (reaction_job true v) (p_reactions y)) (log s)).
Proof. intros. simpl. now apply resolve_fn_pending. Qed.

Lemma catch_job_rejected s d y e :
  promises s !! d = Some y -> p_resolved y = false -> p_state y = Pending ->
  run_job (JReaction (Some HNoop) false d e) s =
  Some (tt, State (<[d := Promise (Fulfilled VUndefined) [] true (p_handled y)]> (promises s))
                  (operations s) (links s) (cells s)
                  (microtasks s ++ map (reaction_job true VUndefined) (p_reactions y))
                  (log s)).
Proof. intros. simpl. unfold bind, ret. now apply resolve_fn_pending. Qed.

Lemma catch_job_eq s d y b arg :
  promises s !! d = Some y -> p_resolved y = false -> p_state y = Pending ->
  (b = true -> thenable arg = false) ->
  run_job (JReaction (if b then None else Some HNoop) b d arg) s =
  Some (tt, State (<[d := Promise (Fulfilled (if b then arg else VUndefined)) [] true
                                  (p_handled y)]> (promises s))
                  (operations s) (links s) (cells s)
                  (microtasks s ++
                     map (reaction_job true (if b then arg else VUndefined))
                         (p_reactions y))
                  (log s)).
Proof.
  intros Hd Hr Hs Hv. destruct b.
  - apply catch_job_fulfilled; auto.
  - apply catch_job_rejected; auto.
Qed.

(** An operation's promise never changes: its result is the state of the
    promise it was constructed with, in every later state. *)
Lemma result_state_evolves s s' o x :
  operations s !! o = Some x -> evolves s s' ->
  result_state s' o = promise_state s' (op_promise x).
Proof.
  intros Ho E. destruct (ev_operations _ _ E _ _ Ho) as (x' & Hx' & Hp & _).
  unfold result_state. now rewrite Hx', Hp.
Qed.

(** A settled promise keeps its state in every later state. *)
Lemma promise_state_evolves s s' p st :
  promise_state s p = Some st -> st <> Pending -> evolves s s' ->
  promise_state s' p = Some st.
Proof.
  unfold promise_state. intros Hp Hst E.
  destruct (promises s !! p) as [x |] eqn:Ex; [| discriminate].
  injection Hp as <-.
  destruct (ev_promises _ _ E _ _ Ex) as (x' & Hx' & Hs & _).
  rewrite Hx'. simpl. now rewrite (Hs Hst).
Qed.

(** [notAbortable(p).abort()] is [p.catch(() => {})]: a new promise, with a
    reaction on [p] that has no fulfilment handler. *)
Lemma notAbortable_abort_eq s p x fuel :
  promises s !! p = Some x ->
  abort (S fuel) (length (operations s))
    (State (promises s) (operations s ++ [Operation p (ACatch p) None])
           (links s) (cells s) (microtasks s) (log s)) =
  Some (length (promises s),
        State (<[p := Promise (p_state x)
                          (match p_state x with
                           | Pending => p_reactions x ++
                               [Reaction None (Some HNoop) (length (promises s))]
                           | _ => p_reactions x
                           end) (p_resolved x) true]> (promises s) ++ [fresh_promise])
              (operations s ++ [Operation p (ACatch p) (Some (length (promises s)))])
              (links s) (cells s)
              (microtasks s ++
                 match p_state x with
                 | Pending => []
                 | Fulfilled v => [JReaction None true (length (promises s)) v]
                 | Rejected e => [JReaction (Some HNoop) false (length (promises s)) e]
                 end)
              (log s ++ [EvOnAbort (length (operations s))])).
Proof.
  intros Hp.
  erewrite abort_first with (rec := catch_ p HNoop); cycle 1.
  - state_simpl. apply lookup_snoc.
  - reflexivity.
  - reflexivity.
  - unfold catch_. apply then__eq. state_simpl. exact Hp.
  - state_simpl. apply lookup_snoc.
  - state_simpl. now rewrite insert_snoc.
Qed.

(** Settling [p] and emptying the queue, in a state where the only reaction
    on [p] is that of [d = p.catch(() => {})] and nothing else is scheduled:
    [d] is fulfilled, with the value of [p] or with [undefined]. *)
Lemma catch_settle_run s p d x y b arg :
  promises s !! p = Some x ->
  p_state x = Pending -> p_resolved x = false ->
  p_reactions x = [Reaction None (Some HNoop) d] ->
  promises s !! d = Some y ->
  p_state y = Pending -> p_resolved y = false -> p_reactions y = [] ->
  microtasks s = [] ->
  (b = true -> thenable arg = false) ->
  ((if b then resolve_fn p arg else reject_fn p arg) ;;; run_microtasks 1) s =
  Some (tt, State (<[d := Promise (Fulfilled (if b then arg else VUndefined)) [] true
                                  (p_handled y)]>
                     (<[p := Promise (if b then Fulfilled arg else Rejected arg) [] true
                                     (p_handled x)]> (promises s)))
                  (operations s) (links s) (cells s) [] (log s)).
Proof.
  intros Hp Hs Hr Hrs Hd Hsd Hrd Hrsd Hq Hv.
  assert (Hne : p <> d).
  { intros ->. rewrite Hp in Hd. injection Hd as <-. rewrite Hrs in Hrsd. discriminate. }
  assert (Hsettle :
    (if b then resolve_fn p arg else reject_fn p arg) s =
    Some (tt, State (<[p := Promise (if b then Fulfilled arg else Rejected arg) [] true
                                    (p_handled x)]> (promises s))
                    (operations s) (links s) (cells s)
                    [JReaction (if b then None else Some HNoop) b d arg] (log s))).
  { destruct b.
    - erewrite resolve_fn_pending by eauto. now rewrite Hq, Hrs.
    - erewrite reject_fn_pending by eauto. now rewrite Hq, Hrs. }
  rewrite (bind_eq _ _ _ _ _ Hsettle).
  erewrite run_microtasks_one; [reflexivity | reflexivity | |].
  - erewrite catch_job_eq; state_simpl; eauto.
    + rewrite Hrsd. reflexivity.
    + now rewrite list_lookup_insert_ne.
  - reflexivity.
Qed.

(** The same when [p] is settled before [abort()] is called: the job of the
    reaction is all the queue holds. *)
Lemma catch_job_run s d y (b : bool) arg :
  promises s !! d = Some y ->
  p_state y = Pending -> p_resolved y = false -> p_reactions y = [] ->
  microtasks s = [JReaction (if b then None else Some HNoop) b d arg] ->
  (b = true -> thenable arg = false) ->
  run_microtasks 1 s =
  Some (tt, State (<[d := Promise (Fulfilled (if b then arg else VUndefined)) [] true
                                  (p_handled y)]> (promises s))
                  (operations s) (links s) (cells s) [] (log s)).
Proof.
  intros Hd Hsd Hrd Hrsd Hq Hv.
  erewrite run_microtasks_one; [reflexivity | exact Hq | |].
  - erewrite catch_job_eq; state_simpl; eauto. rewrite Hrsd. reflexivity.
  - reflexivity.
Qed.

Lemma run_evolves acts s s' : run acts s = Some (tt, s') -> evolves s s'.
Proof. apply mono_run. Qed.

(** A settled result keeps its outcome in every later state. *)
Lemma result_state_stable s s' o st :
  result_state s o = Some st -> st <> Pending -> evolves s s' ->
  result_state s' o = Some st.
Proof.
  unfold result_state. intros H Hst E.
  destruct (operations s !! o) as [x |] eqn:Ho; [| discriminate].
  destruct (ev_operations _ _ E _ _ Ho) as (x' & Hx' & Hp & _).
  rewrite Hx', Hp. eapply promise_state_evolves; eauto.
Qed.

Lemma settled_for_good_intro s o st :
  result_state s o = Some st -> st <> Pending -> settled_for_good s o st.
Proof.
  intros H Hst. split; [exact H |].
  intros acts s' Hrun. eapply result_state_stable; eauto using run_evolves.
Qed.

(** C6.  Let [p] be a promise of the heap, settled or pending (then
    unresolved, nobody listening to it yet), in a state with an empty job
    queue.  [o = notAbortable(p)] is an operation whose result is the state
    of [p] in every later state, and [d = o.abort()] returns.  If [p] is
    pending, [d] is pending and nothing is scheduled for it; once [p] is
    settled, fulfilled or rejected, and the queued job has run, the result
    of [o] is the outcome of [p] and [d] is fulfilled.  If [p] was settled
    already, the result of [o] is its outcome and [d] is fulfilled once the
    queued job has run.  Either way [d] is still fulfilled, and so not
    rejected, whatever the program does afterwards. *)
Theorem C6_notAbortable_settles_as_promise (s : state) (p : pid) (x : promise)
    (fuel : nat) :
  promises s !! p = Some x ->
  microtasks s = [] ->
  (p_state x = Pending -> p_resolved x = false /\ p_reactions x = []) ->
  (forall v, p_state x = Fulfilled v -> thenable v = false) ->
  exists o d s1 s2,
    notAbortable p s = Some (o, s1) /\
    (forall acts s', run acts s1 = Some (tt, s') ->
       result_state s' o = promise_state s' p) /\
    abort (S fuel) o s1 = Some (d, s2) /\
    match p_state x with
    | Pending =>
        promise_state s2 d = Some Pending /\
        microtasks s2 = [] /\
        forall (b : bool) arg, (b = true -> thenable arg = false) ->
          exists s3,
            ((if b then resolve_fn p arg else reject_fn p arg) ;;; run_microtasks 1) s2
              = Some (tt, s3) /\
            promise_state s3 p = Some (if b then Fulfilled arg else Rejected arg) /\
            result_state s3 o = Some (if b then Fulfilled arg else Rejected arg) /\
            (exists w, promise_state s3 d = Some (Fulfilled w)) /\
            forall acts s4, run acts s3 = Some (tt, s4) ->
              exists w, promise_state s4 d = Some (Fulfilled w)
    | st =>
        exists s3,
          run_microtasks 1 s2 = Some (tt, s3) /\
          result_state s3 o = Some st /\
          (exists w, promise_state s3 d = Some (Fulfilled w)) /\
          forall acts s4, run acts s3 = Some (tt, s4) ->
            exists w, promise_state s4 d = Some (Fulfilled w)
    end.
Proof.
  intros Hp Hq Hpend Hful. pose proof (lookup_lt_Some _ _ _ Hp) as Hlt.
  eexists _, _, _, _. split; [apply notAbortable_eq |].
  split.
  { intros acts s' Hrun. apply run_evolves in Hrun.
    eapply (result_state_evolves _ _ _ (Operation p (ACatch p) None)); [| exact Hrun].
    state_simpl. apply lookup_snoc. }
  split; [apply (notAbortable_abort_eq s p x fuel Hp) |].
  rewrite Hq. cbn [app].
  assert (Hpp : forall (l : list promise) y z, length l = S (length (promises s)) ->
            <[length (promises s) := y]> (<[p := z]> l) !! p = Some z).
  { intros l y z Hl. rewrite list_lookup_insert_ne by lia.
    apply list_lookup_insert_eq. lia. }
  assert (Hdd : forall (l : list promise) y, length l = S (length (promises s)) ->
            p_state <$> <[length (promises s) := y]> l !! length (promises s)
            = Some (p_state y)).
  { intros l y Hl. rewrite list_lookup_insert_eq by lia. reflexivity. }
  assert (Hstay : forall s3 w,
    promise_state s3 (length (promises s)) = Some (Fulfilled w) ->
    forall acts s4, run acts s3 = Some (tt, s4) ->
      exists w', promise_state s4 (length (promises s)) = Some (Fulfilled w')).
  { intros s3 w Hw acts s4 Hrun. exists w.
    eapply promise_state_evolves; [exact Hw | discriminate | apply (run_evolves _ _ _ Hrun)]. }
  assert (Hsettled : forall (b : bool) arg,
    p_state x = (if b then Fulfilled arg else Rejected arg) ->
    (b = true -> thenable arg = false) ->
    exists s3,
      run_microtasks 1
        (State (<[p := Promise (p_state x) (p_reactions x) (p_resolved x) true]>
                  (promises s) ++ [fresh_promise])
               (operations s ++ [Operation p (ACatch p) (Some (length (promises s)))])
               (links s) (cells s)
               [JReaction (if b then None else Some HNoop) b (length (promises s)) arg]
               (log s ++ [EvOnAbort (length (operations s))])) = Some (tt, s3) /\
      result_state s3 (length (operations s)) = Some (p_state x) /\
      (exists w, promise_state s3 (length (promises s)) = Some (Fulfilled w)) /\
      forall acts s4, run acts s3 = Some (tt, s4) ->
        exists w, promise_state s4 (length (promises s)) = Some (Fulfilled w)).
  { intros b arg Es Hv. eexists. split.
    { eapply (catch_job_run _ (length (promises s)) _ b arg); state_simpl.
      - heap_lookup.
      - reflexivity.
      - reflexivity.
      - reflexivity.
      - reflexivity.
      - exact Hv. }
    assert (Hd : promise_state
              (State (<[length (promises s) :=
                          Promise (Fulfilled (if b then arg else VUndefined)) [] true
                                  (p_handled fresh_promise)]>
                        (<[p := Promise (p_state x) (p_reactions x) (p_resolved x) true]>
                           (promises s) ++ [fresh_promise]))
                     (operations s ++
                        [Operation p (ACatch p) (Some (length (promises s)))])
                     (links s) (cells s) []
                     (log s ++ [EvOnAbort (length (operations s))]))
              (length (promises s))
            = Some (Fulfilled (if b then arg else VUndefined))).
    { unfold promise_state. state_simpl. rewrite Hdd by heap_lia. reflexivity. }
    split.
    { unfold result_state, promise_state. state_simpl. heap_lookup. cbn [op_promise].
      rewrite list_lookup_insert_ne by lia.
      rewrite lookup_app_l by heap_lia.
      rewrite list_lookup_insert_eq by lia. reflexivity. }
    split; [eexists; exact Hd |].
    eapply Hstay. exact Hd. }
  destruct (p_state x) as [| v | e] eqn:Es.
  - destruct (Hpend eq_refl) as [Hr Hrs]. rewrite Hrs. cbn [app].
    split; [unfold promise_state; state_simpl; heap_lookup |].
    split; [reflexivity |].
    intros b arg Hv. eexists. split.
    { eapply catch_settle_run; state_simpl; try exact Hv.
      - heap_lookup.
      - reflexivity.
      - exact Hr.
      - reflexivity.
      - heap_lookup.
      - reflexivity.
      - reflexivity.
      - reflexivity.
      - reflexivity. }
    unfold result_state, promise_state. state_simpl.
    split; [rewrite Hpp by heap_lia; reflexivity |].
    split; [heap_lookup; cbn [op_promise]; rewrite Hpp by heap_lia; reflexivity |].
    split; [eexists; rewrite Hdd by heap_lia; reflexivity |].
    eapply Hstay. unfold promise_state. state_simpl. rewrite Hdd by heap_lia. reflexivity.
  - apply (Hsettled true v eq_refl). intros _. now apply Hful.
  - apply (Hsettled false e eq_refl). discriminate.
Qed.

Lemma C6_notAbortable_settles_as_promise_witness :
  exists o d s1 s2,
    notAbortable 0 leaf_state = Some (o, s1) /\
    (forall acts s', run acts s1 = Some (tt, s') ->
       result_state s' o = promise_state s' 0) /\
    abort (S 0) o s1 = Some (d, s2) /\
    promise_state s2 d = Some Pending /\
    microtasks s2 = [] /\
    forall (b : bool) arg, (b = true -> thenable arg = false) ->
      exists s3,
        ((if b then resolve_fn 0 arg else reject_fn 0 arg) ;;; run_microtasks 1) s2
          = Some (tt, s3) /\
        promise_state s3 0 = Some (if b then Fulfilled arg else Rejected arg) /\
        result_state s3 o = Some (if b then Fulfilled arg else Rejected arg) /\
        (exists w, promise_state s3 d = Some (Fulfilled w)) /\
        forall acts s4, run acts s3 = Some (tt, s4) ->
          exists w, promise_state s4 d = Some (Fulfilled w).
Proof.
  apply (C6_notAbortable_settles_as_promise leaf_state 0 fresh_promise 0).
  - reflexivity.
  - reflexivity.
  - intros _. split; reflexivity.
  - discriminate.
Defined.

(** C10.  The promise [d] returned by [notAbortable(p).abort()] is
    [p.catch(() => {})]: when [p] is fulfilled with [v], [d] is fulfilled
    with [v] itself; only when [p] is rejected is [d] fulfilled with
    [undefined].  This holds when [p] is settled after the call and when it
    was settled before (in a state with an empty job queue, nobody else
    listening to [p]). *)
Theorem C10_notAbortable_abort_passes_value (s : state) (p : pid) (x : promise)
    (fuel : nat) :
  promises s !! p = Some x ->
  microtasks s = [] ->
  (p_state x = Pending -> p_resolved x = false /\ p_reactions x = []) ->
  (forall v, p_state x = Fulfilled v -> thenable v = false) ->
  exists o d s1 s2,
    notAbortable p s = Some (o, s1) /\
    abort (S fuel) o s1 = Some (d, s2) /\
    match p_state x with
    | Pending =>
        (forall v, thenable v = false ->
           exists s3, (resolve_fn p v ;;; run_microtasks 1) s2 = Some (tt, s3) /\
                      promise_state s3 p = Some (Fulfilled v) /\
                      promise_state s3 d = Some (Fulfilled v)) /\
        (forall e,
           exists s3, (reject_fn p e ;;; run_microtasks 1) s2 = Some (tt, s3) /\
                      promise_state s3 p = Some (Rejected e) /\
                      promise_state s3 d = Some (Fulfilled VUndefined))
    | Fulfilled v =>
        exists s3, run_microtasks 1 s2 = Some (tt, s3) /\
                   promise_state s3 d = Some (Fulfilled v)
    | Rejected e =>
        exists s3, run_microtasks 1 s2 = Some (tt, s3) /\
                   promise_state s3 d = Some (Fulfilled VUndefined)
    end.
Proof.
  intros Hp Hq Hpend Hful. pose proof (lookup_lt_Some _ _ _ Hp) as Hlt.
  eexists _, _, _, _. split; [apply notAbortable_eq |].
  split; [apply (notAbortable_abort_eq s p x fuel Hp) |].
  rewrite Hq. cbn [app].
  assert (Hdd : forall (l : list promise) y, length l = S (length (promises s)) ->
            p_state <$> <[length (promises s) := y]> l !! length (promises s)
            = Some (p_state y)).
  { intros l y Hl. rewrite list_lookup_insert_eq by lia. reflexivity. }
  assert (Hpp : forall (l : list promise) y z, length l = S (length (promises s)) ->
            p_state <$> <[length (promises s) := y]> (<[p := z]> l) !! p
            = Some (p_state z)).
  { intros l y z Hl. rewrite list_lookup_insert_ne by lia.
    rewrite list_lookup_insert_eq by lia. reflexivity. }
  destruct (p_state x) as [| v | e] eqn:Es.
  - destruct (Hpend eq_refl) as [Hr Hrs]. rewrite Hrs. cbn [app].
    assert (Hrun : forall (b : bool) arg, (b = true -> thenable arg = false) ->
      exists s3,
        ((if b then resolve_fn p arg else reject_fn p arg) ;;; run_microtasks 1)
          (State (<[p := Promise Pending
                           [Reaction None (Some HNoop) (length (promises s))]
                           (p_resolved x) true]> (promises s) ++ [fresh_promise])
                 (operations s ++ [Operation p (ACatch p) (Some (length (promises s)))])
                 (links s) (cells s) []
                 (log s ++ [EvOnAbort (length (operations s))]))
          = Some (tt, s3) /\
        promise_state s3 p = Some (if b then Fulfilled arg else Rejected arg) /\
        promise_state s3 (length (promises s))
          = Some (Fulfilled (if b then arg else VUndefined))).
    { intros b arg Hv. eexists. split.
      { eapply catch_settle_run; state_simpl; try exact Hv.
        - heap_lookup.
        - reflexivity.
        - exact Hr.
        - reflexivity.
        - heap_lookup.
        - reflexivity.
        - reflexivity.
        - reflexivity.
        - reflexivity. }
      unfold promise_state. state_simpl.
      rewrite Hpp by heap_lia. rewrite Hdd by heap_lia. split; reflexivity. }
    split.
    + intros v Hv. apply (Hrun true v). intros _. exact Hv.
    + intros e. apply (Hrun false e). discriminate.
  - eexists. split.
    { eapply (catch_job_run _ (length (promises s)) _ true v); state_simpl.
      - heap_lookup.
      - reflexivity.
      - reflexivity.
      - reflexivity.
      - reflexivity.
      - intros _. now apply Hful. }
    unfold promise_state. state_simpl. rewrite Hdd by heap_lia. reflexivity.
  - eexists. split.
    { eapply (catch_job_run _ (length (promises s)) _ false e); state_simpl.
      - heap_lookup.
      - reflexivity.
      - reflexivity.
      - reflexivity.
      - reflexivity.
      - discriminate. }
    unfold promise_state. state_simpl. rewrite Hdd by heap_lia. reflexivity.
Qed.

Lemma C10_notAbortable_abort_passes_value_witness :
  exists o d s1 s2,
    notAbortable 0 leaf_state = Some (o, s1) /\
    abort (S 0) o s1 = Some (d, s2) /\
    (forall v, thenable v = false ->
       exists s3, (resolve_fn 0 v ;;; run_microtasks 1) s2 = Some (tt, s3) /\
                  promise_state s3 0 = Some (Fulfilled v) /\
                  promise_state s3 d = Some (Fulfilled v)) /\
    (forall e,
       exists s3, (reject_fn 0 e ;;; run_microtasks 1) s2 = Some (tt, s3) /\
                  promise_state s3 0 = Some (Rejected e) /\
                  promise_state s3 d = Some (Fulfilled VUndefined)).
Proof.
  apply (C10_notAbortable_abort_passes_value leaf_state 0 fresh_promise 0).
  - reflexivity.
  - reflexivity.
  - intros _. split; reflexivity.
  - discriminate.
Defined.

(** The run of C10: [p] is fulfilled with 7 before [notAbortable(p).abort()]
    is called; the promise returned is fulfilled with 7. *)
Example notAbortable_abort_value_run :
  observe
    (p <- promise_resolve (VNumber 7) ;;
     o <- notAbortable p ;;
     d <- abort 1 o ;;
     run_microtasks 1 ;;;
     ret (o, d))
    empty_state
    (fun '(o, d) s' => (result_state s' o, promise_state s' d, microtasks s'))
  = Some (Some (Fulfilled (VNumber 7)), Some (Fulfilled (VNumber 7)), []).
Proof. vm_compute. reflexivity. Qed.

(** The same when [p] is rejected: the promise returned is fulfilled with
    [undefined]. *)
Example notAbortable_abort_failure_run :
  observe
    (p <- promise_reject (VString "failure") ;;
     o <- notAbortable p ;;
     d <- abort 1 o ;;
     run_microtasks 1 ;;;
     ret (o, d))
    empty_state
    (fun '(o, d) s' => (result_state s' o, promise_state s' d, microtasks s'))
  = Some (Some (Rejected (VString "failure")), Some (Fulfilled VUndefined), []).
Proof. vm_compute. reflexivity. Qed.

(** ** [chain] *)

(** [makeCallback(isSuccess)(v)] reads the link and the upstream operation,
    then takes one of its three paths. *)
Lemma makeCallback_unfold s k l a b v :
  links s !! k = Some l ->
  operations s !! l_this l = Some a ->
  makeCallback k b v s =
  (if (match abortPromise_ a with Some _ => true | None => false end) && b
   then reject_fn (l_newPromise l) abortError
   else
     match (if b then l_onSuccess l else l_onError l) with
     | None => if b then resolve_fn (l_newPromise l) v else reject_fn (l_newPromise l) v
     | Some cb =>
         emit (EvContinuation k b v) ;;;
         d <- wrapChainCallback_ cb v (l_newPromise l) ;;
         l' <- get_link k ;;
         put_link k (ChainLink (l_this l') (l_newPromise l') (l_onSuccess l')
                               (l_onError l') d)
     end) s.
Proof.
  intros Hl Ha. unfold makeCallback.
  rewrite (bind_eq _ _ _ _ _ (get_link_eq _ _ _ Hl)).
  now rewrite (bind_eq _ _ _ _ _ (get_operation_eq _ _ _ Ha)).
Qed.

Lemma plain_not_thenable v : plain v = true -> thenable v = false.
Proof. destruct v; simpl; congruence. Qed.

(** [wrapChainCallback_] when the new promise has not been resolved yet and
    the continuation returns a plain value or throws. *)
Lemma wrapChainCallback__plain s cb v np y r :
  promises s !! np = Some y -> p_resolved y = false -> p_state y = Pending ->
  cb v = Return r -> plain r = true ->
  wrapChainCallback_ cb v np s =
  Some (DValue r,
        State (<[np := Promise (Fulfilled r) [] true (p_handled y)]> (promises s))
              (operations s) (links s) (cells s)
              (microtasks s ++ map (reaction_job true r) (p_reactions y))
              (log s)).
Proof.
  intros Hnp Hr Hs Hcb Hpl. unfold wrapChainCallback_. rewrite Hcb.
  assert (Hres : resolve_fn np r s =
    Some (tt, State (<[np := Promise (Fulfilled r) [] true (p_handled y)]> (promises s))
              (operations s) (links s) (cells s)
              (microtasks s ++ map (reaction_job true r) (p_reactions y))
              (log s))).
  { erewrite resolve_fn_pending; eauto using plain_not_thenable. }
  destruct r; try discriminate Hpl; now rewrite (bind_eq _ _ _ _ _ Hres).
Qed.

Lemma wrapChainCallback__throw s cb v np y e :
  promises s !! np = Some y -> p_resolved y = false -> p_state y = Pending ->
  cb v = Throw e ->
  wrapChainCallback_ cb v np s =
  Some (DResolved,
        State (<[np := Promise (Rejected e) [] true (p_handled y)]> (promises s))
              (operations s) (links s) (cells s)
              (microtasks s ++ map (reaction_job false e) (p_reactions y))
              (log s)).
Proof.
  intros Hnp Hr Hs Hcb. unfold wrapChainCallback_. rewrite Hcb.
  erewrite bind_eq; cycle 1.
  { eapply reject_fn_pending; eauto. }
  reflexivity.
Qed.

(** [wrapChainCallback_] when the new promise has been resolved already: the
    continuation is called and what it produces is dropped. *)
Lemma wrapChainCallback__resolved s cb v np y :
  promises s !! np = Some y -> p_resolved y = true ->
  (forall r, cb v = Return (VOperation r) -> is_Some (operations s !! r)) ->
  exists d, wrapChainCallback_ cb v np s = Some (d, s).
Proof.
  intros Hnp Hr Hop. unfold wrapChainCallback_.
  assert (Hres : forall r, resolve_fn np r s = Some (tt, s)).
  { intros r. eapply resolve_fn_resolved; eauto. }
  assert (Hrej : forall r, reject_fn np r s = Some (tt, s)).
  { intros r. eapply reject_fn_resolved; eauto. }
  destruct (cb v) as [r | e] eqn:Hcb.
  - destruct r;
      try (eexists; rewrite (bind_eq _ _ _ _ _ (Hres _)); reflexivity).
    destruct (Hop o eq_refl) as [rop Hrop].
    eexists. erewrite bind_eq; [| apply get_operation_eq; exact Hrop].
    rewrite (bind_eq _ _ _ _ _ (Hres _)). reflexivity.
  - eexists. rewrite (bind_eq _ _ _ _ _ (Hrej _)). reflexivity.
Qed.

(** [chain] on an operation of the heap. *)
Lemma chain_eq s o a xa f g :
  operations s !! o = Some a ->
  promises s !! op_promise a = Some xa ->
  chain o f g s =
  Some (length (operations s),
        State (<[op_promise a :=
                   Promise (p_state xa)
                     (match p_state xa with
                      | Pending => p_reactions xa ++
                          [Reaction (Some (HChainCallback true (length (links s))))
                                    (Some (HChainCallback false (length (links s))))
                                    (S (S (length (promises s))))]
                      | _ => p_reactions xa
                      end) (p_resolved xa) true]>
                 (promises s) ++
               [Promise Pending [Reaction None (Some HNoop) (S (length (promises s)))]
                        false true;
                fresh_promise; fresh_promise])
              (operations s ++
                 [Operation (length (promises s)) (AChain (length (links s))) None])
              (links s ++ [ChainLink o (length (promises s)) f g DInitial])
              (cells s)
              (microtasks s ++
                 match p_state xa with
                 | Pending => []
                 | Fulfilled v =>
                     [JReaction (Some (HChainCallback true (length (links s)))) true
                                (S (S (length (promises s)))) v]
                 | Rejected e =>
                     [JReaction (Some (HChainCallback false (length (links s)))) false
                                (S (S (length (promises s)))) e]
                 end)
              (log s)).
Proof.
  intros Ho Hp. pose proof (lookup_lt_Some _ _ _ Hp) as Hlt.
  unfold chain, new_promise, catch_.
  unfold bind at 1. unfold alloc_promise.
  erewrite bind_eq; cycle 1.
  { apply then__eq. state_simpl. apply lookup_snoc. }
  unfold bind at 1. unfold alloc_link. state_simpl.
  erewrite bind_eq; cycle 1.
  { apply get_operation_eq. state_simpl. exact Ho. }
  erewrite bind_eq; cycle 1.
  { apply then__eq. state_simpl. rewrite insert_snoc.
    apply lookup_app_l_Some. apply lookup_app_l_Some. exact Hp. }
  unfold new, alloc_operation. state_simpl.
  rewrite insert_snoc, !length_app. cbn [length].
  rewrite !Nat.add_1_r, app_nil_r.
  rewrite !insert_app_l by (rewrite ?length_app; cbn [length]; lia).
  rewrite <- !app_assoc. reflexivity.
Qed.

(** ** The abort race of [chain] *)

Lemma abort_committed_stable s s' a b k np f g :
  evolves s s' -> abort_committed s a b k np f g -> abort_committed s' a b k np f g.
Proof.
  intros E ((ab & Hb) & (d & Hk) & (xa & Ha & Hab) & (y & Hy & Hr & Hs)).
  repeat split.
  - destruct (ev_operations _ _ E _ _ Hb) as ([p' f' ab'] & Hb' & Hp & Hf & _).
    simpl in Hp, Hf. subst. eauto.
  - destruct (ev_links _ _ E _ _ Hk) as ([a' np' f' g' d'] & Hk' & H1 & H2 & H3 & H4).
    simpl in H1, H2, H3, H4. subst. eauto.
  - destruct (ev_operations _ _ E _ _ Ha) as (xa' & Ha' & _ & _ & Hab').
    eauto.
  - destruct (ev_promises _ _ E _ _ Hy) as (y' & Hy' & Hs' & Hr' & _).
    exists y'. repeat split; [exact Hy' | auto |].
    rewrite Hs'; [exact Hs | rewrite Hs; discriminate].
Qed.

Lemma abort_committed_result s a b k np f g :
  abort_committed s a b k np f g -> result_state s b = Some (Rejected abortError).
Proof.
  intros ((ab & Hb) & _ & _ & (y & Hy & _ & Hs)).
  unfold result_state, promise_state. rewrite Hb. simpl. rewrite Hy. simpl.
  now rewrite Hs.
Qed.

(** The success path of the callback stops at its guard and changes nothing. *)
Lemma abort_committed_success_skipped s a b k np f g v :
  abort_committed s a b k np f g -> makeCallback k true v s = Some (tt, s).
Proof.
  intros (_ & (d & Hk) & (xa & Ha & [q Hq]) & (y & Hy & Hr & _)).
  erewrite makeCallback_unfold; [| exact Hk | exact Ha].
  rewrite Hq. simpl. eapply reject_fn_resolved; eauto.
Qed.

(** The failure path has no guard: [onError] is called, and what it produces
    is dropped. *)
Lemma abort_committed_error_runs s a b k np f cb e :
  abort_committed s a b k np f (Some cb) ->
  (forall r, cb e = Return (VOperation r) -> is_Some (operations s !! r)) ->
  exists d,
    makeCallback k false e s =
    Some (tt, State (promises s) (operations s)
                    (<[k := ChainLink a np f (Some cb) d]> (links s))
                    (cells s) (microtasks s) (log s ++ [EvContinuation k false e])).
Proof.
  intros (_ & (d0 & Hk) & (xa & Ha & _) & (y & Hy & Hr & _)) Hop.
  erewrite makeCallback_unfold; [| exact Hk | exact Ha].
  rewrite andb_false_r. cbn [l_onError l_newPromise].
  unfold bind at 1. unfold emit.
  destruct (wrapChainCallback__resolved
              (set_log (fun l => l ++ [EvContinuation k false e]) s) cb e np y Hy Hr Hop)
    as (d & Hw).
  exists d. rewrite (bind_eq _ _ _ _ _ Hw).
  erewrite bind_eq; [| apply get_link_eq; state_simpl; exact Hk].
  reflexivity.
Qed.

(** Without [onError] the failure is passed to the new promise, which drops it. *)
Lemma abort_committed_error_passed s a b k np f e :
  abort_committed s a b k np f None -> makeCallback k false e s = Some (tt, s).
Proof.
  intros (_ & (d0 & Hk) & (xa & Ha & _) & (y & Hy & Hr & _)).
  erewrite makeCallback_unfold; [| exact Hk | exact Ha].
  rewrite andb_false_r. cbn [l_onError l_newPromise].
  eapply reject_fn_resolved; eauto.
Qed.

(** After the abort, [a.onAbort_] and the success continuation are never
    called again. *)
Lemma abort_committed_counts s s' a b k np f g :
  evolves s s' -> abort_committed s a b k np f g ->
  onAbort_calls s' a = onAbort_calls s a /\
  continuation_calls s' k true = continuation_calls s k true.
Proof.
  intros E (_ & (d & Hk) & (xa & Ha & [q Hq]) & _).
  destruct (ev_log _ _ E) as (ext & Hlog & Hall).
  unfold onAbort_calls, continuation_calls. rewrite Hlog, !count_app.
  rewrite (count_zero (is_onAbort a) ext), (count_zero (is_continuation k true) ext).
  - lia.
  - eapply Forall_impl; [exact Hall |]. intros [o | k' bb v | bb]; simpl; auto.
    intros H. destruct (Nat.eqb_spec k' k) as [-> |]; [| reflexivity].
    destruct bb; [| reflexivity]. specialize (H _ _ Hk Ha). congruence.
  - eapply Forall_impl; [exact Hall |]. intros [o | k' bb v | bb]; simpl; auto.
    intros H. destruct (Nat.eqb_spec o a) as [-> |]; [| reflexivity].
    specialize (H _ Ha). congruence.
Qed.

(** An [onAbort] function that calls no other operation returns, calls
    nothing and leaves operations and links as they are. *)
Lemma call_onAbort_standalone rec f s :
  standalone s f ->
  exists q s',
    call_onAbort rec f s = Some (q, s') /\
    operations s' = operations s /\ links s' = links s /\ log s' = log s /\
    (forall r, f = AExternal r -> q = r /\ s' = s) /\
    evolves s s'.
Proof.
  intros Hf. destruct f as [r | | p | ops | k]; try contradiction.
  - exists r, s. do 4 (split; [reflexivity |]).
    split; [intros r0 [= <-]; auto | apply evolves_refl].
  - eexists _, _. split; [apply promise_resolve_eq; reflexivity |].
    do 3 (split; [reflexivity |]). split; [discriminate |].
    eapply (mono_promise_resolve VUndefined). now apply promise_resolve_eq.
  - destruct Hf as [x Hx]. eexists _, _. split; [apply then__eq; exact Hx |].
    do 3 (split; [reflexivity |]). split; [discriminate |].
    eapply (mono_catch_ p HNoop). apply then__eq. exact Hx.
Qed.

(** The first [b.abort()] before the continuation of [b = a.chain(f, g)] has
    run, the [onAbort_] of [a] calling no other operation: the new promise is
    rejected with the abort error and [a.abort()] is called, which calls
    [a.onAbort_]. *)
Lemma chain_abort_committed s a b k np f g xa y fuel :
  operations s !! b = Some (Operation np (AChain k) None) ->
  links s !! k = Some (ChainLink a np f g DInitial) ->
  operations s !! a = Some xa ->
  standalone s (onAbort_ xa) -> abortPromise_ xa = None ->
  promises s !! np = Some y -> p_resolved y = false -> p_state y = Pending ->
  exists q s2,
    abort (S (S fuel)) b s = Some (q, s2) /\
    (forall r, onAbort_ xa = AExternal r -> q = r) /\
    abort_committed s2 a b k np f g /\
    log s2 = log s ++ [EvOnAbort b; EvOnAbort a].
Proof.
  intros Hb Hk Ha Hf Hn Hy Hr Hs.
  assert (Hne : a <> b).
  { intros ->. rewrite Ha in Hb. injection Hb as ->. contradiction. }
  pose proof (lookup_lt_Some _ _ _ Hy) as Hltnp.
  pose proof (lookup_lt_Some _ _ _ Ha) as Hlta.
  pose proof (lookup_lt_Some _ _ _ Hb) as Hltb.
  set (s1 := State (<[np := Promise (Rejected abortError) [] true (p_handled y)]>
                      (promises s))
                   (operations s) (links s) (cells s)
                   (microtasks s ++ map (reaction_job false abortError) (p_reactions y))
                   (log s ++ [EvOnAbort b] ++ [EvOnAbort a])).
  assert (Hf1 : standalone s1 (onAbort_ xa)).
  { destruct (onAbort_ xa); auto. simpl in *. destruct Hf as [x Hx].
    apply lookup_lt_is_Some. rewrite length_insert. now apply lookup_lt_Some in Hx. }
  destruct (call_onAbort_standalone (abort fuel) _ _ Hf1)
    as (q & s2 & Hcall & Hops & Hlinks & Hlog & Hext & E).
  assert (Ha2 : operations s2 !! a = Some xa) by (now rewrite Hops).
  assert (Hrun : abort (S (S fuel)) b s =
    Some (q, State (promises s2)
                   (<[b := Operation np (AChain k) (Some q)]>
                      (<[a := Operation (op_promise xa) (onAbort_ xa) (Some q)]>
                         (operations s2)))
                   (links s2) (cells s2) (microtasks s2) (log s2))).
  { erewrite abort_first with (rec := call_delegate (abort (S fuel)) k); cycle 1.
    - exact Hb.
    - reflexivity.
    - reflexivity.
    - unfold call_delegate.
      erewrite bind_eq; [| apply get_link_eq; state_simpl; exact Hk].
      cbn [l_abort l_newPromise l_this].
      erewrite bind_eq; [| eapply reject_fn_pending; state_simpl; eauto].
      eapply abort_run.
      + state_simpl. exact Ha.
      + exact Hn.
      + state_simpl. rewrite <- app_assoc. exact Hcall.
      + exact Ha2.
    - state_simpl. rewrite list_lookup_insert_ne by lia. rewrite Hops. exact Hb.
    - reflexivity. }
  exists q. eexists. split; [exact Hrun |].
  split; [intros r Hr'; now destruct (Hext r Hr') |].
  split.
  - unfold abort_committed. state_simpl. split; [| split; [| split]].
    + eexists. apply list_lookup_insert_eq. rewrite length_insert, Hops. exact Hltb.
    + rewrite Hlinks. eauto.
    + eexists. split.
      * rewrite list_lookup_insert_ne by lia.
        apply list_lookup_insert_eq. rewrite Hops. exact Hlta.
      * simpl. eauto.
    + destruct (ev_promises _ _ E np (Promise (Rejected abortError) [] true (p_handled y)))
        as (y2 & Hy2 & Hst & Hres & _).
      { subst s1. state_simpl. now apply list_lookup_insert_eq. }
      exists y2. split; [exact Hy2 |]. split; [now apply Hres |].
      apply Hst. discriminate.
  - state_simpl. rewrite Hlog. subst s1. state_simpl. reflexivity.
Qed.

(** The paths of [makeCallback] when the new promise has not been resolved. *)
Section MakeCallback.
Variables (s : state) (k : lid) (l : chainLink) (a : operation) (y : promise).
Hypothesis Hk : links s !! k = Some l.
Hypothesis Ha : operations s !! l_this l = Some a.
Hypothesis Hy : promises s !! l_newPromise l = Some y.
Hypothesis Hr : p_resolved y = false.
Hypothesis Hs : p_state y = Pending.

(** The guard: an abort was requested on the upstream operation. *)
Lemma makeCallback_guard v q :
  abortPromise_ a = Some q ->
  makeCallback k true v s =
  Some (tt, State (<[l_newPromise l := Promise (Rejected abortError) [] true
                                               (p_handled y)]> (promises s))
                  (operations s) (links s) (cells s)
                  (microtasks s ++ map (reaction_job false abortError) (p_reactions y))
                  (log s)).
Proof using Hk Ha Hy Hr Hs.
  intros Hq. erewrite makeCallback_unfold by eauto. rewrite Hq. simpl.
  eapply reject_fn_pending; eauto.
Qed.

(** No continuation: the outcome of the upstream operation is passed on. *)
Lemma makeCallback_pass (b : bool) v :
  (b = true -> abortPromise_ a = None /\ thenable v = false) ->
  (if b then l_onSuccess l else l_onError l) = None ->
  makeCallback k b v s =
  Some (tt, State (<[l_newPromise l := Promise (if b then Fulfilled v else Rejected v)
                                               [] true (p_handled y)]> (promises s))
                  (operations s) (links s) (cells s)
                  (microtasks s ++ map (reaction_job b v) (p_reactions y))
                  (log s)).
Proof using Hk Ha Hy Hr Hs.
  intros Hb Hcb. erewrite makeCallback_unfold by eauto. rewrite Hcb.
  destruct b.
  - destruct (Hb eq_refl) as [-> Hv]. simpl. eapply resolve_fn_pending; eauto.
  - rewrite andb_false_r. eapply reject_fn_pending; eauto.
Qed.

(** The continuation returns a plain value. *)
Lemma makeCallback_plain (b : bool) cb v r :
  (b = true -> abortPromise_ a = None) ->
  (if b then l_onSuccess l else l_onError l) = Some cb ->
  cb v = Return r -> plain r = true ->
  makeCallback k b v s =
  Some (tt, State (<[l_newPromise l := Promise (Fulfilled r) [] true (p_handled y)]>
                     (promises s))
                  (operations s)
                  (<[k := ChainLink (l_this l) (l_newPromise l) (l_onSuccess l)
                                    (l_onError l) (DValue r)]> (links s))
                  (cells s)
                  (microtasks s ++ map (reaction_job true r) (p_reactions y))
                  (log s ++ [EvContinuation k b v])).
Proof using Hk Ha Hy Hr Hs.
  intros Hb Hcb Hret Hpl. erewrite makeCallback_unfold by eauto. rewrite Hcb.
  assert ((match abortPromise_ a with Some _ => true | None => false end) && b
          = false) as ->.
  { destruct b; [rewrite (Hb eq_refl); reflexivity | apply andb_false_r]. }
  unfold bind at 1. unfold emit.
  erewrite bind_eq; [| eapply wrapChainCallback__plain; state_simpl; eauto].
  erewrite bind_eq; [| apply get_link_eq; state_simpl; exact Hk].
  reflexivity.
Qed.

(** The continuation throws. *)
Lemma makeCallback_throw (b : bool) cb v e :
  (b = true -> abortPromise_ a = None) ->
  (if b then l_onSuccess l else l_onError l) = Some cb ->
  cb v = Throw e ->
  makeCallback k b v s =
  Some (tt, State (<[l_newPromise l := Promise (Rejected e) [] true (p_handled y)]>
                     (promises s))
                  (operations s)
                  (<[k := ChainLink (l_this l) (l_newPromise l) (l_onSuccess l)
                                    (l_onError l) DResolved]> (links s))
                  (cells s)
                  (microtasks s ++ map (reaction_job false e) (p_reactions y))
                  (log s ++ [EvContinuation k b v])).
Proof using Hk Ha Hy Hr Hs.
  intros Hb Hcb Hret. erewrite makeCallback_unfold by eauto. rewrite Hcb.
  assert ((match abortPromise_ a with Some _ => true | None => false end) && b
          = false) as ->.
  { destruct b; [rewrite (Hb eq_refl); reflexivity | apply andb_false_r]. }
  unfold bind at 1. unfold emit.
  erewrite bind_eq; [| eapply wrapChainCallback__throw; state_simpl; eauto].
  erewrite bind_eq; [| apply get_link_eq; state_simpl; exact Hk].
  reflexivity.
Qed.
End MakeCallback.

(** ** C1: the abort race *)

(** C1.  Let [b] be the operation returned by [a.chain(f, g)], not aborted,
    its continuation not run yet (the variable [abort] of the call has its
    initial value and the new promise [np] is unresolved), where [a] is not
    aborted and its [onAbort_] calls no other operation (it was supplied by
    the caller, or [a] comes from [completed], [failed], [aborted] or
    [notAbortable]).  Then [b.abort()] returns what [a.onAbort_] returns, the
    result of [b] is rejected with the abort error and [a.onAbort_] has been
    called once more.  Whatever the program does afterwards (in particular
    if [a] is then fulfilled and its jobs run), the result of [b] is still
    the abort error, [a.onAbort_] has not been called again, the success
    continuation has not been called, and the success callback of the link,
    when it runs, stops at its guard and changes nothing. *)
Theorem C1_abort_before_settlement_wins (s : state) (a b : oid) (k : lid) (np : pid)
    (f g : option callback) (xa : operation) (y : promise) (fuel : nat) :
  operations s !! b = Some (Operation np (AChain k) None) ->
  links s !! k = Some (ChainLink a np f g DInitial) ->
  operations s !! a = Some xa ->
  standalone s (onAbort_ xa) -> abortPromise_ xa = None ->
  promises s !! np = Some y -> p_resolved y = false -> p_state y = Pending ->
  exists q s2,
    abort (S (S fuel)) b s = Some (q, s2) /\
    (forall r, onAbort_ xa = AExternal r -> q = r) /\
    result_state s2 b = Some (Rejected abortError) /\
    onAbort_calls s2 a = onAbort_calls s a + 1 /\
    continuation_calls s2 k true = continuation_calls s k true /\
    forall acts s3, run acts s2 = Some (tt, s3) ->
      result_state s3 b = Some (Rejected abortError) /\
      onAbort_calls s3 a = onAbort_calls s a + 1 /\
      continuation_calls s3 k true = continuation_calls s k true /\
      forall v, makeCallback k true v s3 = Some (tt, s3).
Proof.
  intros Hb Hk Ha Hf Hn Hy Hr Hs.
  assert (Hne : a <> b).
  { intros ->. rewrite Ha in Hb. injection Hb as ->. contradiction. }
  destruct (chain_abort_committed s a b k np f g xa y fuel Hb Hk Ha Hf Hn Hy Hr Hs)
    as (q & s2 & Hrun & Hq & Hc & Hlog).
  exists q, s2. split; [exact Hrun |]. split; [exact Hq |].
  assert (Hcount : onAbort_calls s2 a = onAbort_calls s a + 1 /\
                   continuation_calls s2 k true = continuation_calls s k true).
  { unfold onAbort_calls, continuation_calls. rewrite Hlog, !count_app. simpl.
    rewrite Nat.eqb_refl. destruct (Nat.eqb_spec b a); [congruence | lia]. }
  split; [eapply abort_committed_result; eauto |].
  split; [apply Hcount |]. split; [apply Hcount |].
  intros acts s3 Hacts. apply run_evolves in Hacts.
  pose proof (abort_committed_stable _ _ _ _ _ _ _ _ Hacts Hc) as Hc3.
  destruct (abort_committed_counts _ _ _ _ _ _ _ _ Hacts Hc) as [Hn1 Hn2].
  split; [eapply abort_committed_result; eauto |].
  split; [lia |]. split; [lia |].
  intros v. eapply abort_committed_success_skipped; eauto.
Qed.

Lemma C1_abort_before_settlement_wins_witness :
  exists q s2,
    abort (S (S 0)) 1 chained_state = Some (q, s2) /\
    (forall r, AExternal 1 = AExternal r -> q = r) /\
    result_state s2 1 = Some (Rejected abortError) /\
    onAbort_calls s2 0 = onAbort_calls chained_state 0 + 1 /\
    continuation_calls s2 0 true = continuation_calls chained_state 0 true /\
    forall acts s3, run acts s2 = Some (tt, s3) ->
      result_state s3 1 = Some (Rejected abortError) /\
      onAbort_calls s3 0 = onAbort_calls chained_state 0 + 1 /\
      continuation_calls s3 0 true = continuation_calls chained_state 0 true /\
      forall v, makeCallback 0 true v s3 = Some (tt, s3).
Proof.
  apply (C1_abort_before_settlement_wins chained_state 0 1 0 2
           (Some double) (Some double) (Operation 0 (AExternal 1) None)
           (Promise Pending [Reaction None (Some HNoop) 3] false true) 0);
    first [reflexivity | exact I].
Defined.

(** The run of the test: [a] never settles on its own; [b = a.chain(double,
    double)]; [b.abort()] twice; then [a] is fulfilled after all and every
    job runs.  The result of [b] is the abort error, [a.onAbort_] was called
    once and no continuation was called. *)
Example abort_race_run :
  observe
    (run [ActChain 0 (Some double) (Some double); ActAbort 2 1; ActAbort 2 1;
          ActResolve 0 (VNumber 3); ActTick; ActTick])
    leaf_state
    (fun _ s' => (microtasks s', promise_state s' 0, result_state s' 1, log s'))
  = Some ([], Some (Fulfilled (VNumber 3)), Some (Rejected abortError),
          [EvOnAbort 1; EvOnAbort 0]).
Proof. vm_compute. reflexivity. Qed.

(** The same race two stages down a chain: [c = a.chain(double).chain(double)]
    and [c.abort()] before [a] settles.  The abort goes up the chain to the
    callback of [a], which is called once; both results are the abort error
    and no continuation is called when [a] is fulfilled after all. *)
Example nested_abort_race_run :
  observe
    (b <- chain 0 (Some double) None ;;
     c <- chain b (Some double) None ;;
     q <- abort 3 c ;;
     resolve_fn 0 (VNumber 3) ;;;
     run_microtasks 8 ;;;
     ret (b, c, q))
    leaf_state
    (fun '(b, c, q) s' =>
       (q, result_state s' b, result_state s' c, microtasks s', log s'))
  = Some (1, Some (Rejected abortError), Some (Rejected abortError), [],
          [EvOnAbort 2; EvOnAbort 1; EvOnAbort 0]).
Proof. vm_compute. reflexivity. Qed.

(** The same race on [notAbortable(p).chain(double)]: the result is the abort
    error although [p] is fulfilled afterwards. *)
Example notAbortable_abort_race_run :
  observe
    (a <- notAbortable 0 ;;
     b <- chain a (Some double) None ;;
     abort 2 b ;;;
     resolve_fn 0 (VNumber 3) ;;;
     run_microtasks 8 ;;;
     ret (a, b))
    leaf_state
    (fun '(a, b) s' => (result_state s' a, result_state s' b, microtasks s', log s'))
  = Some (Some (Fulfilled (VNumber 3)), Some (Rejected abortError), [],
          [EvOnAbort 2; EvOnAbort 1]).
Proof. vm_compute. reflexivity. Qed.

(** ** C9: the guard is on the success path only *)



(** The run of C9: [b = a.chain(double, double)], [b.abort()], then [a] fails
    and every job runs: [onError] was called, [onSuccess] was not, and the
    result of [b] is the abort error. *)
Example abort_then_failure_run :
  observe
    (run [ActChain 0 (Some double) (Some double); ActAbort 2 1;
          ActReject 0 (VString "failure"); ActTick; ActTick])
    leaf_state
    (fun _ s' => (microtasks s', promise_state s' 0, result_state s' 1, log s'))
  = Some ([], Some (Rejected (VString "failure")), Some (Rejected abortError),
          [EvOnAbort 1; EvOnAbort 0; EvContinuation 0 false (VString "failure")]).
Proof. vm_compute. reflexivity. Qed.

(** ** C5: a continuation that throws *)



(** The run of the test: [b = completed(1).chain(() => { throw boom; })],
    every job runs, then [b.abort()]: the result of [b] is [boom], the
    promise returned by [abort()] is fulfilled already and only the
    [onAbort_] of [b] itself was called. *)
Example throwing_continuation_run :
  observe
    (a <- completed (VNumber 1) ;;
     b <- chain a (Some (thrower (VString "boom"))) None ;;
     run_microtasks 3 ;;;
     q <- abort 2 b ;;
     ret (a, b, q))
    empty_state
    (fun '(_, b, q) s' =>
       (result_state s' b, promise_state s' q, microtasks s', log s'))
  = Some (Some (Rejected (VString "boom")), Some (Fulfilled VUndefined), [],
          [EvContinuation 0 true (VNumber 1); EvOnAbort 1]).
Proof. vm_compute. reflexivity. Qed.

(** ** C8: the success path of [chain] *)




(** The run of the test: [completed(n).chain(v => v * 2)], then every job
    runs: the result is [n * 2], and 4 for [completed(2)]. *)
Example doubling_run (n : Z) :
  observe
    (a <- completed (VNumber n) ;;
     b <- chain a (Some double) None ;;
     run_microtasks 2 ;;;
     ret b)
    empty_state
    (fun b s' => (result_state s' b, microtasks s'))
  = Some (Some (Fulfilled (VNumber (n * 2))), []).
Proof. vm_compute. reflexivity. Qed.

Example doubling_run_2 :
  observe
    (a <- completed (VNumber 2) ;;
     b <- chain a (Some double) None ;;
     run_microtasks 2 ;;;
     ret b)
    empty_state
    (fun b s' => result_state s' b)
  = Some (Some (Fulfilled (VNumber 4))).
Proof. vm_compute. reflexivity. Qed.

(** [completed(v).chain()], without continuation: the result is [v]. *)
Example pass_through_run :
  observe
    (a <- completed (VString "v") ;;
     b <- chain a None None ;;
     run_microtasks 2 ;;;
     ret b)
    empty_state
    (fun b s' => (result_state s' b, log s'))
  = Some (Some (Fulfilled (VString "v")), []).
Proof. vm_compute. reflexivity. Qed.

(** ** C2: the result of a chain settles once *)



(** One run with everything at once: [b = a.chain(thrower, thrower)],
    [b.abort()], then [a] fails, its jobs run and [onError] throws; then
    somebody calls [resolve] and [reject] on the promise of [b].  The result
    of [b] is the abort error from the abort request on. *)
Example settle_once_run :
  observe
    (b <- chain 0 (Some (thrower (VString "boom"))) (Some (thrower (VString "boom"))) ;;
     abort 2 b ;;;
     r1 <- (fun s => Some (result_state s b, s)) ;;
     reject_fn 0 (VString "failure") ;;;
     run_microtasks 3 ;;;
     r2 <- (fun s => Some (result_state s b, s)) ;;
     resolve_fn 2 (VNumber 1) ;;;
     reject_fn 2 (VString "late") ;;;
     run_microtasks 3 ;;;
     ret (b, r1, r2))
    leaf_state
    (fun '(b, r1, r2) s' => (r1, r2, result_state s' b, log s'))
  = Some (Some (Rejected abortError), Some (Rejected abortError),
          Some (Rejected abortError),
          [EvOnAbort 1; EvOnAbort 0; EvContinuation 0 false (VString "failure")]).
Proof. vm_compute. reflexivity. Qed.

(** ** C4: [all] *)

(** *** The machine of [Promise.all] *)

Lemma open_count_app sts1 sts2 :
  open_count (sts1 ++ sts2) = open_count sts1 + open_count sts2.
Proof. apply count_app. Qed.

Lemma open_count_pos sts i st :
  sts !! i = Some st -> called_of st = false -> 0 < open_count sts.
Proof.
  revert i. induction sts as [| st0 sts IH]; intros [| i] H Hc; try discriminate.
  - injection H as ->. unfold open_count. simpl. rewrite Hc. simpl. lia.
  - simpl in H. unfold open_count in *. simpl. specialize (IH _ H Hc). lia.
Qed.

Lemma open_count_insert sts i st st' :
  sts !! i = Some st ->
  open_count (<[i := st']> sts) + (if called_of st then 0 else 1)
  = open_count sts + (if called_of st' then 0 else 1).
Proof.
  revert i. induction sts as [| st0 sts IH]; intros [| i] H; try discriminate.
  - injection H as ->. unfold open_count. simpl.
    destruct (called_of st), (called_of st'); simpl; lia.
  - simpl in H. specialize (IH _ H). unfold open_count in *. simpl. lia.
Qed.

Lemma map_value_of_insert sts i st :
  map value_of (<[i := st]> sts) = <[i := value_of st]> (map value_of sts).
Proof. apply list_fmap_insert. Qed.

Lemma map_called_of_insert sts i st :
  map called_of (<[i := st]> sts) = <[i := called_of st]> (map called_of sts).
Proof. apply list_fmap_insert. Qed.

Lemma map_insert_same {A B} (f : A -> B) (l : list A) i x y :
  l !! i = Some x -> f y = f x -> map f (<[i := y]> l) = map f l.
Proof.
  intros H Hf. rewrite (list_fmap_insert f). rewrite Hf.
  apply list_insert_id. rewrite list_lookup_fmap, H. reflexivity.
Qed.

(** Every element processed as fulfilled: the result is the array of their
    values, in order. *)
Lemma agg_result_fulfilled g vs :
  g_first g = None ->
  g_sts g = map (SProcessed true) vs ->
  agg_result g = Fulfilled (VArray vs).
Proof.
  intros Hf Hs. unfold agg_result. rewrite Hf, Hs.
  assert (H0 : open_count (map (SProcessed true) vs) = 0).
  { clear. unfold open_count. induction vs as [| v vs IH]; simpl; auto. }
  rewrite H0. simpl. f_equal. f_equal.
  rewrite map_map. simpl. apply map_id.
Qed.

(** A rejection processed: the result is rejected from then on, with the
    first such reason. *)
Lemma agg_step_first ev g g' e :
  agg_step ev g = Some g' -> g_first g = Some e -> g_first g' = Some e.
Proof.
  destruct ev as [i b arg |]; simpl.
  - destruct (g_sts g !! i) as [[] |]; try discriminate.
    destruct (b && thenable arg); [discriminate |]. now intros [= <-].
  - destruct (g_queue g) as [| [[i b] arg] q]; [discriminate |].
    intros [= <-] Hf. simpl. now rewrite Hf.
Qed.

Lemma agg_run_first evs g g' e :
  agg_run evs g = Some g' -> g_first g = Some e -> agg_result g' = Rejected e.
Proof.
  revert g. induction evs as [| ev evs IH]; intros g; simpl.
  - intros [= <-] Hf. unfold agg_result. now rewrite Hf.
  - destruct (agg_step ev g) as [g1 |] eqn:E; [| discriminate].
    intros Hrun Hf. eapply IH; eauto using agg_step_first.
Qed.

(** *** The heap of [Promise.all], and its steps *)

Lemma settle_fn_eq s p x (b : bool) arg :
  promises s !! p = Some x ->
  (p_resolved x = false -> p_state x = Pending) ->
  (b = true -> thenable arg = false) ->
  (if b then resolve_fn p arg else reject_fn p arg) s =
  Some (tt, State (<[p := settle_rec b arg x]> (promises s))
                  (operations s) (links s) (cells s)
                  (microtasks s ++
                     (if p_resolved x then []
                      else map (reaction_job b arg) (p_reactions x)))
                  (log s)).
Proof.
  intros Hp Hs Hv. unfold settle_rec. destruct (p_resolved x) eqn:Hr.
  - rewrite list_insert_id by exact Hp. rewrite app_nil_r.
    destruct b; [erewrite resolve_fn_resolved | erewrite reject_fn_resolved];
      eauto; now destruct s.
  - destruct b.
    + erewrite resolve_fn_pending; eauto.
    + erewrite reject_fn_pending; eauto.
Qed.

(** The invariant does not look at operations, links or the log. *)
Lemma all_inv_ext c t ps g s s' :
  promises s' = promises s -> cells s' = cells s -> microtasks s' = microtasks s ->
  all_inv c t ps g s -> all_inv c t ps g s'.
Proof.
  intros Hp Hc Hq [H1 H2 H3 H4 H5 H6 H7 H8 H9 H10].
  split; rewrite ?Hp, ?Hc, ?Hq; auto.
Qed.

Lemma target_promise_resolved g :
  p_resolved (target_promise g) = false -> p_state (target_promise g) = Pending.
Proof. unfold target_promise. destruct (agg_result g); simpl; congruence. Qed.

Lemma target_promise_reactions g : p_reactions (target_promise g) = [].
Proof. unfold target_promise. now destruct (agg_result g). Qed.

(** An element is settled by its owner: its job joins the queue. *)
Lemma all_inv_settle c t ps g s i b arg :
  all_inv c t ps g s ->
  g_sts g !! i = Some SPending ->
  b && thenable arg = false ->
  exists s',
    agg_perform ps (AggSettle i b arg) s = Some (tt, s') /\
    all_inv c t ps (Agg (<[i := SQueued b arg]> (g_sts g))
                        (g_queue g ++ [(i, b, arg)]) (g_first g)) s' /\
    operations s' = operations s /\ links s' = links s /\ log s' = log s.
Proof.
  intros [Hlen Hnd Hold Hcell Hmem Hder Htgt Hq Hqd Hqnd] Hi Hv.
  pose proof (lookup_lt_Some _ _ _ Hi) as Hlt. rewrite Hlen in Hlt.
  destruct (lookup_lt_is_Some_2 ps i Hlt) as [p Hp].
  destruct (Hmem _ _ _ Hp Hi) as (x & Hx & ->).
  pose proof (Hold _ _ Hp) as Hpt.
  eexists. split.
  { simpl. rewrite Hp. simpl. unfold bind. simpl.
    apply settle_fn_eq; [exact Hx | reflexivity |].
    intros ->. simpl in Hv. exact Hv. }
  unfold settle_rec. simpl.
  split; [| repeat split].
  assert (Hvo : map value_of (<[i := SQueued b arg]> (g_sts g)) = map value_of (g_sts g)).
  { eapply map_insert_same; eauto. }
  assert (Hco : map called_of (<[i := SQueued b arg]> (g_sts g)) = map called_of (g_sts g)).
  { eapply map_insert_same; eauto. }
  assert (Hoc : open_count (<[i := SQueued b arg]> (g_sts g)) = open_count (g_sts g)).
  { pose proof (open_count_insert _ _ _ (SQueued b arg) Hi) as H. simpl in H. lia. }
  split; simpl.
  - now rewrite length_insert.
  - exact Hnd.
  - exact Hold.
  - now rewrite Hvo, Hco, Hoc.
  - intros j pj stj Hpj Hstj. destruct (decide (j = i)) as [-> | Hne].
    + rewrite Hp in Hpj. injection Hpj as <-.
      rewrite list_lookup_insert_eq in Hstj by (rewrite Hlen; exact Hlt).
      injection Hstj as <-. eexists. split.
      * apply list_lookup_insert_eq. now apply lookup_lt_Some in Hx.
      * reflexivity.
    + rewrite list_lookup_insert_ne in Hstj by auto.
      destruct (Hmem _ _ _ Hpj Hstj) as (xj & Hxj & Hst).
      exists xj. split; [| exact Hst].
      rewrite list_lookup_insert_ne; [exact Hxj |].
      intros ->. apply Hne. eapply (NoDup_lookup ps); eauto.
  - intros j stj Hstj.
    rewrite list_lookup_insert_ne by (pose proof (Hold _ _ Hp); lia).
    destruct (decide (j = i)) as [-> | Hne].
    + rewrite list_lookup_insert_eq in Hstj by (rewrite Hlen; exact Hlt).
      injection Hstj as <-. apply (Hder _ _ Hi).
    + rewrite list_lookup_insert_ne in Hstj by auto. now apply Hder.
  - rewrite list_lookup_insert_ne by lia. rewrite Htgt. f_equal.
    unfold target_promise, agg_result. simpl. now rewrite Hvo, Hoc.
  - rewrite Hq, map_app. destruct b; reflexivity.
  - intros j b' arg' Hin. apply in_app_or in Hin. destruct Hin as [Hin | Hin].
    + pose proof (Hqd _ _ _ Hin) as Hj.
      rewrite list_lookup_insert_ne; [exact Hj |]. intros ->. congruence.
    + destruct Hin as [[= <- <- <-] | []].
      apply list_lookup_insert_eq. rewrite Hlen. exact Hlt.
  - rewrite map_app. simpl. apply NoDup_app. split; [exact Hqnd |]. split.
    + intros j Hj ->%list_elem_of_singleton.
      apply list_elem_of_In, in_map_iff in Hj. destruct Hj as ([[j b'] arg'] & Hj & Hin).
      simpl in Hj. subst j. pose proof (Hqd _ _ _ Hin). congruence.
    + apply NoDup_singleton.
Qed.

Lemma agg_processed_open g i b arg q :
  g_sts g !! i = Some (SQueued b arg) ->
  open_count (g_sts (agg_processed g i b arg q)) =
  if b then pred (open_count (g_sts g)) else open_count (g_sts g).
Proof.
  intros Hi. pose proof (open_count_insert _ _ _ (SProcessed b arg) Hi) as H.
  simpl in *. destruct b; simpl in H; lia.
Qed.

Lemma target_promise_tick g i b arg q :
  g_sts g !! i = Some (SQueued b arg) ->
  (b = true -> Nat.eqb (pred (open_count (g_sts g))) 0 = true ->
   settle_rec true (VArray (map value_of (g_sts (agg_processed g i b arg q))))
              (target_promise g) = target_promise (agg_processed g i b arg q)) /\
  (b = true -> Nat.eqb (pred (open_count (g_sts g))) 0 = false ->
   target_promise g = target_promise (agg_processed g i b arg q)) /\
  (b = false ->
   settle_rec false arg (target_promise g) = target_promise (agg_processed g i b arg q)).
Proof.
  intros Hi. pose proof (open_count_pos _ _ _ Hi eq_refl) as Hpos.
  pose proof (agg_processed_open g i b arg q Hi) as Hoc.
  unfold target_promise, agg_result, settle_rec in *.
  cbn [g_first agg_processed] in *.
  destruct (Nat.eqb_spec (open_count (g_sts g)) 0) as [H0 | H0]; [lia |].
  repeat split.
  - intros -> Hz. apply Nat.eqb_eq in Hz. rewrite Hoc, Hz.
    destruct (g_first g); reflexivity.
  - intros -> Hz. rewrite Hoc, Hz. destruct (g_first g); reflexivity.
  - intros ->. destruct (g_first g); reflexivity.
Qed.

Lemma all_resolve_element_eq s c cell i v :
  cells s !! c = Some cell -> a_called cell !! i = Some false ->
  all_resolve_element c i v s =
  (if Nat.eqb (pred (a_remaining cell)) 0
   then resolve_fn (a_target cell) (VArray (<[i := v]> (a_values cell)))
   else ret tt)
    (State (promises s) (operations s) (links s)
           (<[c := AllCell (a_target cell) (<[i := v]> (a_values cell))
                           (<[i := true]> (a_called cell))
                           (pred (a_remaining cell))]> (cells s))
           (microtasks s) (log s)).
Proof.
  intros Hc Hi. unfold all_resolve_element.
  rewrite (bind_eq _ _ _ _ _ (get_cell_eq _ _ _ Hc)). rewrite Hi.
  reflexivity.
Qed.

Lemma all_inv_tick_eq c t ps g s i b arg q :
  all_inv c t ps g s ->
  g_queue g = (i, b, arg) :: q ->
  tick s = Some (tt, ticked c t (agg_processed g i b arg q) i q s).
Proof.
  intros [Hlen Hnd Hold Hcell Hmem Hder Htgt Hq Hqd Hqnd] Hg.
  assert (Hi : g_sts g !! i = Some (SQueued b arg)).
  { apply Hqd. rewrite Hg. now left. }
  destruct (target_promise_tick g i b arg q Hi) as (Ht1 & Ht2 & Ht3).
  pose proof (agg_processed_open g i b arg q Hi) as Hoc.
  pose proof (lookup_lt_Some _ _ _ Htgt) as Hltt.
  pose proof (lookup_lt_Some _ _ _ (Hder _ _ Hi)) as Hltd.
  pose proof (lookup_lt_Some _ _ _ Hcell) as Hltc.
  unfold tick. rewrite Hq, Hg. cbn [map member_job].
  unfold set_microtasks. cbn [promises operations links cells microtasks log].
  unfold ticked.
  assert (Hderived : forall T ops ls cs mq lg,
    resolve_fn (S t + i) VUndefined
      (State (<[t := T]> (promises s)) ops ls cs mq lg) =
    Some (tt, State (<[S t + i := Promise (Fulfilled VUndefined) [] true false]>
                       (<[t := T]> (promises s))) ops ls cs mq lg)).
  { intros T ops ls cs mq lg.
    erewrite (settle_fn_eq _ _ fresh_promise true); cycle 1.
    - state_simpl. rewrite list_lookup_insert_ne by lia. apply (Hder _ _ Hi).
    - reflexivity.
    - reflexivity.
    - unfold settle_rec. state_simpl. now rewrite app_nil_r. }
  assert (Hnil : forall A (l : list A),
            l ++ (if p_resolved (target_promise g) then [] else []) = l).
  { intros A l. destruct (p_resolved (target_promise g)); apply app_nil_r. }
  destruct b.
  - (* the resolve element function of element [i] *)
    cbn [run_job run_handler].
    erewrite bind_eq; cycle 1.
    { erewrite bind_eq; [reflexivity |].
      erewrite all_resolve_element_eq; cycle 1.
      - state_simpl. exact Hcell.
      - cbn [a_called]. rewrite list_lookup_fmap, Hi. reflexivity.
      - cbn [a_called a_values a_target a_remaining]. state_simpl.
        rewrite <- (map_value_of_insert _ _ (SProcessed true arg)).
        change (<[i := true]> (map called_of (g_sts g)))
          with (<[i := called_of (SProcessed true arg)]> (map called_of (g_sts g))).
        rewrite <- (map_called_of_insert _ _ (SProcessed true arg)).
        change (<[i := SProcessed true arg]> (g_sts g))
          with (g_sts (agg_processed g i true arg q)).
        rewrite <- Hoc.
        destruct (Nat.eqb (open_count (g_sts (agg_processed g i true arg q))) 0)
          eqn:Hz.
        + rewrite Hoc in Hz.
          erewrite (settle_fn_eq _ _ (target_promise g) true); cycle 1.
          * state_simpl. exact Htgt.
          * apply target_promise_resolved.
          * reflexivity.
          * rewrite target_promise_reactions. state_simpl. cbn [map].
            rewrite (Ht1 eq_refl Hz), Hnil. reflexivity.
        + rewrite Hoc in Hz. unfold ret.
          rewrite <- (list_insert_id (promises s) t (target_promise g)) at 1
            by exact Htgt.
          rewrite (Ht2 eq_refl Hz). reflexivity. }
    cbv beta iota. apply Hderived.
  - (* the reject function of the aggregate *)
    cbn [run_job run_handler].
    erewrite bind_eq; cycle 1.
    { erewrite bind_eq; [reflexivity |].
      erewrite (settle_fn_eq _ _ (target_promise g) false); cycle 1.
      - state_simpl. exact Htgt.
      - apply target_promise_resolved.
      - discriminate.
      - rewrite target_promise_reactions. state_simpl. cbn [map].
        rewrite (Ht3 eq_refl), Hnil. reflexivity. }
    cbv beta iota. rewrite Hderived. cbn [agg_processed g_sts] in *.
    rewrite (map_insert_same value_of _ _ _ (SProcessed false arg) Hi eq_refl).
    rewrite (map_insert_same called_of _ _ _ (SProcessed false arg) Hi eq_refl).
    rewrite Hoc. rewrite (list_insert_id (cells s)) by exact Hcell.
    reflexivity.
Qed.

(** The oldest job runs: its element is processed. *)
Lemma all_inv_tick c t ps g s i b arg q :
  all_inv c t ps g s ->
  g_queue g = (i, b, arg) :: q ->
  exists s',
    agg_perform ps AggTick s = Some (tt, s') /\
    all_inv c t ps (agg_processed g i b arg q) s' /\
    operations s' = operations s /\ links s' = links s /\ log s' = log s.
Proof.
  intros Hinv Hg. exists (ticked c t (agg_processed g i b arg q) i q s).
  split; [exact (all_inv_tick_eq _ _ _ _ _ _ _ _ _ Hinv Hg) |].
  split; [| repeat split].
  destruct Hinv as [Hlen Hnd Hold Hcell Hmem Hder Htgt Hq Hqd Hqnd].
  assert (Hi : g_sts g !! i = Some (SQueued b arg)).
  { apply Hqd. rewrite Hg. now left. }
  pose proof (lookup_lt_Some _ _ _ Hi) as Hlti.
  pose proof (lookup_lt_Some _ _ _ Htgt) as Hltt.
  pose proof (lookup_lt_Some _ _ _ (Hder _ _ Hi)) as Hltd.
  pose proof (lookup_lt_Some _ _ _ Hcell) as Hltc.
  rewrite Hg in Hqnd. cbn [map fst] in Hqnd. apply NoDup_cons in Hqnd.
  destruct Hqnd as [Hnotin Hqnd].
  split; unfold ticked; cbn [promises operations links cells microtasks log
                            agg_processed g_sts g_queue g_first].
  - now rewrite length_insert.
  - exact Hnd.
  - exact Hold.
  - apply list_lookup_insert_eq. exact Hltc.
  - intros j pj stj Hpj Hstj. pose proof (Hold _ _ Hpj) as Hlt.
    rewrite !list_lookup_insert_ne by lia.
    destruct (decide (j = i)) as [-> | Hne].
    + rewrite list_lookup_insert_eq in Hstj by exact Hlti. injection Hstj as <-.
      exact (Hmem _ _ _ Hpj Hi).
    + rewrite list_lookup_insert_ne in Hstj by auto. exact (Hmem _ _ _ Hpj Hstj).
  - intros j stj Hstj. destruct (decide (j = i)) as [-> | Hne].
    + rewrite list_lookup_insert_eq in Hstj by exact Hlti. injection Hstj as <-.
      apply list_lookup_insert_eq. rewrite length_insert. exact Hltd.
    + rewrite list_lookup_insert_ne in Hstj by auto.
      rewrite !list_lookup_insert_ne by lia. exact (Hder _ _ Hstj).
  - rewrite list_lookup_insert_ne by lia. apply list_lookup_insert_eq. exact Hltt.
  - reflexivity.
  - intros j b' arg' Hin.
    assert (Hj : g_sts g !! j = Some (SQueued b' arg')).
    { apply Hqd. rewrite Hg. now right. }
    rewrite list_lookup_insert_ne; [exact Hj |].
    intros ->. apply Hnotin. apply list_elem_of_In, in_map_iff.
    exists (j, b', arg'). split; [reflexivity | exact Hin].
  - exact Hqnd.
Qed.

(** The heap follows the machine, step by step. *)
Lemma all_inv_step c t ps g s ev g' :
  all_inv c t ps g s -> agg_step ev g = Some g' ->
  exists s',
    agg_perform ps ev s = Some (tt, s') /\
    all_inv c t ps g' s' /\
    operations s' = operations s /\ links s' = links s /\ log s' = log s.
Proof.
  intros Hinv Hstep. destruct ev as [i b arg |]; simpl in Hstep.
  - destruct (g_sts g !! i) as [[] |] eqn:Hi; try discriminate.
    destruct (b && thenable arg) eqn:Hv; [discriminate |].
    injection Hstep as <-. now apply all_inv_settle.
  - destruct (g_queue g) as [| [[i b] arg] q] eqn:Hg; [discriminate |].
    injection Hstep as <-. now apply all_inv_tick.
Qed.

Lemma all_inv_run c t ps evs : forall g s g',
  all_inv c t ps g s -> agg_run evs g = Some g' ->
  exists s',
    agg_perform_all ps evs s = Some (tt, s') /\
    all_inv c t ps g' s' /\
    operations s' = operations s /\ links s' = links s /\ log s' = log s.
Proof.
  induction evs as [| ev evs IH]; intros g s g' Hinv Hrun; simpl in Hrun.
  - injection Hrun as <-. exists s. split; [reflexivity |].
    split; [exact Hinv |]. auto.
  - destruct (agg_step ev g) as [g1 |] eqn:Hstep; [| discriminate].
    destruct (all_inv_step _ _ _ _ _ _ _ Hinv Hstep) as (s1 & H1 & Hinv1 & Ho1 & Hl1 & Hg1).
    destruct (IH _ _ _ Hinv1 Hrun) as (s2 & H2 & Hinv2 & Ho2 & Hl2 & Hg2).
    exists s2. split.
    { cbn [agg_perform_all]. now rewrite (bind_eq _ _ _ _ _ H1). }
    split; [exact Hinv2 |]. repeat split; congruence.
Qed.

(** In a heap that follows the machine, the aggregate promise is in the
    state the machine gives. *)
Lemma all_inv_result c t ps g s :
  all_inv c t ps g s -> promise_state s t = Some (agg_result g).
Proof.
  intros Hinv. unfold promise_state. rewrite (ai_target _ _ _ _ _ Hinv).
  unfold target_promise. now destruct (agg_result g).
Qed.

(** *** [Promise.all] builds that heap *)

Lemma init_status_unprocessed x : unprocessed (init_status x).
Proof. now destruct x. Qed.

Lemma unprocessed_values sts :
  Forall unprocessed sts ->
  map value_of sts = replicate (length sts) VUndefined /\
  map called_of sts = replicate (length sts) false /\
  open_count sts = length sts.
Proof.
  unfold open_count.
  induction 1 as [| st sts Hst _ (IH1 & IH2 & IH3)]; [now repeat split |].
  simpl. rewrite IH1, IH2, IH3. destruct st as [| b arg | b arg]; try easy.
Qed.

Lemma queued_from_snoc k sts st :
  queued_from k (sts ++ [st]) =
  queued_from k sts ++
  match st with SQueued b arg => [(k + length sts, b, arg)] | _ => [] end.
Proof.
  revert k. induction sts as [| st0 sts IH]; intros k; simpl.
  - rewrite Nat.add_0_r. now destruct st.
  - rewrite IH. replace (S k + length sts) with (k + S (length sts)) by lia.
    now destruct st0.
Qed.

Lemma queued_from_In k sts i b arg :
  In (i, b, arg) (queued_from k sts) ->
  k <= i /\ sts !! (i - k) = Some (SQueued b arg).
Proof.
  revert k. induction sts as [| st0 sts IH]; intros k; simpl; [easy |].
  assert (Hrec : In (i, b, arg) (queued_from (S k) sts) ->
                 k <= i /\ (st0 :: sts) !! (i - k) = Some (SQueued b arg)).
  { intros H. destruct (IH _ H) as [Hle Hl]. split; [lia |].
    replace (i - k) with (S (i - S k)) by lia. exact Hl. }
  destruct st0 as [| b0 arg0 | b0 arg0]; auto.
  intros [[= -> -> ->] | H]; [| auto].
  split; [lia |]. now rewrite Nat.sub_diag.
Qed.

Lemma queued_from_NoDup k sts :
  NoDup (map (fun e : nat * bool * value => fst (fst e)) (queued_from k sts)).
Proof.
  revert k. induction sts as [| st0 sts IH]; intros k; simpl; [constructor |].
  destruct st0 as [| b0 arg0 | b0 arg0]; auto.
  simpl. constructor; [| apply IH].
  intros Hin. apply list_elem_of_In, in_map_iff in Hin.
  destruct Hin as ([[i b] arg] & Hi & Hin). simpl in Hi. subst i.
  apply queued_from_In in Hin. lia.
Qed.

Lemma replicate_snoc {A} n (x : A) : replicate n x ++ [x] = replicate (S n) x.
Proof. induction n as [| n IH]; simpl; [reflexivity | now rewrite IH]. Qed.

(** One turn of the loop. *)
Lemma loop_inv_step s0 c t done sts s p x :
  loop_inv s0 c t done sts s ->
  quiet_member s0 p x -> p < t -> ~ In p done ->
  exists s1,
    (y <- get_cell c ;;
     put_cell c (AllCell (a_target y) (a_values y ++ [VUndefined])
                         (a_called y ++ [false]) (S (a_remaining y))) ;;;
     q <- promise_resolve (VPromise p) ;;
     then_ q (Some (HAllElement c (length done))) (Some (HCapReject t))) s
      = Some (S t + length done, s1) /\
    loop_inv s0 c t (done ++ [p]) (sts ++ [init_status (p_state x)]) s1.
Proof.
  intros [Hlen Hun Hpl Hcell Hmem Hder Htgt Hq Hrest (Ho & Hl & Hg)] [Hx Hquiet] Hpt Hnin.
  assert (Hps : promises s !! p = Some x) by (rewrite Hrest; auto).
  pose proof (lookup_lt_Some _ _ _ Hcell) as Hltc.
  eexists. split.
  { rewrite (bind_eq _ _ _ _ _ (get_cell_eq _ _ _ Hcell)).
    unfold bind at 1. unfold put_cell.
    cbn [a_target a_values a_called a_remaining].
    rewrite (bind_eq _ _ _ _ _ (promise_resolve_promise _ p)).
    erewrite then__eq by (state_simpl; exact Hps).
    state_simpl. rewrite Hpl. reflexivity. }
  split; cbn [promises operations links cells microtasks log].
  - rewrite !length_app, Hlen. reflexivity.
  - apply Forall_app. split; [exact Hun |].
    constructor; [apply init_status_unprocessed | constructor].
  - rewrite !length_app, length_insert, Hpl. simpl. lia.
  - rewrite list_lookup_insert_eq by exact Hltc.
    rewrite !replicate_snoc, length_app. simpl. now rewrite Nat.add_1_r.
  - intros i pi st Hpi Hst.
    destruct (decide (i < length done)) as [Hi | Hi].
    + rewrite lookup_app_l in Hpi by exact Hi.
      rewrite lookup_app_l in Hst by (rewrite Hlen; exact Hi).
      destruct (Hmem _ _ _ Hpi Hst) as (xi & Hxi & Hm).
      exists xi. split; [| exact Hm].
      apply lookup_app_l_Some. rewrite list_lookup_insert_ne; [exact Hxi |].
      intros ->. apply Hnin. apply list_elem_of_In, list_elem_of_lookup. eauto.
    + assert (i = length done) as ->.
      { apply lookup_lt_Some in Hpi. rewrite length_app in Hpi. simpl in Hpi. lia. }
      rewrite lookup_snoc in Hpi. injection Hpi as <-.
      rewrite <- Hlen, lookup_snoc in Hst. injection Hst as <-.
      eexists. split.
      { apply lookup_app_l_Some. apply list_lookup_insert_eq.
        now apply lookup_lt_Some in Hps. }
      destruct (p_state x) eqn:Es; simpl; try reflexivity.
      destruct (Hquiet eq_refl) as [-> ->]. reflexivity.
  - intros i Hi. rewrite length_app in Hi. simpl in Hi.
    destruct (decide (i < length done)) as [Hi' | Hi'].
    + rewrite lookup_app_l by (rewrite length_insert; lia).
      rewrite list_lookup_insert_ne by lia. now apply Hder.
    + assert (i = length done) as -> by lia.
      apply lookup_snoc_eq. rewrite length_insert. lia.
  - rewrite lookup_app_l by (rewrite length_insert; lia).
    rewrite list_lookup_insert_ne by lia. exact Htgt.
  - rewrite Hq, queued_from_snoc, map_app. f_equal.
    rewrite Hlen. destruct (p_state x); reflexivity.
  - intros p' Hp' Hnin'. rewrite lookup_app_l by (rewrite length_insert; lia).
    rewrite list_lookup_insert_ne.
    + apply Hrest; [exact Hp' |]. intros Hin. apply Hnin'. apply in_or_app. now left.
    + intros ->. apply Hnin'. apply in_or_app. right. now left.
  - auto.
Qed.

(** The whole loop. *)
Lemma promise_all_loop_inv s0 c t rest : forall done sts xs s,
  loop_inv s0 c t done sts s ->
  NoDup (done ++ rest) ->
  Forall2 (quiet_member s0) rest xs ->
  length (promises s0) = t ->
  exists s',
    promise_all_loop c t (length done) rest s = Some (tt, s') /\
    loop_inv s0 c t (done ++ rest)
             (sts ++ map (fun x => init_status (p_state x)) xs) s'.
Proof.
  induction rest as [| p rest IH]; intros done sts xs s Hinv Hnd Hall Ht.
  - inversion Hall; subst. exists s. simpl. rewrite !app_nil_r. auto.
  - inversion Hall as [| p' x rest' xs' Hpx Hrest']; subst.
    assert (Hpt : p < length (promises s0)).
    { destruct Hpx as [Hx _]. now apply lookup_lt_Some in Hx. }
    assert (Hnin : ~ In p done).
    { apply NoDup_app in Hnd. destruct Hnd as (_ & Hd & _).
      intros Hin. apply (Hd p); [now apply list_elem_of_In | now left]. }
    destruct (loop_inv_step _ _ _ _ _ _ _ _ Hinv Hpx Hpt Hnin) as (s1 & Hrun & Hinv1).
    destruct (IH (done ++ [p]) (sts ++ [init_status (p_state x)]) xs' s1)
      as (s' & Hrun' & Hinv'); auto.
    { now rewrite <- app_assoc. }
    exists s'. split.
    + cbn [promise_all_loop].
      apply bind_Some in Hrun. destruct Hrun as (y & sy & Hy & Hrun).
      rewrite (bind_eq _ _ _ _ _ Hy).
      apply bind_Some in Hrun. destruct Hrun as ([] & s2 & H2 & Hrun).
      rewrite (bind_eq _ _ _ _ _ H2).
      apply bind_Some in Hrun. destruct Hrun as (q & s3 & H3 & Hrun).
      rewrite (bind_eq _ _ _ _ _ H3).
      rewrite (bind_eq _ _ _ _ _ Hrun).
      rewrite length_app in Hrun'. simpl in Hrun'.
      rewrite Nat.add_1_r in Hrun'. exact Hrun'.
    + rewrite <- !app_assoc in Hinv'. exact Hinv'.
Qed.

(** [Promise.all(ps)], for distinct promises nobody else listens to, in a
    state with an empty job queue: the heap follows the machine from its
    initial configuration. *)
Lemma promise_all_inv s ps xs :
  NoDup ps ->
  Forall2 (quiet_member s) ps xs ->
  microtasks s = [] ->
  exists s1,
    promise_all ps s = Some (length (promises s), s1) /\
    all_inv (length (cells s)) (length (promises s)) ps (agg_init (map p_state xs)) s1 /\
    operations s1 = operations s /\ links s1 = links s /\ log s1 = log s.
Proof.
  intros Hnd Hall Hq.
  set (t := length (promises s)). set (c := length (cells s)).
  set (sb := State (promises s ++ [fresh_promise]) (operations s) (links s)
                   (cells s ++ [AllCell t [] [] 1]) (microtasks s) (log s)).
  assert (Hinv0 : loop_inv s c t [] [] sb).
  { split; subst sb; cbn [promises operations links cells microtasks log length].
    - reflexivity.
    - constructor.
    - rewrite length_app. simpl. lia.
    - apply lookup_snoc.
    - intros i p st Hp. discriminate.
    - intros i Hi. lia.
    - apply lookup_snoc.
    - now rewrite Hq.
    - intros p Hp _. now rewrite lookup_app_l by exact Hp.
    - auto. }
  destruct (promise_all_loop_inv s c t ps [] [] xs sb Hinv0 Hnd Hall eq_refl)
    as (s' & Hloop & Hinv).
  cbn [app length] in Hloop, Hinv.
  destruct Hinv as [Hlen Hun Hpl Hcell Hmem Hder Htgt Hqueue Hrest (Ho & Hl & Hg)].
  destruct (unprocessed_values _ Hun) as (Hvals & Hcalled & Hopen).
  rewrite Hlen in Hvals, Hcalled, Hopen.
  pose proof (lookup_lt_Some _ _ _ Hcell) as Hltc.
  pose proof (lookup_lt_Some _ _ _ Htgt) as Hltt.
  assert (Hold : forall i p, ps !! i = Some p -> p < t).
  { intros i p Hp. destruct (Forall2_lookup_l _ _ _ _ _ Hall Hp) as (x & _ & Hx & _).
    now apply lookup_lt_Some in Hx. }
  set (sts := map (fun x : promise => init_status (p_state x)) xs) in *.
  assert (Hg0 : agg_init (map p_state xs) = Agg sts (queued_from 0 sts) None).
  { unfold agg_init. now rewrite map_map. }
  assert (Hresult : exists s1,
    promise_all ps s = Some (t, s1) /\
    promises s1 = <[t := target_promise (agg_init (map p_state xs))]> (promises s') /\
    cells s1 = <[c := AllCell t (replicate (length ps) VUndefined)
                                (replicate (length ps) false) (length ps)]> (cells s') /\
    microtasks s1 = microtasks s' /\
    operations s1 = operations s' /\ links s1 = links s' /\ log s1 = log s').
  { unfold promise_all, new_promise. unfold bind at 1. unfold alloc_promise.
    unfold bind at 1. unfold alloc_cell. state_simpl. fold t c sb.
    rewrite (bind_eq _ _ _ _ _ Hloop).
    rewrite (bind_eq _ _ _ _ _ (get_cell_eq _ _ _ Hcell)).
    unfold bind at 1. unfold put_cell. state_simpl.
    cbn [a_target a_values a_called a_remaining Nat.pred].
    unfold target_promise, agg_result. rewrite Hg0. cbn [g_first g_sts].
    rewrite Hopen, Hvals.
    destruct (Nat.eqb_spec (length ps) 0) as [H0 | H0].
    - erewrite bind_eq; cycle 1.
      { eapply resolve_fn_pending; state_simpl; [exact Htgt | reflexivity..]. }
      eexists. split; [reflexivity |]. state_simpl.
      rewrite app_nil_r. repeat split.
    - eexists. split; [reflexivity |]. state_simpl.
      rewrite (list_insert_id (promises s')) by exact Htgt. repeat split. }
  destruct Hresult as (s1 & Hrun & Hp1 & Hc1 & Hq1 & Ho1 & Hl1 & Hg1).
  exists s1. split; [exact Hrun |]. split; [| repeat split; congruence].
  rewrite Hg0. split; cbn [g_sts g_queue g_first].
  - exact Hlen.
  - exact Hnd.
  - exact Hold.
  - rewrite Hc1, Hvals, Hcalled, Hopen. now apply list_lookup_insert_eq.
  - intros i p st Hp Hst. rewrite Hp1.
    rewrite list_lookup_insert_ne by (pose proof (Hold _ _ Hp); lia).
    exact (Hmem _ _ _ Hp Hst).
  - intros i st Hst. rewrite Hp1. rewrite list_lookup_insert_ne by lia.
    rewrite Hder by (rewrite <- Hlen; now apply lookup_lt_Some in Hst).
    pose proof (Forall_lookup_1 _ _ _ _ Hun Hst) as Hu. now destruct st.
  - rewrite Hp1, <- Hg0. now apply list_lookup_insert_eq.
  - now rewrite Hq1.
  - intros i b arg Hin. apply queued_from_In in Hin. destruct Hin as [_ Hin].
    now rewrite Nat.sub_0_r in Hin.
  - apply queued_from_NoDup.
Qed.

(** *** The elements settled before the call *)

Lemma agg_drain rest : forall done fr,
  agg_run (replicate (length (queued_from (length done) rest)) AggTick)
          (Agg (done ++ rest) (queued_from (length done) rest) fr) =
  Some (Agg (done ++ map process rest) [] (fold_left note_rejection rest fr)).
Proof.
  induction rest as [| st rest IH]; intros done fr.
  - reflexivity.
  - assert (Hskip : forall st', process st' = st' -> note_rejection fr st' = fr ->
      queued_from (length done) (st' :: rest) = queued_from (S (length done)) rest ->
      agg_run (replicate (length (queued_from (length done) (st' :: rest))) AggTick)
              (Agg (done ++ st' :: rest) (queued_from (length done) (st' :: rest)) fr) =
      Some (Agg (done ++ map process (st' :: rest)) []
                (fold_left note_rejection (st' :: rest) fr))).
    { intros st' Hp Hn Hq. rewrite Hq. cbn [map fold_left]. rewrite Hp, Hn.
      specialize (IH (done ++ [st']) fr).
      rewrite length_app, Nat.add_1_r, <- !app_assoc in IH. exact IH. }
    destruct st as [| b arg | b arg].
    + apply Hskip; [reflexivity | now destruct fr | reflexivity].
    + cbn [queued_from length replicate agg_run agg_step g_queue g_sts g_first].
      rewrite insert_app_r_alt by lia. rewrite Nat.sub_diag. cbn [insert list_insert].
      specialize (IH (done ++ [SProcessed b arg])
                     (match fr with
                      | Some e => Some e
                      | None => if b then None else Some arg
                      end)).
      rewrite length_app, Nat.add_1_r, <- !app_assoc in IH. cbn [app] in IH.
      rewrite IH. cbn [map process fold_left].
      destruct fr, b; reflexivity.
    + apply Hskip; [reflexivity | now destruct fr | reflexivity].
Qed.

Lemma fold_note_rejection_Some rest e :
  fold_left note_rejection rest (Some e) = Some e.
Proof. induction rest as [| st rest IH]; simpl; auto. Qed.

Lemma fold_note_rejection xs :
  fold_left note_rejection (map init_status xs) None = first_rejection xs.
Proof.
  induction xs as [| x xs IH]; [reflexivity |].
  destruct x as [| v | e]; simpl; auto. apply fold_note_rejection_Some.
Qed.

Lemma processed_open xs :
  (open_count (map process (map init_status xs)) = 0 <->
   exists vs, fulfilled_values xs = Some vs) /\
  (forall vs, fulfilled_values xs = Some vs ->
     map value_of (map process (map init_status xs)) = vs).
Proof.
  unfold open_count.
  induction xs as [| x xs (IH1 & IH2)]; simpl.
  - split; [split; eauto | now intros vs [= <-]].
  - destruct x as [| v | e]; simpl.
    + split; [split; [lia | now intros [vs Hvs]] | discriminate].
    + destruct (fulfilled_values xs) as [vs |].
      * split.
        -- split; [eauto | intros _; apply IH1; eauto].
        -- intros vs' [= <-]. f_equal. now apply IH2.
      * split; [| discriminate]. split.
        -- intros H. apply IH1 in H. destruct H as [vs H]. discriminate.
        -- intros [vs H]. discriminate.
    + split; [split; [lia | now intros [vs Hvs]] | discriminate].
Qed.

(** The machine from its initial configuration, all scheduled jobs run. *)
Lemma agg_settled xs :
  exists g,
    agg_run (replicate (settled_count xs) AggTick) (agg_init xs) = Some g /\
    g_queue g = [] /\
    agg_result g = settled_result xs.
Proof.
  pose proof (agg_drain (map init_status xs) [] None) as H.
  cbn [app length] in H.
  eexists. split; [exact H |]. split; [reflexivity |].
  unfold agg_result, settled_result. cbn [g_first g_sts].
  rewrite fold_note_rejection.
  destruct (first_rejection xs); [reflexivity |].
  destruct (processed_open xs) as [Hopen Hvals].
  destruct (fulfilled_values xs) as [vs |].
  - destruct Hopen as [_ Hopen]. rewrite Hopen by eauto. simpl.
    now rewrite (Hvals vs eq_refl).
  - destruct (Nat.eqb_spec (open_count (map process (map init_status xs))) 0) as [H0 | H0];
      [| reflexivity].
    apply Hopen in H0. destruct H0 as [vs H0]. discriminate.
Qed.

(** Ticks of the machine are turns of the job queue. *)
Lemma agg_ticks_run_microtasks ps n : forall s s',
  agg_perform_all ps (replicate n AggTick) s = Some (tt, s') ->
  microtasks s' = [] ->
  run_microtasks n s = Some (tt, s').
Proof.
  induction n as [| n IH]; intros s s' Hrun Hq; simpl in Hrun.
  - injection Hrun as <-. simpl. now rewrite Hq.
  - apply bind_Some in Hrun. destruct Hrun as ([] & s1 & H1 & Hrun).
    simpl. destruct (microtasks s) eqn:Es.
    + unfold tick in H1. rewrite Es in H1. discriminate.
    + rewrite (bind_eq _ _ _ _ _ H1). now apply IH.
Qed.

(** *** [all(operations)] *)

Lemma mapM_op_promise s ops members :
  Forall2 (fun o m => operations s !! o = Some m) ops members ->
  mapM (fun o => op <- get_operation o ;; ret (op_promise op)) ops s
  = Some (map op_promise members, s).
Proof.
  induction 1 as [| o m ops members Ho _ IH]; [reflexivity |].
  cbn [mapM map].
  erewrite bind_eq; cycle 1.
  { rewrite (bind_eq _ _ _ _ _ (get_operation_eq _ _ _ Ho)). reflexivity. }
  now rewrite (bind_eq _ _ _ _ _ IH).
Qed.

(** [all(ops)] on distinct operations with distinct promises nobody else
    listens to: the new operation has the aggregate promise of the members'
    promises, and the heap follows the machine. *)
Lemma all_inv_all s ops members xs :
  Forall2 (fun o m => operations s !! o = Some m) ops members ->
  NoDup (map op_promise members) ->
  Forall2 (quiet_member s) (map op_promise members) xs ->
  microtasks s = [] ->
  exists s1,
    all ops s = Some (length (operations s), s1) /\
    operations s1 =
      operations s ++ [Operation (length (promises s)) (AAll ops) None] /\
    all_inv (length (cells s)) (length (promises s)) (map op_promise members)
            (agg_init (map p_state xs)) s1 /\
    links s1 = links s /\ log s1 = log s.
Proof.
  intros Hops Hnd Hall Hq.
  destruct (promise_all_inv s _ xs Hnd Hall Hq) as (s1 & Hrun & Hinv & Ho & Hl & Hg).
  eexists. split.
  { unfold all. rewrite (bind_eq _ _ _ _ _ (mapM_op_promise _ _ _ Hops)).
    rewrite (bind_eq _ _ _ _ _ Hrun). unfold new, alloc_operation.
    rewrite Ho. reflexivity. }
  state_simpl. rewrite Ho. split; [reflexivity |].
  split; [| auto]. eapply all_inv_ext; [| | | exact Hinv]; reflexivity.
Qed.

(** The result of [all(ops)]: what the machine computes. *)
Lemma all_result_spec s ops members xs :
  Forall2 (fun o m => operations s !! o = Some m) ops members ->
  NoDup (map op_promise members) ->
  Forall2 (quiet_member s) (map op_promise members) xs ->
  microtasks s = [] ->
  exists o s1,
    all ops s = Some (o, s1) /\
    operations s1 !! o = Some (Operation (length (promises s)) (AAll ops) None) /\
    (exists s2,
       run_microtasks (settled_count (map p_state xs)) s1 = Some (tt, s2) /\
       microtasks s2 = [] /\
       result_state s2 o = Some (settled_result (map p_state xs))) /\
    (forall evs g,
       agg_run evs (agg_init (map p_state xs)) = Some g ->
       exists s2,
         agg_perform_all (map op_promise members) evs s1 = Some (tt, s2) /\
         result_state s2 o = Some (agg_result g)).
Proof.
  intros Hops Hnd Hall Hq.
  destruct (all_inv_all s ops members xs Hops Hnd Hall Hq)
    as (s1 & Hrun & Ho1 & Hinv & _).
  exists (length (operations s)), s1. split; [exact Hrun |].
  assert (Hop : operations s1 !! length (operations s)
                = Some (Operation (length (promises s)) (AAll ops) None)).
  { rewrite Ho1. apply lookup_snoc. }
  split; [exact Hop |].
  assert (Hsim : forall evs g,
    agg_run evs (agg_init (map p_state xs)) = Some g ->
    exists s2,
      agg_perform_all (map op_promise members) evs s1 = Some (tt, s2) /\
      result_state s2 (length (operations s)) = Some (agg_result g) /\
      microtasks s2 = map (member_job (length (cells s)) (length (promises s)))
                          (g_queue g)).
  { intros evs g Hg.
    destruct (all_inv_run _ _ _ _ _ _ _ Hinv Hg) as (s2 & Hrun2 & Hinv2 & Ho2 & _).
    exists s2. split; [exact Hrun2 |]. split.
    - unfold result_state. rewrite Ho2, Hop. cbn [op_promise].
      eapply all_inv_result; eauto.
    - apply (ai_queue _ _ _ _ _ Hinv2). }
  split.
  - destruct (agg_settled (map p_state xs)) as (g & Hg & Hgq & Hres).
    destruct (Hsim _ _ Hg) as (s2 & Hrun2 & Hres2 & Hq2).
    rewrite Hgq in Hq2. exists s2. split; [| split; [exact Hq2 | congruence]].
    eapply agg_ticks_run_microtasks; eauto.
  - intros evs g Hg. destruct (Hsim _ _ Hg) as (s2 & Hrun2 & Hres2 & _). eauto.
Qed.

(** [abort()] on each of distinct operations built by the caller and not
    aborted: every callback is called, in order, and its promise is cached. *)
Lemma mapM_abort_external fuel ops : forall rs s,
  NoDup ops ->
  Forall2 (fun o r => exists p, operations s !! o = Some (Operation p (AExternal r) None))
          ops rs ->
  exists s',
    mapM (abort (S fuel)) ops s = Some (rs, s') /\
    promises s' = promises s /\ cells s' = cells s /\
    microtasks s' = microtasks s /\ links s' = links s /\
    log s' = log s ++ map EvOnAbort ops /\
    (forall o, ~ In o ops -> operations s' !! o = operations s !! o) /\
    Forall2 (fun o r => exists p,
               operations s' !! o = Some (Operation p (AExternal r) (Some r))) ops rs.
Proof.
  induction ops as [| o ops IH]; intros rs s Hnd Hall.
  - inversion Hall; subst. exists s. cbn [mapM map]. rewrite app_nil_r.
    repeat split; auto.
  - inversion Hall as [| o' r ops' rs' (p & Ho) Hrest]; subst.
    apply NoDup_cons in Hnd. destruct Hnd as [Hnin Hnd].
    assert (Hnin' : ~ In o ops) by (now rewrite <- list_elem_of_In).
    pose proof (lookup_lt_Some _ _ _ Ho) as Hlt.
    set (s1 := State (promises s)
                     (<[o := Operation p (AExternal r) (Some r)]> (operations s))
                     (links s) (cells s) (microtasks s) (log s ++ [EvOnAbort o])).
    assert (Hab : abort (S fuel) o s = Some (r, s1)).
    { erewrite abort_run; cycle 1;
        [exact Ho | reflexivity | reflexivity | state_simpl; exact Ho | reflexivity]. }
    destruct (IH rs' s1 Hnd) as (s' & Hrun & Hp & Hc & Hq & Hl & Hg & Hother & Hset).
    { apply Forall2_same_length_lookup in Hrest. destruct Hrest as [Hlen Hrest].
      apply Forall2_same_length_lookup. split; [exact Hlen |].
      intros i o2 r2 Hi2 Hr2. destruct (Hrest _ _ _ Hi2 Hr2) as (p2 & Ho2).
      exists p2. subst s1. state_simpl.
      rewrite list_lookup_insert_ne; [exact Ho2 |].
      intros ->. apply Hnin. eapply list_elem_of_lookup_2; eauto. }
    exists s'. split.
    { cbn [mapM]. rewrite (bind_eq _ _ _ _ _ Hab).
      now rewrite (bind_eq _ _ _ _ _ Hrun). }
    split; [exact Hp |]. split; [exact Hc |]. split; [exact Hq |].
    split; [exact Hl |]. split.
    { rewrite Hg. subst s1. state_simpl. now rewrite <- app_assoc. }
    split.
    { intros o2 Hnin2. rewrite Hother by (intros Hin; apply Hnin2; now right).
      subst s1. state_simpl. apply list_lookup_insert_ne.
      intros ->. apply Hnin2. now left. }
    constructor; [| exact Hset].
    exists p. rewrite (Hother _ Hnin'). subst s1. state_simpl.
    now apply list_lookup_insert_eq.
Qed.

(** [all(ops).abort()]: every member is aborted, and the promise returned is
    the aggregate of the promises their callbacks returned. *)
Lemma all_abort_spec s o t ops rs xs fuel :
  operations s !! o = Some (Operation t (AAll ops) None) ->
  NoDup ops ->
  Forall2 (fun m r => exists p, operations s !! m = Some (Operation p (AExternal r) None))
          ops rs ->
  NoDup rs ->
  Forall2 (quiet_member s) rs xs ->
  microtasks s = [] ->
  exists q s3,
    abort (S (S fuel)) o s = Some (q, s3) /\
    log s3 = log s ++ EvOnAbort o :: map EvOnAbort ops /\
    Forall2 (fun m r => exists p,
               operations s3 !! m = Some (Operation p (AExternal r) (Some r))) ops rs /\
    operations s3 !! o = Some (Operation t (AAll ops) (Some q)) /\
    (exists s4,
       run_microtasks (settled_count (map p_state xs)) s3 = Some (tt, s4) /\
       microtasks s4 = [] /\
       promise_state s4 q = Some (settled_result (map p_state xs))) /\
    (forall evs g,
       agg_run evs (agg_init (map p_state xs)) = Some g ->
       exists s4,
         agg_perform_all rs evs s3 = Some (tt, s4) /\
         promise_state s4 q = Some (agg_result g)).
Proof.
  intros Ho Hnd Hmem Hndr Hquiet Hq.
  pose proof (lookup_lt_Some _ _ _ Ho) as Hlto.
  assert (Hnin : ~ In o ops).
  { intros Hin. apply list_elem_of_In, list_elem_of_lookup in Hin. destruct Hin as [i Hi].
    destruct (Forall2_lookup_l _ _ _ _ _ Hmem Hi) as (r & _ & p & Hp).
    rewrite Ho in Hp. discriminate. }
  set (s0 := State (promises s) (operations s) (links s) (cells s) (microtasks s)
                   (log s ++ [EvOnAbort o])).
  destruct (mapM_abort_external fuel ops rs s0 Hnd Hmem)
    as (s1 & Hrun1 & Hp1 & Hc1 & Hq1 & Hl1 & Hg1 & Hother & Hset).
  assert (Hquiet1 : Forall2 (quiet_member s1) rs xs).
  { eapply Forall2_impl; [exact Hquiet |]. intros r x [Hx Hqx].
    split; [now rewrite Hp1 | exact Hqx]. }
  destruct (promise_all_inv s1 rs xs Hndr Hquiet1) as (s2 & Hrun2 & Hinv & Ho2 & Hl2 & Hg2).
  { now rewrite Hq1. }
  assert (Ho' : operations s2 !! o = Some (Operation t (AAll ops) None)).
  { rewrite Ho2, (Hother _ Hnin). exact Ho. }
  set (q := length (promises s1)) in *.
  set (s3 := State (promises s2)
                   (<[o := Operation t (AAll ops) (Some q)]> (operations s2))
                   (links s2) (cells s2) (microtasks s2) (log s2)).
  assert (Hab : abort (S (S fuel)) o s = Some (q, s3)).
  { erewrite abort_run; cycle 1.
    - exact Ho.
    - reflexivity.
    - cbn [onAbort_ call_onAbort]. fold s0.
      rewrite (bind_eq _ _ _ _ _ Hrun1). exact Hrun2.
    - exact Ho'.
    - reflexivity. }
  assert (Hinv3 : all_inv (length (cells s1)) q rs (agg_init (map p_state xs)) s3).
  { eapply all_inv_ext; [| | | exact Hinv]; reflexivity. }
  exists q, s3. split; [exact Hab |].
  split.
  { subst s3. state_simpl. rewrite Hg2, Hg1. subst s0. state_simpl.
    now rewrite <- app_assoc. }
  split.
  { apply Forall2_same_length_lookup in Hset. destruct Hset as [Hlen Hset].
    apply Forall2_same_length_lookup. split; [exact Hlen |].
    intros i m r Hm Hr. destruct (Hset _ _ _ Hm Hr) as (p & Hp). exists p.
    subst s3. state_simpl. rewrite list_lookup_insert_ne.
    - now rewrite Ho2.
    - intros ->. apply Hnin. apply list_elem_of_In. eapply list_elem_of_lookup_2; eauto. }
  split.
  { subst s3. state_simpl. apply list_lookup_insert_eq.
    now apply lookup_lt_Some in Ho'. }
  assert (Hsim : forall evs g,
    agg_run evs (agg_init (map p_state xs)) = Some g ->
    exists s4,
      agg_perform_all rs evs s3 = Some (tt, s4) /\
      promise_state s4 q = Some (agg_result g) /\
      microtasks s4 = map (member_job (length (cells s1)) q) (g_queue g)).
  { intros evs g Hg.
    destruct (all_inv_run _ _ _ _ _ _ _ Hinv3 Hg) as (s4 & Hrun4 & Hinv4 & _).
    exists s4. split; [exact Hrun4 |]. split.
    - eapply all_inv_result; eauto.
    - apply (ai_queue _ _ _ _ _ Hinv4). }
  split.
  - destruct (agg_settled (map p_state xs)) as (g & Hg & Hgq & Hres).
    destruct (Hsim _ _ Hg) as (s4 & Hrun4 & Hres4 & Hq4).
    rewrite Hgq in Hq4. exists s4. split; [| split; [exact Hq4 | congruence]].
    eapply agg_ticks_run_microtasks; eauto.
  - intros evs g Hg. destruct (Hsim _ _ Hg) as (s4 & Hrun4 & Hres4 & _). eauto.
Qed.

(** C4.  Let [ops] be operations of the heap whose promises are distinct
    and, when pending, unresolved with nobody listening, the job queue being
    empty.  Then [all(ops)] returns a new operation [o] such that
    - when the jobs of the members settled before the call have run, the
      result of [o] is rejected with the reason of the first rejected member,
      else fulfilled with the list of the members' values in the order of
      [ops] if every member was fulfilled, else pending ([settled_result]);
    - as members are settled later and jobs run, in any order, the result of
      [o] is what the machine [agg_run] computes: rejected with the reason of
      the first rejection whose job runs, else fulfilled with the values in
      the order of [ops] once the job of every member has run, else pending
      ([agg_result]);
    - in any state where [o] is not aborted, the members are distinct
      operations built by the caller and not aborted, and the promises [rs]
      their callbacks return are distinct and as above: [o.abort()] calls
      the callback of every member, in order, once, caches the promise of
      each, and returns the aggregate of [rs], which is fulfilled once every
      promise of [rs] is (same machine). *)
Theorem C4_all_settles_and_aborts_together (s : state) (ops : list oid)
    (members : list operation) (xs : list promise) :
  Forall2 (fun o m => operations s !! o = Some m) ops members ->
  NoDup (map op_promise members) ->
  Forall2 (quiet_member s) (map op_promise members) xs ->
  microtasks s = [] ->
  exists o s1,
    all ops s = Some (o, s1) /\
    operations s1 !! o = Some (Operation (length (promises s)) (AAll ops) None) /\
    (exists s2,
       run_microtasks (settled_count (map p_state xs)) s1 = Some (tt, s2) /\
       microtasks s2 = [] /\
       result_state s2 o = Some (settled_result (map p_state xs))) /\
    (forall evs g,
       agg_run evs (agg_init (map p_state xs)) = Some g ->
       exists s2,
         agg_perform_all (map op_promise members) evs s1 = Some (tt, s2) /\
         result_state s2 o = Some (agg_result g)) /\
    (forall sa t rs ys fuel,
       operations sa !! o = Some (Operation t (AAll ops) None) ->
       NoDup ops ->
       Forall2 (fun m r => exists p,
                  operations sa !! m = Some (Operation p (AExternal r) None)) ops rs ->
       NoDup rs ->
       Forall2 (quiet_member sa) rs ys ->
       microtasks sa = [] ->
       exists q s3,
         abort (S (S fuel)) o sa = Some (q, s3) /\
         log s3 = log sa ++ EvOnAbort o :: map EvOnAbort ops /\
         Forall2 (fun m r => exists p,
                    operations s3 !! m = Some (Operation p (AExternal r) (Some r)))
                 ops rs /\
         operations s3 !! o = Some (Operation t (AAll ops) (Some q)) /\
         (exists s4,
            run_microtasks (settled_count (map p_state ys)) s3 = Some (tt, s4) /\
            microtasks s4 = [] /\
            promise_state s4 q = Some (settled_result (map p_state ys))) /\
         (forall evs g,
            agg_run evs (agg_init (map p_state ys)) = Some g ->
            exists s4,
              agg_perform_all rs evs s3 = Some (tt, s4) /\
              promise_state s4 q = Some (agg_result g))).
Proof.
  intros Hops Hnd Hall Hq.
  destruct (all_result_spec s ops members xs Hops Hnd Hall Hq)
    as (o & s1 & Hrun & Hop & Hsettled & Hsim).
  exists o, s1. split; [exact Hrun |]. split; [exact Hop |].
  split; [exact Hsettled |]. split; [exact Hsim |].
  intros sa t rs ys fuel. apply all_abort_spec.
Qed.

Lemma C4_all_settles_and_aborts_together_witness :
  exists o s1,
    all [0; 1] (pair_state (VString "err")) = Some (o, s1) /\
    operations s1 !! o = Some (Operation 2 (AAll [0; 1]) None) /\
    (exists s2,
       run_microtasks 2 s1 = Some (tt, s2) /\
       microtasks s2 = [] /\
       result_state s2 o = Some (Rejected (VString "err"))) /\
    (forall evs g,
       agg_run evs (agg_init [Fulfilled (VNumber 1); Rejected (VString "err")]) = Some g ->
       exists s2,
         agg_perform_all [0; 1] evs s1 = Some (tt, s2) /\
         result_state s2 o = Some (agg_result g)).
Proof.
  destruct (C4_all_settles_and_aborts_together (pair_state (VString "err")) [0; 1]
              [Operation 0 AResolved None; Operation 1 AResolved None]
              [Promise (Fulfilled (VNumber 1)) [] true false;
               Promise (Rejected (VString "err")) [] true false])
    as (o & s1 & H1 & H2 & H3 & H4 & _).
  - repeat constructor.
  - apply NoDup_cons. split; [| apply NoDup_singleton].
    intros H%list_elem_of_singleton. discriminate.
  - repeat constructor; discriminate.
  - reflexivity.
  - exists o, s1. repeat split; assumption.
Defined.

(** The run of the test: [all([completed(1), failed(err)])], then every job
    runs: the result is rejected with [err]. *)
Example all_rejects_run :
  observe
    (a <- completed (VNumber 1) ;;
     b <- failed (VString "err") ;;
     o <- all [a; b] ;;
     run_microtasks 2 ;;;
     ret o)
    empty_state
    (fun o s' => (result_state s' o, microtasks s'))
  = Some (Some (Rejected (VString "err")), []).
Proof. vm_compute. reflexivity. Qed.

(** [all] of three pending members that succeed in another order than that
    of the list: the values come in the order of the list. *)
Example all_fulfils_in_order_run :
  observe
    (p0 <- new_promise ;; p1 <- new_promise ;; p2 <- new_promise ;;
     a <- new p0 AResolved ;; b <- new p1 AResolved ;; c <- new p2 AResolved ;;
     o <- all [a; b; c] ;;
     resolve_fn p2 (VString "c") ;;; run_microtasks 1 ;;;
     resolve_fn p0 (VString "a") ;;; run_microtasks 1 ;;;
     r <- (fun s => Some (result_state s o, s)) ;;
     resolve_fn p1 (VString "b") ;;; run_microtasks 1 ;;;
     ret (o, r))
    empty_state
    (fun '(o, r) s' => (r, result_state s' o))
  = Some (Some Pending,
          Some (Fulfilled (VArray [VString "a"; VString "b"; VString "c"]))).
Proof. vm_compute. reflexivity. Qed.

(** [all(ops).abort()] with two members built by the caller: both callbacks
    are called, and the promise returned is fulfilled when both cleanup
    promises are. *)
Example all_abort_run :
  observe
    (p0 <- new_promise ;; p1 <- new_promise ;;
     r0 <- new_promise ;; r1 <- new_promise ;;
     a <- new p0 (AExternal r0) ;; b <- new p1 (AExternal r1) ;;
     o <- all [a; b] ;;
     q <- abort 2 o ;;
     resolve_fn r1 VUndefined ;;; run_microtasks 1 ;;;
     x <- (fun s => Some (promise_state s q, s)) ;;
     resolve_fn r0 VUndefined ;;; run_microtasks 1 ;;;
     ret (o, q, x))
    empty_state
    (fun '(o, q, x) s' => (x, promise_state s' q, log s'))
  = Some (Some Pending, Some (Fulfilled (VArray [VUndefined; VUndefined])),
          [EvOnAbort 2; EvOnAbort 0; EvOnAbort 1]).
Proof. vm_compute. reflexivity. Qed.

(** The same operation given twice: its value comes twice. *)
Example all_duplicate_member_run :
  observe
    (p <- new_promise ;;
     a <- new p AResolved ;;
     o <- all [a; a] ;;
     resolve_fn p (VString "a") ;;; run_microtasks 2 ;;;
     ret o)
    empty_state
    (fun o s' => (result_state s' o, microtasks s'))
  = Some (Some (Fulfilled (VArray [VString "a"; VString "a"])), []).
Proof. vm_compute. reflexivity. Qed.

(** [all] of two chained operations, the second upstream operation settling
    first: the values of the continuations come in the order of the list,
    and [abort()] on the aggregate afterwards reaches neither callback of
    the upstream operations. *)
Example all_of_chains_run :
  observe
    (p0 <- new_promise ;; p1 <- new_promise ;;
     r0 <- new_promise ;; r1 <- new_promise ;;
     a0 <- new p0 (AExternal r0) ;; a1 <- new p1 (AExternal r1) ;;
     b0 <- chain a0 (Some double) None ;;
     b1 <- chain a1 (Some double) None ;;
     o <- all [b0; b1] ;;
     resolve_fn p1 (VNumber 10) ;;; run_microtasks 8 ;;;
     x <- (fun s => Some (result_state s o, s)) ;;
     resolve_fn p0 (VNumber 1) ;;; run_microtasks 8 ;;;
     abort 4 o ;;;
     ret (a0, a1, o, x))
    empty_state
    (fun '(a0, a1, o, x) s' =>
       (x, result_state s' o, onAbort_calls s' a0, onAbort_calls s' a1))
  = Some (Some Pending, Some (Fulfilled (VArray [VNumber 2; VNumber 20])), 0, 0).
Proof. vm_compute. reflexivity. Qed.

(** [all] of two chained operations aborted before anything settles: the
    abort reaches the callback of each upstream operation once, and the
    result of the aggregate is the abort error once the jobs have run. *)
Example all_of_chains_abort_run :
  observe
    (p0 <- new_promise ;; p1 <- new_promise ;;
     r0 <- new_promise ;; r1 <- new_promise ;;
     a0 <- new p0 (AExternal r0) ;; a1 <- new p1 (AExternal r1) ;;
     b0 <- chain a0 (Some double) None ;;
     b1 <- chain a1 (Some double) None ;;
     o <- all [b0; b1] ;;
     abort 4 o ;;; abort 4 o ;;;
     run_microtasks 8 ;;;
     ret (a0, a1, o))
    empty_state
    (fun '(a0, a1, o) s' =>
       (result_state s' o, onAbort_calls s' a0, onAbort_calls s' a1, onAbort_calls s' o))
  = Some (Some (Rejected abortError), 1, 1, 1).
Proof. vm_compute. reflexivity. Qed.

(** * Further properties of the code *)

(** ** Frames *)

(** A call of [resolve] or [reject] on a promise of the heap returns, and
    touches nothing but that promise and the job queue. *)
Lemma settle_promise_frame s p x b arg :
  promises s !! p = Some x ->
  exists s',
    settle_promise p b arg s = Some (tt, s') /\
    operations s' = operations s /\ links s' = links s /\ cells s' = cells s /\
    log s' = log s /\
    (forall q, q <> p -> promises s' !! q = promises s !! q).
Proof.
  intros Hp. unfold settle_promise.
  rewrite (bind_eq _ _ _ _ _ (get_promise_eq _ _ _ Hp)).
  destruct (p_state x); unfold bind; state_simpl; eexists; (split; [reflexivity |]);
    state_simpl; repeat split; auto;
    intros q Hq; now rewrite list_lookup_insert_ne.
Qed.

Lemma reject_fn_frame s p x e :
  promises s !! p = Some x ->
  exists s',
    reject_fn p e s = Some (tt, s') /\
    operations s' = operations s /\ links s' = links s /\ cells s' = cells s /\
    log s' = log s /\
    (forall q, q <> p -> promises s' !! q = promises s !! q).
Proof.
  intros Hp. unfold reject_fn.
  rewrite (bind_eq _ _ _ _ _ (get_promise_eq _ _ _ Hp)).
  destruct (p_resolved x).
  - exists s. repeat split; auto.
  - unfold bind at 1. unfold put_promise.
    destruct (settle_promise_frame
                (set_promises (fun l => <[p := Promise (p_state x) (p_reactions x) true
                                                    (p_handled x)]> l) s)
                p (Promise (p_state x) (p_reactions x) true (p_handled x)) false e)
      as (s' & H & Ho & Hl & Hc & Hg & Hq).
    { state_simpl. apply list_lookup_insert_eq. now apply lookup_lt_Some in Hp. }
    exists s'. split; [exact H |]. revert Ho Hl Hc Hg Hq. state_simpl.
    intros Ho Hl Hc Hg Hq. repeat split; auto.
    intros q Hne. rewrite (Hq q Hne). now apply list_lookup_insert_ne.
Qed.

Lemma resolve_fn_frame s p x v :
  promises s !! p = Some x ->
  exists s',
    resolve_fn p v s = Some (tt, s') /\
    operations s' = operations s /\ links s' = links s /\ cells s' = cells s /\
    log s' = log s /\
    (forall q, q <> p -> promises s' !! q = promises s !! q).
Proof.
  intros Hp. unfold resolve_fn.
  rewrite (bind_eq _ _ _ _ _ (get_promise_eq _ _ _ Hp)).
  destruct (p_resolved x).
  - exists s. repeat split; auto.
  - unfold bind at 1. unfold put_promise.
    set (s0 := set_promises _ s).
    assert (Hp0 : promises s0 !! p = Some (Promise (p_state x) (p_reactions x) true
                                                  (p_handled x))).
    { subst s0. state_simpl. apply list_lookup_insert_eq. now apply lookup_lt_Some in Hp. }
    assert (Hsame : operations s0 = operations s /\ links s0 = links s /\
                    cells s0 = cells s /\ log s0 = log s /\
                    forall q, q <> p -> promises s0 !! q = promises s !! q).
    { subst s0. state_simpl. repeat split; auto.
      intros q Hq. now apply list_lookup_insert_ne. }
    destruct Hsame as (Ho0 & Hl0 & Hc0 & Hg0 & Hq0).
    assert (Hsettle : forall b arg, exists s',
      settle_promise p b arg s0 = Some (tt, s') /\
      operations s' = operations s /\ links s' = links s /\ cells s' = cells s /\
      log s' = log s /\
      (forall q, q <> p -> promises s' !! q = promises s !! q)).
    { intros b arg.
      destruct (settle_promise_frame s0 p _ b arg Hp0) as (s' & H & Ho & Hl & Hc & Hg & Hq).
      exists s'. split; [exact H |]. repeat split; try congruence.
      intros q Hne. rewrite (Hq q Hne). now apply Hq0. }
    unfold resolve_core. destruct v; try apply Hsettle.
    destruct (Nat.eqb p0 p); [apply Hsettle |].
    eexists. split; [reflexivity |]. state_simpl. repeat split; auto.
Qed.

(** One turn of the job queue. *)
Lemma tick_eq s j q :
  microtasks s = j :: q ->
  tick s = run_job j (State (promises s) (operations s) (links s) (cells s) q (log s)).
Proof. intros H. unfold tick. rewrite H. reflexivity. Qed.

(** The job of a reaction of [finally]: [onFinal] is called with the flag,
    and what it returns or throws goes to the derived promise only. *)
Lemma finally_job_run s onFinal flag b d y arg :
  promises s !! d = Some y ->
  exists s',
    run_job (JReaction (Some (HFinally onFinal flag)) b d arg) s = Some (tt, s') /\
    operations s' = operations s /\
    log s' = log s ++ [EvFinal flag] /\
    (forall q, q <> d -> promises s' !! q = promises s !! q).
Proof.
  intros Hd. cbn [run_job run_handler].
  set (s0 := State (promises s) (operations s) (links s) (cells s) (microtasks s)
                   (log s ++ [EvFinal flag])).
  assert (Hh : (emit (EvFinal flag) ;;; ret (onFinal flag)) s = Some (onFinal flag, s0)).
  { reflexivity. }
  rewrite (bind_eq _ _ _ _ _ Hh).
  destruct (onFinal flag) as [r | e].
  - destruct (resolve_fn_frame s0 d y r Hd) as (s' & H & Ho & _ & _ & Hg & Hq).
    exists s'. split; [exact H |]. split; [exact Ho |]. split; [exact Hg |]. exact Hq.
  - destruct (reject_fn_frame s0 d y e Hd) as (s' & H & Ho & _ & _ & Hg & Hq).
    exists s'. split; [exact H |]. split; [exact Ho |]. split; [exact Hg |]. exact Hq.
Qed.

(** X1.  [o.finally(onFinal)] returns [o] itself and changes no operation.
    With the promise of [o] settled already, or pending (unresolved, nobody
    else listening) and settled afterwards, the job of the registration
    calls [onFinal] once, with [true] after a success and [false] after a
    failure, and the result of [o] is the outcome of its promise whatever
    [onFinal] returns or throws. *)
Theorem X1_finally_reports_outcome (s : state) (o : oid) (x : operation) (y : promise)
    (onFinal : bool -> outcome) :
  operations s !! o = Some x ->
  promises s !! op_promise x = Some y ->
  microtasks s = [] ->
  (p_state y = Pending -> p_resolved y = false /\ p_reactions y = []) ->
  exists s1,
    finally o onFinal s = Some (o, s1) /\
    operations s1 = operations s /\ log s1 = log s /\
    match p_state y with
    | Pending =>
        microtasks s1 = [] /\
        forall (b : bool) arg, (b = true -> thenable arg = false) ->
          exists s2,
            ((if b then resolve_fn (op_promise x) arg else reject_fn (op_promise x) arg) ;;;
             tick) s1 = Some (tt, s2) /\
            log s2 = log s ++ [EvFinal b] /\
            result_state s2 o = Some (if b then Fulfilled arg else Rejected arg)
    | st =>
        exists s2,
          tick s1 = Some (tt, s2) /\
          log s2 = log s ++ [EvFinal (succeeded st)] /\
          result_state s2 o = Some st
    end.
Proof.
  intros Ho Hp Hq Hpend.
  pose proof (lookup_lt_Some _ _ _ Hp) as Hlt.
  set (p := op_promise x) in *.
  eexists. split.
  { unfold finally. rewrite (bind_eq _ _ _ _ _ (get_operation_eq _ _ _ Ho)).
    fold p. erewrite bind_eq; [| apply then__eq; exact Hp]. reflexivity. }
  state_simpl. split; [reflexivity |]. split; [reflexivity |].
  rewrite Hq. cbn [app].
  assert (Hjob : forall (ps : list promise) flag b arg st,
    length ps = length (promises s) ->
    p_state st <> Pending ->
    exists s2,
      run_job (JReaction (Some (HFinally onFinal flag)) b (length (promises s)) arg)
        (State (<[p := st]> ps ++ [fresh_promise]) (operations s) (links s) (cells s) []
               (log s)) = Some (tt, s2) /\
      log s2 = log s ++ [EvFinal flag] /\
      result_state s2 o = Some (p_state st)).
  { intros ps flag b arg st Hlen Hst.
    edestruct (finally_job_run
                 (State (<[p := st]> ps ++ [fresh_promise]) (operations s) (links s)
                        (cells s) [] (log s)) onFinal flag b (length (promises s)))
      as (s2 & H & Ho2 & Hg2 & Hq2).
    { state_simpl. apply lookup_snoc_eq. now rewrite length_insert. }
    exists s2. split; [exact H |]. split; [exact Hg2 |].
    unfold result_state, promise_state. rewrite Ho2. state_simpl. rewrite Ho. fold p.
    rewrite Hq2 by lia. state_simpl.
    rewrite lookup_app_l by (rewrite length_insert; lia).
    rewrite list_lookup_insert_eq by lia. reflexivity. }
  destruct (p_state y) as [| v | e] eqn:Es.
  - destruct (Hpend eq_refl) as [Hr Hrs]. rewrite Hrs. cbn [app].
    split; [reflexivity |].
    intros b arg Hv.
    assert (Hsettle :
      (if b then resolve_fn p arg else reject_fn p arg)
        (State (<[p := Promise Pending
                         [Reaction (Some (HFinally onFinal true))
                                   (Some (HFinally onFinal false)) (length (promises s))]
                         (p_resolved y) true]> (promises s) ++ [fresh_promise])
               (operations s) (links s) (cells s) [] (log s)) =
      Some (tt, State (<[p := Promise (if b then Fulfilled arg else Rejected arg) [] true
                                      true]> (promises s) ++ [fresh_promise])
                      (operations s) (links s) (cells s)
                      [JReaction (Some (HFinally onFinal b)) b (length (promises s)) arg]
                      (log s))).
    { destruct b.
      - erewrite resolve_fn_pending; state_simpl; cycle 1.
        + apply lookup_app_l_Some. apply list_lookup_insert_eq. exact Hlt.
        + exact Hr.
        + reflexivity.
        + now apply Hv.
        + rewrite insert_app_l by (now rewrite length_insert).
          rewrite list_insert_insert_eq. reflexivity.
      - erewrite reject_fn_pending; state_simpl; cycle 1.
        + apply lookup_app_l_Some. apply list_lookup_insert_eq. exact Hlt.
        + exact Hr.
        + reflexivity.
        + rewrite insert_app_l by (now rewrite length_insert).
          rewrite list_insert_insert_eq. reflexivity. }
    destruct (Hjob (promises s) b b arg
                (Promise (if b then Fulfilled arg else Rejected arg) [] true true) eq_refl)
      as (s2 & H & Hg2 & Hres).
    { destruct b; discriminate. }
    exists s2. split.
    { rewrite (bind_eq _ _ _ _ _ Hsettle). erewrite tick_eq by reflexivity. exact H. }
    split; [exact Hg2 | exact Hres].
  - destruct (Hjob (promises s) true true v
                (Promise (Fulfilled v) (p_reactions y) (p_resolved y) true) eq_refl)
      as (s2 & H & Hg2 & Hres); [discriminate |].
    exists s2. split; [erewrite tick_eq by reflexivity; exact H |]. split; assumption.
  - destruct (Hjob (promises s) false false e
                (Promise (Rejected e) (p_reactions y) (p_resolved y) true) eq_refl)
      as (s2 & H & Hg2 & Hres); [discriminate |].
    exists s2. split; [erewrite tick_eq by reflexivity; exact H |]. split; assumption.
Qed.

Lemma X1_finally_reports_outcome_witness :
  exists s1,
    finally 0 (fun _ => Return VUndefined) leaf_state = Some (0, s1) /\
    operations s1 = operations leaf_state /\ log s1 = log leaf_state /\
    microtasks s1 = [] /\
    forall (b : bool) arg, (b = true -> thenable arg = false) ->
      exists s2,
        ((if b then resolve_fn 0 arg else reject_fn 0 arg) ;;; tick) s1 = Some (tt, s2) /\
        log s2 = log leaf_state ++ [EvFinal b] /\
        result_state s2 0 = Some (if b then Fulfilled arg else Rejected arg).
Proof.
  apply (X1_finally_reports_outcome leaf_state 0 (Operation 0 (AExternal 1) None)
           fresh_promise (fun _ => Return VUndefined)).
  - reflexivity.
  - reflexivity.
  - reflexivity.
  - intros _. split; reflexivity.
Defined.

(** X2.  [failed(error)] returns an operation whose promise is already
    rejected with [error] itself and, unlike that of [aborted()], is not
    marked as handled and has no job scheduled; its [abort()] returns a
    promise that is fulfilled already, schedules nothing and leaves the
    rejection as it is, for good. *)
Theorem X2_failed_is_rejected_and_unobserved (s : state) (e : value) :
  exists o p s1,
    failed e s = Some (o, s1) /\
    operations s1 !! o = Some (Operation p AResolved None) /\
    promise_state s1 p = Some (Rejected e) /\
    promise_handled s1 p = Some false /\
    microtasks s1 = microtasks s /\
    forall fuel, exists q s2,
      abort (S fuel) o s1 = Some (q, s2) /\
      promise_state s2 q = Some (Fulfilled VUndefined) /\
      microtasks s2 = microtasks s /\
      promise_handled s2 p = Some false /\
      settled_for_good s2 o (Rejected e).
Proof.
  eexists _, _, _. split; [apply failed_eq |].
  split; [state_simpl; apply lookup_snoc |].
  split; [unfold promise_state; state_simpl; now rewrite lookup_snoc |].
  split; [unfold promise_handled; state_simpl; now rewrite lookup_snoc |].
  split; [reflexivity |].
  intros fuel. eexists _, _. split.
  { eapply abort_first with (rec := promise_resolve VUndefined).
    - state_simpl. apply lookup_snoc.
    - reflexivity.
    - reflexivity.
    - rewrite promise_resolve_eq by reflexivity. state_simpl. reflexivity.
    - state_simpl. apply lookup_snoc. }
  state_simpl. split.
  { unfold promise_state. state_simpl. now rewrite lookup_snoc. }
  split; [reflexivity |].
  assert (Hp : ((promises s ++ [Promise (Rejected e) [] true false]) ++
                  [Promise (Fulfilled VUndefined) [] true false])
               !! length (promises s) = Some (Promise (Rejected e) [] true false)).
  { rewrite lookup_app_l by (rewrite length_app; simpl; lia). apply lookup_snoc. }
  split.
  { unfold promise_handled. state_simpl. now rewrite Hp. }
  apply settled_for_good_intro; [| discriminate].
  unfold result_state, promise_state. state_simpl.
  rewrite insert_snoc, lookup_snoc. simpl. now rewrite Hp.
Qed.

(** X3.  [completed(value)]: for a value that is not a promise, the result is
    fulfilled with it at once and for good, and [abort()] returns a promise
    that is fulfilled already and changes nothing; for a promise [q], the
    operation wraps [q] itself (no promise is created), so its result is the
    state of [q] in every later state. *)
Theorem X3_completed_wraps_value_or_promise (s : state) (v : value) :
  (thenable v = false ->
   exists o p s1,
     completed v s = Some (o, s1) /\
     operations s1 !! o = Some (Operation p AResolved None) /\
     settled_for_good s1 o (Fulfilled v) /\
     microtasks s1 = microtasks s /\
     forall fuel, exists q s2,
       abort (S fuel) o s1 = Some (q, s2) /\
       promise_state s2 q = Some (Fulfilled VUndefined) /\
       microtasks s2 = microtasks s /\
       settled_for_good s2 o (Fulfilled v)) /\
  (forall q, v = VPromise q ->
   exists o s1,
     completed v s = Some (o, s1) /\
     operations s1 !! o = Some (Operation q AResolved None) /\
     promises s1 = promises s /\ microtasks s1 = microtasks s /\
     forall acts s', run acts s1 = Some (tt, s') ->
       result_state s' o = promise_state s' q).
Proof.
  split.
  - intros Hv. eexists _, _, _. split; [now apply completed_eq |].
    split; [state_simpl; apply lookup_snoc |].
    split.
    { apply settled_for_good_intro; [| discriminate].
      unfold result_state, promise_state. state_simpl.
      rewrite lookup_snoc. simpl. now rewrite lookup_snoc. }
    split; [reflexivity |].
    intros fuel. eexists _, _. split.
    { eapply abort_first with (rec := promise_resolve VUndefined).
      - state_simpl. apply lookup_snoc.
      - reflexivity.
      - reflexivity.
      - rewrite promise_resolve_eq by reflexivity. state_simpl. reflexivity.
      - state_simpl. apply lookup_snoc. }
    state_simpl. split.
    { unfold promise_state. state_simpl. now rewrite lookup_snoc. }
    split; [reflexivity |].
    apply settled_for_good_intro; [| discriminate].
    unfold result_state, promise_state. state_simpl.
    rewrite insert_snoc, lookup_snoc. simpl.
    rewrite lookup_app_l by (rewrite length_app; simpl; lia).
    now rewrite lookup_snoc.
  - intros q ->. eexists _, _. split; [reflexivity |]. state_simpl.
    split; [apply lookup_snoc |]. split; [reflexivity |]. split; [reflexivity |].
    intros acts s' Hrun. apply run_evolves in Hrun.
    eapply (result_state_evolves _ _ _ (Operation q AResolved None)); [| exact Hrun].
    state_simpl. apply lookup_snoc.
Qed.

(** X4.  Once [o.abort()] has returned, for any kind of operation, the getter
    [o.aborted] is true, and stays true whatever the program does. *)
Theorem X4_aborted_getter_after_abort (s : state) (o : oid) (fuel : nat) (q : pid)
    (s1 : state) :
  abort fuel o s = Some (q, s1) ->
  get_aborted o s1 = Some (true, s1) /\
  forall acts s2, run acts s1 = Some (tt, s2) -> get_aborted o s2 = Some (true, s2).
Proof.
  intros H.
  assert (Hab : exists x, operations s1 !! o = Some x /\ is_Some (abortPromise_ x)).
  { destruct fuel as [| fuel]; [discriminate |]. simpl in H.
    apply bind_Some in H. destruct H as (op & s0 & Hop & H). minv Hop.
    destruct (abortPromise_ op) eqn:E.
    - minv H. exists op. rewrite E. eauto.
    - apply bind_Some in H. destruct H as ([] & s2 & H1 & H). minv H1.
      apply bind_Some in H. destruct H as (r & s2 & H2 & H).
      apply bind_Some in H. destruct H as (op' & s3 & H3 & H). minv H3. minv H.
      eexists. split.
      + state_simpl. apply list_lookup_insert_eq. now apply lookup_lt_Some in H3.
      + simpl. eauto. }
  assert (Hget : forall s2, evolves s1 s2 -> get_aborted o s2 = Some (true, s2)).
  { intros s2 E. destruct Hab as (x & Hx & Hs).
    destruct (ev_operations _ _ E _ _ Hx) as (x' & Hx' & _ & _ & Hab').
    unfold get_aborted. rewrite (bind_eq _ _ _ _ _ (get_operation_eq _ _ _ Hx')).
    destruct (Hab' Hs) as [q' ->]. reflexivity. }
  split; [apply Hget, evolves_refl |].
  intros acts s2 Hrun. apply Hget. now apply run_evolves in Hrun.
Qed.

Lemma X4_aborted_getter_after_abort_witness :
  get_aborted 0 aborted_leaf_state = Some (true, aborted_leaf_state) /\
  forall acts s2, run acts aborted_leaf_state = Some (tt, s2) ->
    get_aborted 0 s2 = Some (true, s2).
Proof.
  apply (X4_aborted_getter_after_abort leaf_state 0 1 1 aborted_leaf_state).
  reflexivity.
Defined.

(** The success or failure callback when the continuation returns another
    operation [r]: the new promise is resolved with the promise of [r] and
    the variable [abort] becomes [() => r.abort()]. *)
Lemma makeCallback_operation s k l a y (b : bool) cb v r xr :
  links s !! k = Some l ->
  operations s !! l_this l = Some a ->
  promises s !! l_newPromise l = Some y -> p_resolved y = false ->
  (b = true -> abortPromise_ a = None) ->
  (if b then l_onSuccess l else l_onError l) = Some cb ->
  cb v = Return (VOperation r) ->
  operations s !! r = Some xr -> op_promise xr <> l_newPromise l ->
  makeCallback k b v s =
  Some (tt, State (<[l_newPromise l := Promise (p_state y) (p_reactions y) true
                                               (p_handled y)]> (promises s))
                  (operations s)
                  (<[k := ChainLink (l_this l) (l_newPromise l) (l_onSuccess l)
                                    (l_onError l) (DOperation r)]> (links s))
                  (cells s)
                  (microtasks s ++ [JThenable (l_newPromise l) (op_promise xr)])
                  (log s ++ [EvContinuation k b v])).
Proof.
  intros Hk Ha Hy Hr Hb Hcb Hret Hxr Hne.
  erewrite makeCallback_unfold by eauto. rewrite Hcb.
  assert ((match abortPromise_ a with Some _ => true | None => false end) && b
          = false) as ->.
  { destruct b; [rewrite (Hb eq_refl); reflexivity | apply andb_false_r]. }
  unfold bind at 1. unfold emit.
  erewrite bind_eq; cycle 1.
  { unfold wrapChainCallback_. rewrite Hret.
    erewrite bind_eq; [| apply get_operation_eq; state_simpl; exact Hxr].
    erewrite bind_eq; [| eapply resolve_fn_thenable; state_simpl; eauto].
    reflexivity. }
  erewrite bind_eq; [| apply get_link_eq; state_simpl; exact Hk].
  reflexivity.
Qed.

(** An [onAbort] function that calls no other operation settles no promise. *)
Lemma call_onAbort_standalone_states rec f s q s' :
  standalone s f ->
  call_onAbort rec f s = Some (q, s') ->
  forall p st, promise_state s p = Some st -> promise_state s' p = Some st.
Proof.
  intros Hf Hcall p st Hst. unfold promise_state in *.
  destruct (promises s !! p) as [x |] eqn:Hp; [| discriminate].
  injection Hst as <-.
  destruct f as [r | | p0 | ops | k]; try contradiction; cbn [call_onAbort] in Hcall.
  - injection Hcall as <- <-. now rewrite Hp.
  - rewrite promise_resolve_eq in Hcall by reflexivity. injection Hcall as <- <-.
    state_simpl. now rewrite (lookup_app_l_Some _ _ _ _ Hp).
  - destruct Hf as [x0 Hx0]. unfold catch_ in Hcall.
    rewrite (then__eq _ _ _ _ _ Hx0) in Hcall. injection Hcall as <- <-.
    state_simpl. pose proof (lookup_lt_Some _ _ _ Hp) as Hlt.
    rewrite lookup_app_l by (now rewrite length_insert).
    destruct (Nat.eq_dec p p0) as [-> |].
    + rewrite list_lookup_insert_eq by exact Hlt. simpl. congruence.
    + rewrite list_lookup_insert_ne by lia. now rewrite Hp.
Qed.

(** X5.  Let [b = a.chain(cb)] and let [cb(v)] return another operation [r]
    (not aborted, its [onAbort_] calling no other operation).  After the
    success callback has run, the variable [abort] of the call is
    [() => r.abort()]: [b.abort()] returns what [r.abort()] returns, calls
    [r.onAbort_] once and caches its promise in [r]; it does not call
    [a.onAbort_], leaves [a] not aborted and does not settle the promise of
    [b]. *)
Theorem X5_abort_is_forwarded_to_returned_operation (s : state) (a b r : oid)
    (k : lid) (np : pid) (cb : callback) (g : option callback) (d : delegate)
    (xa xr : operation) (y : promise) (v : value) :
  operations s !! b = Some (Operation np (AChain k) None) ->
  links s !! k = Some (ChainLink a np (Some cb) g d) ->
  operations s !! a = Some xa -> abortPromise_ xa = None ->
  promises s !! np = Some y -> p_resolved y = false ->
  cb v = Return (VOperation r) ->
  operations s !! r = Some xr -> op_promise xr <> np -> r <> a -> a <> b ->
  standalone s (onAbort_ xr) -> abortPromise_ xr = None ->
  exists s1,
    makeCallback k true v s = Some (tt, s1) /\
    links s1 !! k = Some (ChainLink a np (Some cb) g (DOperation r)) /\
    forall fuel, exists q s2,
      abort (S (S fuel)) b s1 = Some (q, s2) /\
      (forall rr, onAbort_ xr = AExternal rr -> q = rr) /\
      operations s2 !! r = Some (Operation (op_promise xr) (onAbort_ xr) (Some q)) /\
      onAbort_calls s2 r = onAbort_calls s1 r + 1 /\
      onAbort_calls s2 a = onAbort_calls s1 a /\
      operations s2 !! a = Some xa /\
      (forall st, promise_state s1 np = Some st -> promise_state s2 np = Some st).
Proof.
  intros Hb Hk Ha Hna Hy Hr Hret Hxr Hne Hra Hab Hf Hnr.
  assert (Hrb : r <> b).
  { intros ->. rewrite Hxr in Hb. injection Hb as ->. contradiction. }
  pose proof (lookup_lt_Some _ _ _ Hb) as Hltb.
  pose proof (lookup_lt_Some _ _ _ Hy) as Hltnp.
  pose proof (lookup_lt_Some _ _ _ Hk) as Hltk.
  pose proof (lookup_lt_Some _ _ _ Hxr) as Hltr.
  eexists. split.
  { eapply (makeCallback_operation s k _ xa y true cb v r xr Hk); simpl; eauto. }
  cbn [l_this l_newPromise l_onSuccess l_onError].
  split; [state_simpl; now apply list_lookup_insert_eq |].
  intros fuel.
  set (s1 := State (<[np := Promise (p_state y) (p_reactions y) true (p_handled y)]>
                      (promises s))
                   (operations s)
                   (<[k := ChainLink a np (Some cb) g (DOperation r)]> (links s))
                   (cells s) (microtasks s ++ [JThenable np (op_promise xr)])
                   (log s ++ [EvContinuation k true v])).
  set (s1' := State (promises s1) (operations s1) (links s1) (cells s1) (microtasks s1)
                    (log s1 ++ [EvOnAbort b] ++ [EvOnAbort r])).
  assert (Hf1 : standalone s1' (onAbort_ xr)).
  { destruct (onAbort_ xr); auto. simpl in *. destruct Hf as [x Hx].
    apply lookup_lt_is_Some. rewrite length_insert. now apply lookup_lt_Some in Hx. }
  destruct (call_onAbort_standalone (abort fuel) _ _ Hf1)
    as (q & s2 & Hcall & Hops & Hlinks & Hlog & Hext & E).
  pose proof (call_onAbort_standalone_states _ _ _ _ _ Hf1 Hcall) as Hstates.
  assert (Hrun : abort (S (S fuel)) b s1 =
    Some (q, State (promises s2)
                   (<[b := Operation np (AChain k) (Some q)]>
                      (<[r := Operation (op_promise xr) (onAbort_ xr) (Some q)]>
                         (operations s2)))
                   (links s2) (cells s2) (microtasks s2) (log s2))).
  { erewrite abort_first with (rec := call_delegate (abort (S fuel)) k); cycle 1.
    - exact Hb.
    - reflexivity.
    - reflexivity.
    - unfold call_delegate.
      erewrite bind_eq;
        [| apply get_link_eq; state_simpl; now apply list_lookup_insert_eq].
      cbn [l_abort].
      eapply abort_run.
      + state_simpl. exact Hxr.
      + exact Hnr.
      + state_simpl. rewrite <- app_assoc. exact Hcall.
      + rewrite Hops. exact Hxr.
    - state_simpl. rewrite list_lookup_insert_ne by lia. rewrite Hops. exact Hb.
    - reflexivity. }
  exists q. eexists. split; [exact Hrun |].
  split; [intros rr Hrr; now destruct (Hext rr Hrr) |].
  state_simpl. rewrite Hops, Hlog. subst s1' s1. state_simpl.
  split.
  { rewrite list_lookup_insert_ne by lia. now apply list_lookup_insert_eq. }
  unfold onAbort_calls. state_simpl. rewrite !count_app. cbn [count is_onAbort].
  rewrite Nat.eqb_refl.
  split; [destruct (Nat.eqb_spec b r); [congruence | lia] |].
  split.
  { destruct (Nat.eqb_spec r a); [congruence |].
    destruct (Nat.eqb_spec b a); [congruence | lia]. }
  split; [rewrite !list_lookup_insert_ne by lia; exact Ha |].
  intros st Hst. apply (Hstates np st). exact Hst.
Qed.

Lemma X5_abort_is_forwarded_to_returned_operation_witness :
  exists s1,
    makeCallback 0 true (VNumber 1) forwarding_state = Some (tt, s1) /\
    links s1 !! 0 =
      Some (ChainLink 0 3 (Some (returning (VOperation 1))) None (DOperation 1)) /\
    forall fuel, exists q s2,
      abort (S (S fuel)) 2 s1 = Some (q, s2) /\
      (forall rr, AExternal 1 = AExternal rr -> q = rr) /\
      operations s2 !! 1 = Some (Operation 2 (AExternal 1) (Some q)) /\
      onAbort_calls s2 1 = onAbort_calls s1 1 + 1 /\
      onAbort_calls s2 0 = onAbort_calls s1 0 /\
      operations s2 !! 0 = Some (Operation 0 (AExternal 1) None) /\
      (forall st, promise_state s1 3 = Some st -> promise_state s2 3 = Some st).
Proof.
  apply (X5_abort_is_forwarded_to_returned_operation forwarding_state 0 2 1 0 3
           (returning (VOperation 1)) None DInitial
           (Operation 0 (AExternal 1) None) (Operation 2 (AExternal 1) None)
           (Promise Pending [Reaction None (Some HNoop) 4] false true) (VNumber 1));
    first [reflexivity | discriminate | exact I].
Defined.

(** A promise [np] that was resolved with the pending promise [pr]: the job
    scheduled by [resolve] subscribes [np] to [pr]; once [pr] is settled and
    its job has run, [np] is settled the same way. *)
Lemma adoption_run s np pr y z (b : bool) arg :
  promises s !! np = Some y -> p_state y = Pending ->
  promises s !! pr = Some z ->
  p_state z = Pending -> p_resolved z = false -> p_reactions z = [] ->
  np <> pr ->
  microtasks s = [JThenable np pr] ->
  (b = true -> thenable arg = false) ->
  exists s3,
    (tick ;;; (if b then resolve_fn pr arg else reject_fn pr arg) ;;; tick) s
      = Some (tt, s3) /\
    promise_state s3 pr = Some (if b then Fulfilled arg else Rejected arg) /\
    promise_state s3 np = Some (if b then Fulfilled arg else Rejected arg) /\
    operations s3 = operations s /\ links s3 = links s /\ log s3 = log s.
Proof.
  intros Hnp Hsy Hpr Hsz Hrz Hrsz Hne Hq Hv.
  pose proof (lookup_lt_Some _ _ _ Hnp) as Hltnp.
  pose proof (lookup_lt_Some _ _ _ Hpr) as Hltpr.
  set (d := length (promises s)).
  set (out := if b then Fulfilled arg else Rejected arg).
  (* the job of [resolve]: [pr.then(resolve, reject)] *)
  set (s1 := State (<[pr := Promise Pending
                              [Reaction (Some (HAdoptResolve np)) (Some (HAdoptReject np)) d]
                              false true]> (promises s) ++ [fresh_promise])
                   (operations s) (links s) (cells s) [] (log s)).
  assert (H1 : tick s = Some (tt, s1)).
  { erewrite tick_eq by exact Hq. cbn [run_job].
    erewrite bind_eq; [| apply then__eq; state_simpl; exact Hpr].
    state_simpl. rewrite Hsz, Hrz, Hrsz. reflexivity. }
  (* [pr] is settled *)
  set (s2 := State (<[pr := Promise out [] true true]> (promises s) ++ [fresh_promise])
                   (operations s) (links s) (cells s)
                   [JReaction (Some (if b then HAdoptResolve np else HAdoptReject np))
                              b d arg]
                   (log s)).
  assert (H2 : (if b then resolve_fn pr arg else reject_fn pr arg) s1 = Some (tt, s2)).
  { subst s1 s2 out. destruct b.
    - erewrite resolve_fn_pending; state_simpl; cycle 1.
      + apply lookup_app_l_Some. apply list_lookup_insert_eq. exact Hltpr.
      + reflexivity.
      + reflexivity.
      + now apply Hv.
      + rewrite insert_app_l by (now rewrite length_insert).
        rewrite list_insert_insert_eq. reflexivity.
    - erewrite reject_fn_pending; state_simpl; cycle 1.
      + apply lookup_app_l_Some. apply list_lookup_insert_eq. exact Hltpr.
      + reflexivity.
      + reflexivity.
      + rewrite insert_app_l by (now rewrite length_insert).
        rewrite list_insert_insert_eq. reflexivity. }
  (* its job settles [np] *)
  assert (Hnp2 : (<[pr := Promise out [] true true]> (promises s) ++ [fresh_promise])
                    !! np = Some y).
  { rewrite lookup_app_l by (now rewrite length_insert).
    rewrite list_lookup_insert_ne by lia. exact Hnp. }
  set (s2' := State (<[np := Promise out [] (p_resolved y) (p_handled y)]>
                       (<[pr := Promise out [] true true]> (promises s) ++ [fresh_promise]))
                    (operations s) (links s) (cells s)
                    ([] ++ map (reaction_job b arg) (p_reactions y)) (log s)).
  assert (Hh : run_handler (if b then HAdoptResolve np else HAdoptReject np) arg
                 (State (promises s2) (operations s2) (links s2) (cells s2) [] (log s2))
               = Some (Return VUndefined, s2')).
  { subst s2 s2' out. state_simpl. destruct b; cbn [run_handler].
    - erewrite bind_eq; [reflexivity |]. unfold adopt_resolve.
      erewrite bind_eq; [| apply get_promise_eq; state_simpl; exact Hnp2].
      rewrite Hsy.
      assert (resolve_core np arg = settle_promise np true arg) as ->.
      { unfold resolve_core. specialize (Hv eq_refl). destruct arg; try reflexivity.
        discriminate. }
      erewrite settle_promise_pending; state_simpl;
        [reflexivity | exact Hnp2 | exact Hsy].
    - erewrite bind_eq; [reflexivity |]. unfold adopt_reject.
      erewrite settle_promise_pending; state_simpl;
        [reflexivity | exact Hnp2 | exact Hsy]. }
  destruct (resolve_fn_frame s2' d fresh_promise VUndefined)
    as (s3 & H3 & Ho3 & Hl3 & _ & Hg3 & Hq3).
  { subst s2'. state_simpl. rewrite list_lookup_insert_ne by (subst d; lia).
    apply lookup_snoc_eq. now rewrite length_insert. }
  exists s3. split.
  { rewrite (bind_eq _ _ _ _ _ H1), (bind_eq _ _ _ _ _ H2).
    erewrite tick_eq by reflexivity. cbn [run_job].
    rewrite (bind_eq _ _ _ _ _ Hh). exact H3. }
  unfold promise_state. rewrite !Hq3 by (subst d; lia).
  subst s2'. state_simpl.
  split.
  { rewrite list_lookup_insert_ne by lia.
    rewrite lookup_app_l by (now rewrite length_insert).
    rewrite list_lookup_insert_eq by lia. reflexivity. }
  split.
  { rewrite list_lookup_insert_eq by (rewrite length_app, length_insert; lia).
    reflexivity. }
  auto.
Qed.

(** The callback when the continuation returns a promise [pr]. *)
Lemma makeCallback_promise s k l a y (b : bool) cb v pr :
  links s !! k = Some l ->
  operations s !! l_this l = Some a ->
  promises s !! l_newPromise l = Some y -> p_resolved y = false ->
  (b = true -> abortPromise_ a = None) ->
  (if b then l_onSuccess l else l_onError l) = Some cb ->
  cb v = Return (VPromise pr) -> pr <> l_newPromise l ->
  makeCallback k b v s =
  Some (tt, State (<[l_newPromise l := Promise (p_state y) (p_reactions y) true
                                               (p_handled y)]> (promises s))
                  (operations s)
                  (<[k := ChainLink (l_this l) (l_newPromise l) (l_onSuccess l)
                                    (l_onError l) (DValue (VPromise pr))]> (links s))
                  (cells s)
                  (microtasks s ++ [JThenable (l_newPromise l) pr])
                  (log s ++ [EvContinuation k b v])).
Proof.
  intros Hk Ha Hy Hr Hb Hcb Hret Hne.
  erewrite makeCallback_unfold by eauto. rewrite Hcb.
  assert ((match abortPromise_ a with Some _ => true | None => false end) && b
          = false) as ->.
  { destruct b; [rewrite (Hb eq_refl); reflexivity | apply andb_false_r]. }
  unfold bind at 1. unfold emit.
  erewrite bind_eq; cycle 1.
  { unfold wrapChainCallback_. rewrite Hret.
    erewrite bind_eq; [| eapply resolve_fn_thenable; state_simpl; eauto].
    reflexivity. }
  erewrite bind_eq; [| apply get_link_eq; state_simpl; exact Hk].
  reflexivity.
Qed.

(** X6.  Let [b = a.chain(cb)] and let [cb(v)] return a promise [pr], or an
    operation whose promise is [pr], pending with nobody listening.  After
    the success callback and the job it schedules, the promise of [b]
    follows [pr]: once [pr] is settled, fulfilled or rejected, and its job
    has run, the result of [b] is the outcome of [pr], for good; [cb] has
    been called once. *)
Theorem X6_result_follows_returned_operation (s : state) (a b : oid) (k : lid)
    (np pr : pid) (cb : callback) (g : option callback) (d : delegate)
    (ab : option pid) (xa : operation) (y z : promise) (v : value) :
  operations s !! b = Some (Operation np (AChain k) ab) ->
  links s !! k = Some (ChainLink a np (Some cb) g d) ->
  operations s !! a = Some xa -> abortPromise_ xa = None ->
  promises s !! np = Some y -> p_resolved y = false -> p_state y = Pending ->
  microtasks s = [] ->
  (cb v = Return (VPromise pr) \/
   exists r xr, cb v = Return (VOperation r) /\ operations s !! r = Some xr /\
                op_promise xr = pr) ->
  promises s !! pr = Some z ->
  p_state z = Pending -> p_resolved z = false -> p_reactions z = [] ->
  pr <> np ->
  forall (fulfilled : bool) arg, (fulfilled = true -> thenable arg = false) ->
    exists s3,
      (makeCallback k true v ;;; tick ;;;
       (if fulfilled then resolve_fn pr arg else reject_fn pr arg) ;;; tick) s
        = Some (tt, s3) /\
      promise_state s3 pr = Some (if fulfilled then Fulfilled arg else Rejected arg) /\
      settled_for_good s3 b (if fulfilled then Fulfilled arg else Rejected arg) /\
      log s3 = log s ++ [EvContinuation k true v].
Proof.
  intros Hb Hk Ha Hna Hy Hr Hsy Hq Hret Hpr Hsz Hrz Hrsz Hne fulfilled arg Hv.
  pose proof (lookup_lt_Some _ _ _ Hy) as Hltnp.
  pose proof (lookup_lt_Some _ _ _ Hpr) as Hltpr.
  assert (H1 : exists d',
    makeCallback k true v s =
    Some (tt, State (<[np := Promise (p_state y) (p_reactions y) true (p_handled y)]>
                       (promises s))
                    (operations s)
                    (<[k := ChainLink a np (Some cb) g d']> (links s))
                    (cells s) (microtasks s ++ [JThenable np pr])
                    (log s ++ [EvContinuation k true v]))).
  { destruct Hret as [Hret | (r & xr & Hret & Hxr & <-)].
    - eexists. eapply (makeCallback_promise s k _ xa y true cb v pr Hk); simpl; eauto.
    - eexists.
      eapply (makeCallback_operation s k _ xa y true cb v r xr Hk); simpl; eauto. }
  destruct H1 as (d' & H1). rewrite Hq in H1. cbn [app] in H1.
  edestruct (adoption_run
               (State (<[np := Promise (p_state y) (p_reactions y) true (p_handled y)]>
                         (promises s))
                      (operations s) (<[k := ChainLink a np (Some cb) g d']> (links s))
                      (cells s) [JThenable np pr] (log s ++ [EvContinuation k true v]))
               np pr (Promise (p_state y) (p_reactions y) true (p_handled y)) z
               fulfilled arg)
    as (s3 & H3 & Hpr3 & Hnp3 & Ho3 & _ & Hg3); state_simpl.
  - now apply list_lookup_insert_eq.
  - exact Hsy.
  - rewrite list_lookup_insert_ne by lia. exact Hpr.
  - exact Hsz.
  - exact Hrz.
  - exact Hrsz.
  - lia.
  - reflexivity.
  - exact Hv.
  - exists s3. split; [rewrite (bind_eq _ _ _ _ _ H1); exact H3 |].
    split; [exact Hpr3 |]. split; [| exact Hg3].
    apply settled_for_good_intro; [| destruct fulfilled; discriminate].
    unfold result_state. rewrite Ho3. state_simpl. rewrite Hb. exact Hnp3.
Qed.

Lemma X6_result_follows_returned_operation_witness :
  exists s3,
    (makeCallback 0 true (VNumber 1) ;;; tick ;;; resolve_fn 2 (VNumber 7) ;;; tick)
      forwarding_state = Some (tt, s3) /\
    promise_state s3 2 = Some (Fulfilled (VNumber 7)) /\
    settled_for_good s3 2 (Fulfilled (VNumber 7)) /\
    log s3 = log forwarding_state ++ [EvContinuation 0 true (VNumber 1)].
Proof.
  apply (X6_result_follows_returned_operation forwarding_state 0 2 0 3 2
           (returning (VOperation 1)) None DInitial None
           (Operation 0 (AExternal 1) None)
           (Promise Pending [Reaction None (Some HNoop) 4] false true) fresh_promise
           (VNumber 1)) with (fulfilled := true) (arg := VNumber 7);
    first [reflexivity | discriminate | idtac].
  right. exists 1, (Operation 2 (AExternal 1) None). repeat split; reflexivity.
Defined.

(** X7.  Let [b = a.chain(f, g)] whose continuation has returned a plain
    value [r] (the variable [abort] of the call is
    [() => Promise.resolve(r).then(() => {}, () => {})]) and whose result is
    settled.  Then [b.abort()] comes too late to stop anything: it returns a
    new promise that is fulfilled with [undefined] after one job, does not
    call [a.onAbort_], leaves [a] as it is, and the result of [b] stays what
    it was. *)
Theorem X7_abort_after_plain_value_is_harmless (s : state) (a b : oid) (k : lid)
    (np : pid) (f g : option callback) (r : value) (xa : operation) (st : pstate)
    (fuel : nat) :
  operations s !! b = Some (Operation np (AChain k) None) ->
  links s !! k = Some (ChainLink a np f g (DValue r)) ->
  plain r = true ->
  operations s !! a = Some xa -> a <> b ->
  result_state s b = Some st -> st <> Pending ->
  microtasks s = [] ->
  exists q s1 s2,
    abort (S fuel) b s = Some (q, s1) /\
    promise_state s1 q = Some Pending /\
    onAbort_calls s1 a = onAbort_calls s a /\
    operations s1 !! a = Some xa /\
    settled_for_good s1 b st /\
    run_microtasks 1 s1 = Some (tt, s2) /\
    microtasks s2 = [] /\
    promise_state s2 q = Some (Fulfilled VUndefined) /\
    settled_for_good s2 b st.
Proof.
  intros Hb Hk Hpl Ha Hne Hres Hst Hq.
  pose proof (lookup_lt_Some _ _ _ Hb) as Hltb.
  set (n := length (promises s)).
  set (s1 := State ((promises s ++ [Promise (Fulfilled r) [] true true]) ++ [fresh_promise])
                   (<[b := Operation np (AChain k) (Some (S n))]> (operations s))
                   (links s) (cells s)
                   [JReaction (Some HNoop) true (S n) r]
                   (log s ++ [EvOnAbort b])).
  assert (Hrun : abort (S fuel) b s = Some (S n, s1)).
  { erewrite abort_first with (rec := call_delegate (abort fuel) k); cycle 1.
    - exact Hb.
    - reflexivity.
    - reflexivity.
    - unfold call_delegate.
      erewrite bind_eq; [| apply get_link_eq; state_simpl; exact Hk].
      cbn [l_abort].
      erewrite bind_eq; [| apply promise_resolve_eq; now apply plain_not_thenable].
      apply then__eq. state_simpl. apply lookup_snoc.
    - state_simpl. exact Hb.
    - subst s1 n. state_simpl. rewrite Hq, insert_snoc, length_app. cbn [length app].
      rewrite Nat.add_1_r. reflexivity. }
  assert (E1 : evolves s s1).
  { eapply (mono_abort (S fuel) b). exact Hrun. }
  assert (Hres1 : settled_for_good s1 b st).
  { apply settled_for_good_intro; [| exact Hst]. eapply result_state_stable; eauto. }
  set (s2 := State (<[S n := Promise (Fulfilled VUndefined) [] true false]> (promises s1))
                   (operations s1) (links s1) (cells s1) [] (log s1)).
  assert (Hrun2 : run_microtasks 1 s1 = Some (tt, s2)).
  { eapply run_microtasks_one; [reflexivity | | reflexivity].
    cbn [run_job run_handler]. unfold bind at 1. unfold ret.
    erewrite resolve_fn_pending; cycle 1.
    - subst s1 n. state_simpl. apply lookup_snoc_eq. rewrite length_app. simpl. lia.
    - reflexivity.
    - reflexivity.
    - reflexivity.
    - reflexivity. }
  exists (S n), s1, s2. split; [exact Hrun |].
  split.
  { unfold promise_state. subst s1 n. state_simpl.
    rewrite lookup_snoc_eq by (rewrite length_app; simpl; lia). reflexivity. }
  split.
  { unfold onAbort_calls. subst s1. state_simpl. rewrite count_app. simpl.
    destruct (Nat.eqb_spec b a); [congruence | lia]. }
  split; [subst s1; state_simpl; now rewrite list_lookup_insert_ne by lia |].
  split; [exact Hres1 |]. split; [exact Hrun2 |]. split; [reflexivity |].
  split.
  { unfold promise_state. subst s2 s1 n. state_simpl.
    rewrite list_lookup_insert_eq by (rewrite !length_app; simpl; lia). reflexivity. }
  apply settled_for_good_intro; [| exact Hst].
  eapply result_state_stable; [apply Hres1 | exact Hst |].
  eapply (mono_run_microtasks 1). exact Hrun2.
Qed.

Lemma X7_abort_after_plain_value_is_harmless_witness :
  exists q s1 s2,
    abort (S 0) 1 doubled_done_state = Some (q, s1) /\
    promise_state s1 q = Some Pending /\
    onAbort_calls s1 0 = onAbort_calls doubled_done_state 0 /\
    operations s1 !! 0 = Some (Operation 0 AResolved None) /\
    settled_for_good s1 1 (Fulfilled (VNumber 4)) /\
    run_microtasks 1 s1 = Some (tt, s2) /\
    microtasks s2 = [] /\
    promise_state s2 q = Some (Fulfilled VUndefined) /\
    settled_for_good s2 1 (Fulfilled (VNumber 4)).
Proof.
  apply (X7_abort_after_plain_value_is_harmless doubled_done_state 0 1 0 1
           (Some double) None (VNumber 4) (Operation 0 AResolved None)
           (Fulfilled (VNumber 4)) 0);
    first [reflexivity | discriminate].
Defined.

(** Two jobs in a row. *)
Lemma run_microtasks_two fuel s j1 s1 j2 s2 :
  microtasks s = [j1] ->
  run_job j1 (State (promises s) (operations s) (links s) (cells s) [] (log s))
    = Some (tt, s1) ->
  microtasks s1 = [j2] ->
  run_job j2 (State (promises s1) (operations s1) (links s1) (cells s1) [] (log s1))
    = Some (tt, s2) ->
  microtasks s2 = [] ->
  run_microtasks (S (S fuel)) s = Some (tt, s2).
Proof.
  intros Hq Hj Hq1 Hj2 Hq2.
  change (run_microtasks (S (S fuel)) s) with
    (match microtasks s with
     | [] => Some (tt, s)
     | _ :: _ => (tick ;;; run_microtasks (S fuel)) s
     end).
  rewrite Hq. erewrite bind_eq; [| erewrite tick_eq by exact Hq; exact Hj].
  eapply run_microtasks_one; eauto.
Qed.

(** [b = a.chain(f, g)] when the promise of [a] is settled already, in a
    state with an empty job queue: the two jobs the call leads to, for any
    path of the callback that settles the new promise at once. *)
Lemma chain_settled_run s a xa ya f g (path : bool) arg (ob : bool) oarg links' lg' fuel :
  operations s !! a = Some xa ->
  promises s !! op_promise xa = Some ya ->
  p_state ya = (if path then Fulfilled arg else Rejected arg) ->
  microtasks s = [] ->
  (ob = true -> thenable oarg = false) ->
  (forall s1 y,
     links s1 !! length (links s) = Some (ChainLink a (length (promises s)) f g DInitial) ->
     operations s1 !! a = Some xa ->
     promises s1 !! length (promises s) = Some y ->
     p_resolved y = false -> p_state y = Pending ->
     makeCallback (length (links s)) path arg s1 =
     Some (tt, State (<[length (promises s) :=
                          Promise (if ob then Fulfilled oarg else Rejected oarg) [] true
                                  (p_handled y)]> (promises s1))
                     (operations s1) (links' (links s1)) (cells s1)
                     (microtasks s1 ++ map (reaction_job ob oarg) (p_reactions y))
                     (lg' (log s1)))) ->
  exists s2,
    (b <- chain a f g ;; run_microtasks (S (S fuel)) ;;; ret b) s
      = Some (length (operations s), s2) /\
    result_state s2 (length (operations s))
      = Some (if ob then Fulfilled oarg else Rejected oarg) /\
    log s2 = lg' (log s) /\
    microtasks s2 = [] /\
    operations s2 =
      operations s ++ [Operation (length (promises s)) (AChain (length (links s))) None].
Proof.
  intros Ha Hp Hst Hq Hv Hmc.
  pose proof (lookup_lt_Some _ _ _ Hp) as Hlt.
  set (n := length (promises s)) in *. set (k := length (links s)) in *.
  set (pa := op_promise xa) in *.
  set (ps1 := <[pa := Promise (p_state ya) (p_reactions ya) (p_resolved ya) true]>
                (promises s) ++
              [Promise Pending [Reaction None (Some HNoop) (S n)] false true;
               fresh_promise; fresh_promise]).
  set (ops1 := operations s ++ [Operation n (AChain k) None]).
  set (ls1 := links s ++ [ChainLink a n f g DInitial]).
  assert (Hlen1 : length ps1 = S (S (S n))).
  { subst ps1. rewrite length_app, length_insert. simpl. subst n. lia. }
  assert (Hchain : chain a f g s =
    Some (length (operations s),
          State ps1 ops1 ls1 (cells s)
                [JReaction (Some (HChainCallback path k)) path (S (S n)) arg] (log s))).
  { rewrite (chain_eq s a xa ya f g Ha Hp). fold pa n k. subst ps1 ops1 ls1.
    rewrite Hq, Hst. destruct path; reflexivity. }
  (* the first job: the callback, then the promise derived by [then] *)
  set (out := if ob then Fulfilled oarg else Rejected oarg).
  set (s1q := State ps1 ops1 ls1 (cells s) [] (log s)).
  assert (Hnp1 : ps1 !! n = Some (Promise Pending [Reaction None (Some HNoop) (S n)]
                                          false true)).
  { subst ps1. rewrite lookup_app_r by (rewrite length_insert; subst n; lia).
    rewrite length_insert. fold n. now rewrite Nat.sub_diag. }
  assert (Hmc1 := Hmc s1q (Promise Pending [Reaction None (Some HNoop) (S n)] false true)).
  clear Hmc. subst s1q. cbn [links operations promises cells microtasks log] in Hmc1.
  specialize (Hmc1 (lookup_snoc _ _)).
  assert (Ha1 : ops1 !! a = Some xa) by (subst ops1; now apply lookup_app_l_Some).
  specialize (Hmc1 Ha1 Hnp1 eq_refl eq_refl).
  cbn [p_handled p_reactions map app reaction_job r_onFulfilled r_onRejected r_derived]
    in Hmc1.
  set (ps2 := <[S (S n) := Promise (Fulfilled VUndefined) [] true false]>
                (<[n := Promise out [] true true]> ps1)).
  set (j2 := JReaction (if ob then None else Some HNoop) ob (S n) oarg).
  set (s1 := State ps2 ops1 (links' ls1) (cells s) [j2] (lg' (log s))).
  assert (Hjob1 : run_job (JReaction (Some (HChainCallback path k)) path (S (S n)) arg)
                    (State ps1 ops1 ls1 (cells s) [] (log s)) = Some (tt, s1)).
  { cbn [run_job run_handler].
    erewrite bind_eq; [| erewrite bind_eq; [reflexivity | exact Hmc1]].
    cbv beta iota.
    erewrite resolve_fn_pending; cycle 1.
    - state_simpl. rewrite list_lookup_insert_ne by lia.
      subst ps1. rewrite lookup_app_r by (rewrite length_insert; subst n; lia).
      rewrite length_insert. fold n.
      replace (S (S n) - n) with 2 by lia. reflexivity.
    - reflexivity.
    - reflexivity.
    - reflexivity.
    - subst s1 ps2 j2 out. state_simpl. destruct ob; reflexivity. }
  (* the second job: that of [newPromise.catch(() => {})] *)
  set (s2 := State (<[S n := Promise (Fulfilled (if ob then oarg else VUndefined)) [] true
                                     false]> ps2)
                   ops1 (links' ls1) (cells s) [] (lg' (log s))).
  assert (Hjob2 : run_job j2 (State ps2 ops1 (links' ls1) (cells s) [] (lg' (log s)))
                  = Some (tt, s2)).
  { subst j2. erewrite catch_job_eq; cycle 1.
    - state_simpl. subst ps2. rewrite !list_lookup_insert_ne by lia.
      subst ps1. rewrite lookup_app_r by (rewrite length_insert; subst n; lia).
      rewrite length_insert. fold n.
      replace (S n - n) with 1 by lia. reflexivity.
    - reflexivity.
    - reflexivity.
    - exact Hv.
    - reflexivity. }
  exists s2. split.
  { rewrite (bind_eq _ _ _ _ _ Hchain).
    erewrite bind_eq; [reflexivity |].
    eapply run_microtasks_two; [reflexivity | exact Hjob1 | reflexivity | exact Hjob2 |
                                 reflexivity]. }
  split.
  { unfold result_state, promise_state. subst s2 ops1. state_simpl.
    rewrite lookup_snoc. cbn [op_promise]. subst ps2.
    rewrite !list_lookup_insert_ne by lia.
    rewrite list_lookup_insert_eq by lia. reflexivity. }
  repeat split.
Qed.

(** X8.  [b = a.chain(f, g)] when [a] has failed with [e] already (for
    instance [a = failed(e)]), the job queue being empty, once the jobs have
    run: without [onError] the result of [b] is rejected with [e] and no
    continuation is called, [onSuccess] in particular; with [onError]
    returning a plain value [r] the chain recovers, its result is fulfilled
    with [r]; with [onError] throwing [x] its result is rejected with [x].
    [onError] is called once, with [e]. *)
Theorem X8_chain_on_failed_operation (s : state) (a : oid) (xa : operation)
    (ya : promise) (e : value) (f g : option callback) (fuel : nat) :
  operations s !! a = Some xa ->
  promises s !! op_promise xa = Some ya ->
  p_state ya = Rejected e ->
  microtasks s = [] ->
  (g = None -> chain_result s a f g fuel (Rejected e) (log s)) /\
  (forall cb r, g = Some cb -> cb e = Return r -> plain r = true ->
     chain_result s a f g fuel (Fulfilled r)
                  (log s ++ [EvContinuation (length (links s)) false e])) /\
  (forall cb x, g = Some cb -> cb e = Throw x ->
     chain_result s a f g fuel (Rejected x)
                  (log s ++ [EvContinuation (length (links s)) false e])).
Proof.
  intros Ha Hp Hst Hq.
  split; [| split].
  - intros ->.
    destruct (chain_settled_run s a xa ya f None false e false e (fun l => l)
                (fun l => l) fuel Ha Hp Hst Hq) as (s2 & H & Hres & Hg & Hq2 & _).
    + discriminate.
    + intros s1 y Hk1 Ha1 Hy1 Hr1 Hs1.
      apply (makeCallback_pass s1 _ _ xa y Hk1 Ha1 Hy1 Hr1 Hs1 false e);
        [discriminate | reflexivity].
    + exists s2. auto.
  - intros cb r -> Hret Hpl.
    destruct (chain_settled_run s a xa ya f (Some cb) false e true r
                (fun l => <[length (links s) :=
                              ChainLink a (length (promises s)) f (Some cb) (DValue r)]> l)
                (fun l => l ++ [EvContinuation (length (links s)) false e])
                fuel Ha Hp Hst Hq) as (s2 & H & Hres & Hg & Hq2 & _).
    + intros _. now apply plain_not_thenable.
    + intros s1 y Hk1 Ha1 Hy1 Hr1 Hs1.
      apply (makeCallback_plain s1 _ _ xa y Hk1 Ha1 Hy1 Hr1 Hs1 false cb e r);
        [discriminate | reflexivity | exact Hret | exact Hpl].
    + exists s2. auto.
  - intros cb x -> Hthrow.
    destruct (chain_settled_run s a xa ya f (Some cb) false e false x
                (fun l => <[length (links s) :=
                              ChainLink a (length (promises s)) f (Some cb) DResolved]> l)
                (fun l => l ++ [EvContinuation (length (links s)) false e])
                fuel Ha Hp Hst Hq) as (s2 & H & Hres & Hg & Hq2 & _).
    + discriminate.
    + intros s1 y Hk1 Ha1 Hy1 Hr1 Hs1.
      apply (makeCallback_throw s1 _ _ xa y Hk1 Ha1 Hy1 Hr1 Hs1 false cb e x);
        [discriminate | reflexivity | exact Hthrow].
    + exists s2. auto.
Qed.

Lemma X8_chain_on_failed_operation_witness :
  chain_result (pair_state (VString "err")) 1 (Some double) None 0
               (Rejected (VString "err")) (log (pair_state (VString "err"))).
Proof.
  apply (X8_chain_on_failed_operation (pair_state (VString "err")) 1
           (Operation 1 AResolved None)
           (Promise (Rejected (VString "err")) [] true false) (VString "err")
           (Some double) None 0);
    reflexivity.
Defined.

(** X9.  [b = a.chain(f, g)] when [a] is fulfilled with [v] already, the job
    queue being empty, once the jobs have run: if an abort was requested on
    [a], the result of [b] is the abort error and [f] is not called; else
    without [f] it is [v]; with [f(v)] returning a plain value [r] it is
    [r]; with [f(v)] throwing [x] it is rejected with [x]. *)
Theorem X9_chain_on_completed_operation (s : state) (a : oid) (xa : operation)
    (ya : promise) (v : value) (f g : option callback) (fuel : nat) :
  operations s !! a = Some xa ->
  promises s !! op_promise xa = Some ya ->
  p_state ya = Fulfilled v ->
  microtasks s = [] ->
  (forall q, abortPromise_ xa = Some q ->
     chain_result s a f g fuel (Rejected abortError) (log s)) /\
  (abortPromise_ xa = None -> f = None -> thenable v = false ->
     chain_result s a f g fuel (Fulfilled v) (log s)) /\
  (forall cb r, abortPromise_ xa = None -> f = Some cb -> cb v = Return r ->
     plain r = true ->
     chain_result s a f g fuel (Fulfilled r)
                  (log s ++ [EvContinuation (length (links s)) true v])) /\
  (forall cb x, abortPromise_ xa = None -> f = Some cb -> cb v = Throw x ->
     chain_result s a f g fuel (Rejected x)
                  (log s ++ [EvContinuation (length (links s)) true v])).
Proof.
  intros Ha Hp Hst Hq.
  split; [| split; [| split]].
  - intros q Hab.
    destruct (chain_settled_run s a xa ya f g true v false abortError (fun l => l)
                (fun l => l) fuel Ha Hp Hst Hq) as (s2 & H & Hres & Hg & Hq2 & _).
    + discriminate.
    + intros s1 y Hk1 Ha1 Hy1 Hr1 Hs1.
      apply (makeCallback_guard s1 _ _ xa y Hk1 Ha1 Hy1 Hr1 Hs1 v q Hab).
    + exists s2. auto.
  - intros Hab -> Hv.
    destruct (chain_settled_run s a xa ya None g true v true v (fun l => l)
                (fun l => l) fuel Ha Hp Hst Hq) as (s2 & H & Hres & Hg & Hq2 & _).
    + intros _. exact Hv.
    + intros s1 y Hk1 Ha1 Hy1 Hr1 Hs1.
      apply (makeCallback_pass s1 _ _ xa y Hk1 Ha1 Hy1 Hr1 Hs1 true v);
        [auto | reflexivity].
    + exists s2. auto.
  - intros cb r Hab -> Hret Hpl.
    destruct (chain_settled_run s a xa ya (Some cb) g true v true r
                (fun l => <[length (links s) :=
                              ChainLink a (length (promises s)) (Some cb) g (DValue r)]> l)
                (fun l => l ++ [EvContinuation (length (links s)) true v])
                fuel Ha Hp Hst Hq) as (s2 & H & Hres & Hg & Hq2 & _).
    + intros _. now apply plain_not_thenable.
    + intros s1 y Hk1 Ha1 Hy1 Hr1 Hs1.
      apply (makeCallback_plain s1 _ _ xa y Hk1 Ha1 Hy1 Hr1 Hs1 true cb v r);
        [auto | reflexivity | exact Hret | exact Hpl].
    + exists s2. auto.
  - intros cb x Hab -> Hthrow.
    destruct (chain_settled_run s a xa ya (Some cb) g true v false x
                (fun l => <[length (links s) :=
                              ChainLink a (length (promises s)) (Some cb) g DResolved]> l)
                (fun l => l ++ [EvContinuation (length (links s)) true v])
                fuel Ha Hp Hst Hq) as (s2 & H & Hres & Hg & Hq2 & _).
    + discriminate.
    + intros s1 y Hk1 Ha1 Hy1 Hr1 Hs1.
      apply (makeCallback_throw s1 _ _ xa y Hk1 Ha1 Hy1 Hr1 Hs1 true cb v x);
        [auto | reflexivity | exact Hthrow].
    + exists s2. auto.
Qed.

Lemma X9_chain_on_completed_operation_witness :
  chain_result (pair_state (VString "err")) 0 (Some double) None 0
               (Fulfilled (VNumber 2))
               (log (pair_state (VString "err")) ++ [EvContinuation 0 true (VNumber 1)]).
Proof.
  apply (X9_chain_on_completed_operation (pair_state (VString "err")) 0
           (Operation 0 AResolved None)
           (Promise (Fulfilled (VNumber 1)) [] true false) (VNumber 1)
           (Some double) None 0) with (cb := double);
    reflexivity.
Defined.

(** [Promise.all([])]: fulfilled at once with the empty list. *)
Lemma promise_all_nil s :
  promise_all [] s =
  Some (length (promises s),
        State (promises s ++ [Promise (Fulfilled (VArray [])) [] true false])
              (operations s) (links s) (cells s ++ [AllCell (length (promises s)) [] [] 0])
              (microtasks s) (log s)).
Proof.
  unfold promise_all, new_promise.
  unfold bind at 1. unfold alloc_promise.
  unfold bind at 1. unfold alloc_cell. state_simpl.
  unfold bind at 1. cbn [promise_all_loop]. state_simpl.
  erewrite bind_eq; [| apply get_cell_eq; state_simpl; apply lookup_snoc].
  unfold bind at 1. state_simpl. cbn [a_remaining a_values a_called a_target pred Nat.eqb].
  erewrite bind_eq; cycle 1.
  { eapply resolve_fn_pending; state_simpl;
      [apply lookup_snoc | reflexivity | reflexivity | reflexivity]. }
  state_simpl. rewrite !insert_snoc, app_nil_r. reflexivity.
Qed.

(** X10.  [all([])] is fulfilled at once with the empty list, with no job
    scheduled; its [abort()] calls no other callback and returns a promise
    that is fulfilled already with the empty list, the same at each call. *)
Theorem X10_all_of_nothing (s : state) :
  exists o s1,
    all [] s = Some (o, s1) /\
    settled_for_good s1 o (Fulfilled (VArray [])) /\
    microtasks s1 = microtasks s /\ log s1 = log s /\
    forall fuel, exists q s2,
      abort (S fuel) o s1 = Some (q, s2) /\
      promise_state s2 q = Some (Fulfilled (VArray [])) /\
      microtasks s2 = microtasks s /\
      log s2 = log s ++ [EvOnAbort o] /\
      forall fuel', abort (S fuel') o s2 = Some (q, s2).
Proof.
  eexists _, _. split.
  { unfold all. cbn [mapM]. unfold bind at 1. unfold ret.
    rewrite (bind_eq _ _ _ _ _ (promise_all_nil s)). reflexivity. }
  unfold new, alloc_operation. state_simpl.
  split.
  { apply settled_for_good_intro; [| discriminate].
    unfold result_state, promise_state. state_simpl.
    rewrite lookup_snoc. cbn [op_promise]. now rewrite lookup_snoc. }
  split; [reflexivity |]. split; [reflexivity |].
  intros fuel. eexists _, _. split.
  { eapply abort_first with (rec := promise_all []).
    - state_simpl. apply lookup_snoc.
    - reflexivity.
    - intros s0. reflexivity.
    - apply promise_all_nil.
    - state_simpl. apply lookup_snoc. }
  state_simpl. split.
  { unfold promise_state. state_simpl. now rewrite lookup_snoc. }
  split; [reflexivity |]. split; [reflexivity |].
  intros fuel'. eapply abort_cached.
  - state_simpl. rewrite insert_snoc. apply lookup_snoc.
  - reflexivity.
Qed.

(** X11.  [all(ops)] leaves its members alone: as members are settled,
    fulfilled or rejected, and jobs run, in any order, no [onAbort_] and no
    continuation is called, and every member operation is as it was; a
    failing member does not abort the others. *)
Theorem X11_settlement_aborts_no_member (s : state) (ops : list oid)
    (members : list operation) (xs : list promise) :
  Forall2 (fun o m => operations s !! o = Some m) ops members ->
  NoDup (map op_promise members) ->
  Forall2 (quiet_member s) (map op_promise members) xs ->
  microtasks s = [] ->
  exists o s1,
    all ops s = Some (o, s1) /\
    log s1 = log s /\
    forall evs g,
      agg_run evs (agg_init (map p_state xs)) = Some g ->
      exists s2,
        agg_perform_all (map op_promise members) evs s1 = Some (tt, s2) /\
        log s2 = log s /\
        Forall2 (fun o m => operations s2 !! o = Some m) ops members.
Proof.
  intros Hops Hnd Hall Hq.
  destruct (all_inv_all s ops members xs Hops Hnd Hall Hq)
    as (s1 & Hrun & Ho1 & Hinv & _ & Hg1).
  exists (length (operations s)), s1. split; [exact Hrun |]. split; [exact Hg1 |].
  intros evs g Hg.
  destruct (all_inv_run _ _ _ _ _ _ _ Hinv Hg) as (s2 & Hrun2 & _ & Ho2 & _ & Hg2).
  exists s2. split; [exact Hrun2 |]. split; [congruence |].
  eapply Forall2_impl; [exact Hops |].
  intros o m Hm. rewrite Ho2, Ho1. now apply lookup_app_l_Some.
Qed.

Lemma X11_settlement_aborts_no_member_witness :
  exists o s1,
    all [0; 1] (pair_state (VString "err")) = Some (o, s1) /\
    log s1 = log (pair_state (VString "err")) /\
    forall evs g,
      agg_run evs (agg_init [Fulfilled (VNumber 1); Rejected (VString "err")]) = Some g ->
      exists s2,
        agg_perform_all [0; 1] evs s1 = Some (tt, s2) /\
        log s2 = log (pair_state (VString "err")) /\
        Forall2 (fun o m => operations s2 !! o = Some m) [0; 1]
                [Operation 0 AResolved None; Operation 1 AResolved None].
Proof.
  apply (X11_settlement_aborts_no_member (pair_state (VString "err")) [0; 1]
           [Operation 0 AResolved None; Operation 1 AResolved None]
           [Promise (Fulfilled (VNumber 1)) [] true false;
            Promise (Rejected (VString "err")) [] true false]).
  - repeat constructor.
  - apply NoDup_cons. split; [| apply NoDup_singleton].
    intros H%list_elem_of_singleton. discriminate.
  - repeat constructor; discriminate.
  - reflexivity.
Defined.

(** X12.  Let [b = a.chain(f, g)] whose continuation has returned a promise
    [p], still pending, which the promise of [b] follows.  Then [b.abort()]
    returns a new pending promise and does not call [a.onAbort_]; the result
    of [b] is still pending.  Once [p] is settled, fulfilled or rejected,
    and the two jobs scheduled have run, the result of [b] is the outcome of
    [p] and the promise returned by [abort()] is fulfilled with
    [undefined], never rejected. *)
Theorem X12_abort_waits_for_returned_promise (s : state) (a b : oid) (k : lid)
    (np p d0 : pid) (f g : option callback) (xa : operation) (y z : promise)
    (fuel : nat) :
  operations s !! b = Some (Operation np (AChain k) None) ->
  links s !! k = Some (ChainLink a np f g (DValue (VPromise p))) ->
  operations s !! a = Some xa -> a <> b ->
  promises s !! np = Some y -> p_state y = Pending ->
  promises s !! p = Some z ->
  p_state z = Pending -> p_resolved z = false ->
  p_reactions z = [Reaction (Some (HAdoptResolve np)) (Some (HAdoptReject np)) d0] ->
  promises s !! d0 = Some fresh_promise ->
  np <> p -> d0 <> np ->
  microtasks s = [] ->
  exists q s1,
    abort (S fuel) b s = Some (q, s1) /\
    promise_state s1 q = Some Pending /\
    microtasks s1 = [] /\
    onAbort_calls s1 a = onAbort_calls s a /\
    operations s1 !! a = Some xa /\
    result_state s1 b = Some Pending /\
    forall (fulfilled : bool) arg, (fulfilled = true -> thenable arg = false) ->
      exists s2,
        ((if fulfilled then resolve_fn p arg else reject_fn p arg) ;;; tick ;;; tick) s1
          = Some (tt, s2) /\
        result_state s2 b = Some (if fulfilled then Fulfilled arg else Rejected arg) /\
        promise_state s2 q = Some (Fulfilled VUndefined) /\
        forall acts s3, run acts s2 = Some (tt, s3) ->
          promise_state s3 q = Some (Fulfilled VUndefined).
Proof.
  intros Hb Hk Ha Hne Hy Hsy Hp Hsz Hrz Hrsz Hd0 Hnpp Hd0np Hq.
  pose proof (lookup_lt_Some _ _ _ Hb) as Hltb.
  pose proof (lookup_lt_Some _ _ _ Hp) as Hltp.
  pose proof (lookup_lt_Some _ _ _ Hy) as Hltnp.
  pose proof (lookup_lt_Some _ _ _ Hd0) as Hltd0.
  assert (Hd0p : d0 <> p).
  { intros ->. rewrite Hp in Hd0. injection Hd0 as ->. discriminate. }
  set (n := length (promises s)).
  assert (Hn : np < n /\ p < n /\ d0 < n) by (subst n; lia).
  set (adopt := Reaction (Some (HAdoptResolve np)) (Some (HAdoptReject np)) d0).
  set (ops1 := <[b := Operation np (AChain k) (Some n)]> (operations s)).
  set (s1 := State (<[p := Promise Pending [adopt; Reaction (Some HNoop) (Some HNoop) n]
                                   false true]> (promises s) ++ [fresh_promise])
                   ops1 (links s) (cells s) [] (log s ++ [EvOnAbort b])).
  assert (Hrun : abort (S fuel) b s = Some (n, s1)).
  { erewrite abort_first with (rec := call_delegate (abort fuel) k); cycle 1.
    - exact Hb.
    - reflexivity.
    - reflexivity.
    - unfold call_delegate.
      erewrite bind_eq; [| apply get_link_eq; state_simpl; exact Hk].
      cbn [l_abort promise_resolve]. unfold bind at 1. unfold ret.
      apply then__eq. state_simpl. exact Hp.
    - state_simpl. exact Hb.
    - subst s1 ops1 n adopt. state_simpl. rewrite Hq, Hsz, Hrz, Hrsz. reflexivity. }
  assert (Hb1 : ops1 !! b = Some (Operation np (AChain k) (Some n))).
  { subst ops1. now apply list_lookup_insert_eq. }
  exists n, s1. split; [exact Hrun |].
  split.
  { unfold promise_state. subst s1 n. state_simpl.
    rewrite lookup_snoc_eq by (now rewrite length_insert). reflexivity. }
  split; [reflexivity |].
  split.
  { unfold onAbort_calls. subst s1. state_simpl. rewrite count_app. simpl.
    destruct (Nat.eqb_spec b a); [congruence | lia]. }
  split; [subst s1 ops1; state_simpl; now rewrite list_lookup_insert_ne by lia |].
  split.
  { unfold result_state, promise_state. subst s1. state_simpl. rewrite Hb1.
    cbn [op_promise]. rewrite lookup_app_l by (now rewrite length_insert).
    rewrite list_lookup_insert_ne by lia. rewrite Hy. simpl. now rewrite Hsy. }
  intros fulfilled arg Hv.
  set (out := if fulfilled then Fulfilled arg else Rejected arg).
  set (ps1 := <[p := Promise out [] true true]> (promises s) ++ [fresh_promise]).
  set (j1 := JReaction (Some (if fulfilled then HAdoptResolve np else HAdoptReject np))
                       fulfilled d0 arg).
  set (j2 := JReaction (Some HNoop) fulfilled n arg).
  assert (Hsettle : (if fulfilled then resolve_fn p arg else reject_fn p arg) s1
                    = Some (tt, State ps1 ops1 (links s) (cells s) [j1; j2] (log s1))).
  { subst s1 ps1 out j1 j2 adopt. destruct fulfilled.
    - erewrite resolve_fn_pending; state_simpl; cycle 1.
      + apply lookup_app_l_Some. apply list_lookup_insert_eq. exact Hltp.
      + reflexivity.
      + reflexivity.
      + now apply Hv.
      + rewrite insert_app_l by (now rewrite length_insert).
        rewrite list_insert_insert_eq. reflexivity.
    - erewrite reject_fn_pending; state_simpl; cycle 1.
      + apply lookup_app_l_Some. apply list_lookup_insert_eq. exact Hltp.
      + reflexivity.
      + reflexivity.
      + rewrite insert_app_l by (now rewrite length_insert).
        rewrite list_insert_insert_eq. reflexivity. }
  assert (Hlen1 : length ps1 = S n).
  { subst ps1 n. rewrite length_app, length_insert. simpl. lia. }
  assert (Hnp1 : ps1 !! np = Some y).
  { subst ps1. rewrite lookup_app_l by (now rewrite length_insert).
    now rewrite list_lookup_insert_ne by lia. }
  assert (Hd01 : ps1 !! d0 = Some fresh_promise).
  { subst ps1. rewrite lookup_app_l by (now rewrite length_insert).
    now rewrite list_lookup_insert_ne by lia. }
  assert (Hn1 : ps1 !! n = Some fresh_promise).
  { subst ps1. apply lookup_snoc_eq. now rewrite length_insert. }
  (* the job of the adoption settles the promise of the chain *)
  set (ps2 := <[d0 := Promise (Fulfilled VUndefined) [] true false]>
                (<[np := Promise out [] (p_resolved y) (p_handled y)]> ps1)).
  set (q2 := [j2] ++ map (reaction_job fulfilled arg) (p_reactions y)).
  assert (Hjob1 : run_job j1 (State ps1 ops1 (links s) (cells s) [j2] (log s1))
                  = Some (tt, State ps2 ops1 (links s) (cells s) q2 (log s1))).
  { subst j1. cbn [run_job].
    assert (Hh : run_handler (if fulfilled then HAdoptResolve np else HAdoptReject np) arg
                   (State ps1 ops1 (links s) (cells s) [j2] (log s1))
                 = Some (Return VUndefined,
                         State (<[np := Promise out [] (p_resolved y) (p_handled y)]> ps1)
                               ops1 (links s) (cells s) q2 (log s1))).
    { subst out q2. destruct fulfilled; cbn [run_handler].
      - erewrite bind_eq; [reflexivity |]. unfold adopt_resolve.
        erewrite bind_eq; [| apply get_promise_eq; state_simpl; exact Hnp1].
        rewrite Hsy.
        assert (resolve_core np arg = settle_promise np true arg) as ->.
        { unfold resolve_core. specialize (Hv eq_refl). destruct arg; try reflexivity.
          discriminate. }
        erewrite settle_promise_pending; state_simpl;
          [reflexivity | exact Hnp1 | exact Hsy].
      - erewrite bind_eq; [reflexivity |]. unfold adopt_reject.
        erewrite settle_promise_pending; state_simpl;
          [reflexivity | exact Hnp1 | exact Hsy]. }
    rewrite (bind_eq _ _ _ _ _ Hh). cbv beta iota.
    erewrite resolve_fn_pending; cycle 1.
    - state_simpl. rewrite list_lookup_insert_ne by lia. exact Hd01.
    - reflexivity.
    - reflexivity.
    - reflexivity.
    - subst ps2. state_simpl. now rewrite app_nil_r. }
  (* the job of the abort promise *)
  set (ps3 := <[n := Promise (Fulfilled VUndefined) [] true false]> ps2).
  assert (Hjob2 : run_job j2 (State ps2 ops1 (links s) (cells s)
                                    (map (reaction_job fulfilled arg) (p_reactions y))
                                    (log s1))
                  = Some (tt, State ps3 ops1 (links s) (cells s)
                                    (map (reaction_job fulfilled arg) (p_reactions y))
                                    (log s1))).
  { subst j2. cbn [run_job run_handler]. unfold bind at 1. unfold ret.
    erewrite resolve_fn_pending; cycle 1.
    - state_simpl. subst ps2. rewrite !list_lookup_insert_ne by lia. exact Hn1.
    - reflexivity.
    - reflexivity.
    - reflexivity.
    - subst ps3. state_simpl. now rewrite app_nil_r. }
  eexists. split.
  { rewrite (bind_eq _ _ _ _ _ Hsettle).
    erewrite bind_eq; [| erewrite tick_eq by reflexivity; exact Hjob1].
    erewrite tick_eq by reflexivity. exact Hjob2. }
  assert (Hq3 : ps3 !! n = Some (Promise (Fulfilled VUndefined) [] true false)).
  { subst ps3 ps2. apply list_lookup_insert_eq. rewrite !length_insert. lia. }
  split.
  { unfold result_state, promise_state. state_simpl. rewrite Hb1. cbn [op_promise].
    subst ps3 ps2. rewrite !list_lookup_insert_ne by lia.
    rewrite list_lookup_insert_eq by lia. reflexivity. }
  split; [unfold promise_state; state_simpl; now rewrite Hq3 |].
  intros acts s3 Hacts.
  apply run_evolves in Hacts.
  eapply promise_state_evolves; [| | exact Hacts]; [| discriminate].
  unfold promise_state. state_simpl. now rewrite Hq3.
Qed.

Lemma X12_abort_waits_for_returned_promise_witness :
  exists q s1,
    abort (S 0) 1 following_state = Some (q, s1) /\
    promise_state s1 q = Some Pending /\
    microtasks s1 = [] /\
    onAbort_calls s1 0 = onAbort_calls following_state 0 /\
    operations s1 !! 0 = Some (Operation 0 AResolved None) /\
    result_state s1 1 = Some Pending /\
    forall (fulfilled : bool) arg, (fulfilled = true -> thenable arg = false) ->
      exists s2,
        ((if fulfilled then resolve_fn 1 arg else reject_fn 1 arg) ;;; tick ;;; tick) s1
          = Some (tt, s2) /\
        result_state s2 1 = Some (if fulfilled then Fulfilled arg else Rejected arg) /\
        promise_state s2 q = Some (Fulfilled VUndefined) /\
        forall acts s3, run acts s2 = Some (tt, s3) ->
          promise_state s3 q = Some (Fulfilled VUndefined).
Proof.
  apply (X12_abort_waits_for_returned_promise following_state 0 1 0 2 1 5
           (Some (returning (VPromise 1))) None (Operation 0 AResolved None)
           (Promise Pending [Reaction None (Some HNoop) 3] true true)
           (Promise Pending [Reaction (Some (HAdoptResolve 2)) (Some (HAdoptReject 2)) 5]
                    false true) 0);
    first [reflexivity | discriminate].
Defined.

(** ** shaka.media.GapJumpingController *)

Import GapJumpingController.

Section GapJumping.
Context {platform : Collaborators}.

Lemma update_seekingEventReceived_same (w : world) :
  update (set_seekingEventReceived_ (seekingEventReceived_ (this w))) w = w.
Proof. destruct w as [[] ? ? ? ? ?]; reflexivity. Qed.

Lemma update_prevReadyState_same (w : world) :
  update (set_prevReadyState_ (prevReadyState_ (this w))) w = w.
Proof. destruct w as [[] ? ? ? ? ?]; reflexivity. Qed.

Lemma onPollGapJump_jumps (w : world) :
  jumps w
    (match
       getGapIndex (buffered (video w)) (currentTime (video w))
         (gapDetectionThreshold (config_ (this w)))
     with
     | None => Returns w
     | Some gapIndex =>
       if (gapIndex =? 0) && negb (hadSegmentAppended_ (this w)) then Returns w else
       match TimeRanges_start (buffered (video w)) gapIndex with
       | None => Throws w
       | Some jumpTo =>
         let jumpTo :=
           if isLegacyEdge || isXboxOne || isTizen
           then
             let gapPadding := gapPadding (config_ (this w)) in
             PrimFloat.div
               (Math_ceil
                  (PrimFloat.mul (PrimFloat.add jumpTo gapPadding) 100%float))
               100%float
           else jumpTo in
         if negb (timeline_ (this w)) then Throws w else
         let seekEnd := seekRangeEnd w in
         if PrimFloat.leb seekEnd jumpTo then Returns w else
         let jumpSize := PrimFloat.sub jumpTo (currentTime (video w)) in
         if PrimFloat.ltb jumpSize BROWSER_GAP_TOLERANCE then Returns w else
         match
           (if gapIndex =? 0
            then Some (JumpBeforeStart jumpSize jumpTo)
            else
              gapStart ← TimeRanges_end (buffered (video w)) (gapIndex - 1);
              Some (JumpOverGap jumpSize gapStart jumpTo))
         with
         | None => Throws w
         | Some line =>
           let w0 := set_info (info w ++ [line]) w in
           let w1 :=
             set_seeks (seeks w0 ++ [jumpTo])
               (set_video (set_currentTime jumpTo (video w0)) w0) in
           let w2 :=
             if PrimFloat.eqb (currentTime (video w)) (startTime_ (this w1))
             then update (set_startTime_ jumpTo) w1
             else w1 in
           let w3 := update (set_gapsJumped_ (S (gapsJumped_ (this w2)))) w2 in
           if negb (onEvent_ (this w3)) then Throws w3 else
           Returns (set_dispatched (dispatched w3 ++ [GapJumped]) w3)
         end
       end
     end).
Proof.
  destruct (getGapIndex _ _ _) as [gapIndex |] eqn:Hgap; [| now apply jumps_no_gap].
  destruct (_ && _) eqn:Hfirst.
  { apply andb_true_iff in Hfirst as [Hzero%Nat.eqb_eq Hseg%negb_true_iff].
    subst gapIndex. now apply jumps_unbuffered_seek. }
  destruct (TimeRanges_start _ _) as [start |] eqn:Hstart.
  2: { apply jumps_no_range with gapIndex; [assumption |].
       unfold TimeRanges_start in Hstart.
       apply fmap_None, lookup_ge_None in Hstart. lia. }
  cbv zeta.
  set (jumpTo := if isLegacyEdge || isXboxOne || isTizen then _ else _).
  assert (Htarget : target w gapIndex = Some jumpTo).
  { unfold target. rewrite Hstart. reflexivity. }
  destruct (timeline_ (this w)) eqn:Htimeline; simpl negb; cbv iota.
  2: { now apply jumps_no_timeline with gapIndex. }
  destruct (PrimFloat.leb _ _) eqn:Hend.
  { now apply jumps_seek_end with gapIndex jumpTo. }
  destruct (PrimFloat.ltb _ _) eqn:Hsmall.
  { now apply jumps_small with gapIndex jumpTo. }
  assert (Hseg : gapIndex = 0 -> hadSegmentAppended_ (this w) = true).
  { intros ->. simpl in Hfirst. now apply negb_false_iff in Hfirst. }
  assert (Hprev : gapIndex <> 0 ->
            is_Some (TimeRanges_end (buffered (video w)) (gapIndex - 1))).
  { intros Hne. unfold TimeRanges_end, TimeRanges_start in *.
    destruct (buffered (video w) !! gapIndex) as [r |] eqn:Hr; [| discriminate].
    apply lookup_lt_Some in Hr.
    destruct (lookup_lt_is_Some_2 (buffered (video w)) (gapIndex - 1))
      as [r' Hr']; [lia |].
    rewrite Hr'. simpl. eauto. }
  destruct (gapIndex =? 0) eqn:Hzero.
  - apply Nat.eqb_eq in Hzero.
    pose proof (jumps_jumped w gapIndex jumpTo
                  (JumpBeforeStart (PrimFloat.sub jumpTo (currentTime (video w)))
                     jumpTo)
                  Hgap Hseg Htarget Htimeline Hend Hsmall) as Hj.
    subst gapIndex. specialize (Hj eq_refl).
    unfold jumped in Hj. simpl in *.
    destruct (onEvent_ (this w)) eqn:Hev;
      destruct (PrimFloat.eqb _ _) eqn:Hat; simpl; rewrite ?Hev; simpl;
      rewrite ?app_nil_r in Hj; exact Hj.
  - apply Nat.eqb_neq in Hzero. destruct (Hprev Hzero) as [gapStart HgapStart].
    rewrite HgapStart. simpl.
    pose proof (jumps_jumped w gapIndex jumpTo
                  (JumpOverGap (PrimFloat.sub jumpTo (currentTime (video w)))
                     gapStart jumpTo)
                  Hgap Hseg Htarget Htimeline Hend Hsmall) as Hj.
    apply Nat.eqb_neq in Hzero. rewrite Hzero in Hj.
    specialize (Hj (ex_intro _ gapStart (conj HgapStart eq_refl))).
    unfold jumped in Hj.
    destruct (onEvent_ (this w)) eqn:Hev;
      destruct (PrimFloat.eqb _ _) eqn:Hat; simpl; rewrite ?Hev; simpl;
      rewrite ?app_nil_r in Hj; exact Hj.
Qed.

Lemma onPollGapJump_polls (w : world) : polls w (onPollGapJump_ w).
Proof.
  unfold onPollGapJump_.
  destruct (video_ (this w)) eqn:Hvideo; simpl negb; cbv iota;
    [| now apply polls_released].
  destruct (readyState (video w) =? 0) eqn:Hready.
  { apply Nat.eqb_eq in Hready. now apply polls_not_ready. }
  apply Nat.eqb_neq in Hready.
  destruct (started_ (this w)) eqn:Hstarted; simpl negb; cbv iota;
    [| now apply polls_not_started].
  destruct (seeking (video w) && negb (seekingEventReceived_ (this w)))
    eqn:Hseeking.
  { apply andb_true_iff in Hseeking as [? ?%negb_true_iff].
    now apply polls_seeking. }
  assert (Hreceived :
    seeking (video w) = true -> seekingEventReceived_ (this w) = true).
  { intros Hs. rewrite Hs in Hseeking. now apply negb_false_iff in Hseeking. }
  assert (Hw1 :
    (if seeking (video w) then w else update (set_seekingEventReceived_ false) w)
    = update (set_seekingEventReceived_ (seeking (video w))) w).
  { destruct (seeking (video w)); [| reflexivity].
    rewrite <- (Hreceived eq_refl). symmetry.
    apply update_seekingEventReceived_same. }
  cbv zeta. rewrite Hw1.
  set (w1 := update (set_seekingEventReceived_ (seeking (video w))) w).
  change (video w1) with (video w).
  change (startTime_ (this w1)) with (startTime_ (this w)).
  destruct (paused (video w) && _) eqn:Hpaused.
  { apply andb_true_iff in Hpaused as [Hp Hwhere].
    apply polls_paused; try assumption.
    destruct (PrimFloat.eqb _ _); [| now right].
    destruct (autoplay (video w)); [discriminate | now left]. }
  assert (Hstart :
    paused (video w) = true ->
    autoplay (video w) = true /\
    PrimFloat.eqb (currentTime (video w)) (startTime_ (this w)) = true).
  { intros Hp. rewrite Hp in Hpaused. simpl in Hpaused.
    destruct (PrimFloat.eqb _ _); [| discriminate].
    destruct (autoplay (video w)); [now split | discriminate]. }
  assert (Hw2 :
    (if negb (readyState (video w) =? prevReadyState_ (this w1))
     then update (set_prevReadyState_ (readyState (video w))) w1
     else w1) = noticed w).
  { fold (noticed w).
    destruct (readyState (video w) =? prevReadyState_ (this w1)) eqn:Hprev;
      [| reflexivity].
    apply Nat.eqb_eq in Hprev. simpl. unfold noticed. fold w1.
     rewrite Hprev. symmetry. apply update_prevReadyState_same. }
  rewrite Hw2.
  destruct (poll_stallDetector_ (noticed w)) as [acted w'] eqn:Hpoll.
  destruct acted.
  { now apply polls_stalled. }
  apply polls_jumps with w'; try assumption.
  apply onPollGapJump_jumps.
Qed.

(** ** The stall detector *)

Lemma poll_stallDetector_shape (w : world) :
  exists d v,
    snd (poll_stallDetector_ w) = set_video v (update (set_stallDetector_ d) w) /\
    (stallDetector_ (this w) = None ->
     d = None /\ v = video w /\ fst (poll_stallDetector_ w) = false).
Proof.
  unfold poll_stallDetector_.
  destruct (stallDetector_ (this w)) as [d |] eqn:Hd.
  - destruct (StallDetector_poll d (video w)) as [[acted d'] v'].
    exists (Some d'), v'. split; [reflexivity | discriminate].
  - exists None, (video w). split; [| now intros _].
    simpl. rewrite <- Hd. destruct w as [[] ? ? ? ? ?]; reflexivity.
Qed.

(** [stall_shape H] writes the world after the poll [H] of the stall detector
    as the world before it with another detector and media element. *)
Ltac stall_shape H :=
  let d := fresh "d" in
  let v := fresh "v" in
  let Hshape := fresh "Hshape" in
  let Hnone := fresh "Hnone" in
  match type of H with
  | poll_stallDetector_ ?w = (_, ?w') =>
      destruct (poll_stallDetector_shape w) as (d & v & Hshape & Hnone);
      rewrite H in Hshape, Hnone; simpl fst in Hnone; simpl snd in Hshape;
      subst w'
  end.

(** ** [release] *)

Lemma release_eq (w : world) :
  release w =
  Returns
    (update
       (fun c =>
          Controller false false false (config_ c) false (started_ c)
            (seekingEventReceived_ c) (prevReadyState_ c) (startTime_ c)
            (gapsJumped_ c) None (hadSegmentAppended_ c) None)
       w).
Proof.
  destruct w as [[? ? ? ? em ? ? ? ? ? sd ? tm] ? ? ? ? ?].
  destruct em, sd, tm; reflexivity.
Qed.

(** Whether the jump was made from the start position. *)
Ltac at_start :=
  match goal with
  | |- context [PrimFloat.eqb ?a ?b] => destruct (PrimFloat.eqb a b); simpl
  end.

(** ** Every call keeps the accounts *)

Lemma onPollGapJump_accounted (w : world) :
  accounted w -> accounted (after (onPollGapJump_ w)).
Proof.
  intros Hacc.
  destruct (onPollGapJump_polls w) as
    [ ? | ? ? | ? ? | ? ? ? | ? ? ? ? ? ? | w' ? ? ? ? ? Hpoll
    | w' c ? ? ? ? ? Hpoll Hjumps];
    try exact Hacc.
  - stall_shape Hpoll. exact Hacc.
  - stall_shape Hpoll. destruct Hjumps; try exact Hacc.
    destruct Hacc as (Hev & Hn & Hd & Hi).
    unfold accounted, getGapsJumped, jumped in *. simpl in *.
    rewrite (Hev ltac:(assumption)).
    destruct (PrimFloat.eqb (currentTime v) _); simpl; rewrite !length_app; simpl;
      (split; [auto | split; [lia | split; lia]]).
Qed.

Lemma invoke_accounted (a : call) (w : world) :
  accounted w -> accounted (after (invoke a w)).
Proof.
  intros Hacc. destruct a; cbn [invoke].
  - rewrite release_eq. destruct Hacc as (Hev & Hrest).
    split; [discriminate | exact Hrest].
  - apply onPollGapJump_accounted. exact Hacc.
  - unfold onStarted. cbv zeta.
    destruct (negb _) eqn:Hvideo; [exact Hacc |].
    apply onPollGapJump_accounted.
    destruct (_ && _), (gapJumpTimer_ _); exact Hacc.
  - apply onPollGapJump_accounted. exact Hacc.
  - apply onPollGapJump_accounted. exact Hacc.
  - exact Hacc.
  - exact Hacc.
Qed.

Lemma run_calls_accounted (acts : list call) (w : world) :
  accounted w -> accounted (run_calls acts w).
Proof.
  revert w. induction acts as [| a acts IH]; intros w Hacc; [exact Hacc |].
  simpl. apply IH, invoke_accounted, Hacc.
Qed.

(** X13. From its construction on, whatever is called and whatever the browser
    does, [getGapsJumped()] is the number of the assignments to
    [video.currentTime] that the controller has made, and each of them came
    with one [GapJumped] event and one message of the log. *)
Theorem X13_gaps_jumped_counts_the_jumps
    (video : HTMLMediaElement) (timeline : number)
    (config : StreamingConfiguration) (stallDetector : option StallDetector)
    (acts : list call) :
  let w := run_calls acts (constructor video timeline config stallDetector) in
  getGapsJumped w = length (seeks w) /\
  length (dispatched w) = length (seeks w) /\
  length (info w) = length (seeks w).
Proof.
  apply (run_calls_accounted acts (constructor video timeline config stallDetector)).
  repeat split; reflexivity.
Qed.

(** ** Polls that do nothing *)

Lemma onPollGapJump_released (w : world) :
  video_ (this w) = false -> onPollGapJump_ w = Throws w.
Proof.
  intros Hvideo. unfold onPollGapJump_. now rewrite Hvideo.
Qed.

Lemma onPollGapJump_not_started (w : world) :
  started_ (this w) = false -> after (onPollGapJump_ w) = w.
Proof.
  intros Hstarted.
  destruct (onPollGapJump_polls w); try reflexivity; congruence.
Qed.

Lemma onPollGapJump_seeking (w : world) :
  seeking (video w) = true -> seekingEventReceived_ (this w) = false ->
  after (onPollGapJump_ w) = w.
Proof.
  intros Hseeking Hreceived.
  destruct (onPollGapJump_polls w) as
    [ ? | ? ? | ? ? | ? ? ? | ? ? ? Hr ? ? | w' ? ? ? Hr ? ?
    | w' c ? ? ? Hr ? ? ?];
    try reflexivity; specialize (Hr Hseeking); congruence.
Qed.

Lemma onPollGapJump_paused (w : world) :
  paused (video w) = true -> autoplay (video w) = false ->
  after (onPollGapJump_ w) = w \/
  after (onPollGapJump_ w)
  = update (set_seekingEventReceived_ (seeking (video w))) w.
Proof.
  intros Hpaused Hautoplay.
  destruct (onPollGapJump_polls w) as
    [ ? | ? ? | ? ? | ? ? ? | ? ? ? ? ? ? | w' ? ? ? ? Hp ?
    | w' c ? ? ? ? Hp ? ?];
    try (now left); try (now right);
    destruct (Hp Hpaused); congruence.
Qed.

(** ** Before [onStarted] *)

Lemma same_output_refl (w : world) : same_output w w.
Proof. repeat split. Qed.

Lemma same_output_trans (w1 w2 w3 : world) :
  same_output w1 w2 -> same_output w2 w3 -> same_output w1 w3.
Proof.
  unfold same_output. intros (? & ? & ? & ?) (? & ? & ? & ?).
  repeat split; congruence.
Qed.

Lemma invoke_not_started (a : call) (w : world) :
  started_ (this w) = false -> is_OnStarted a = false ->
  started_ (this (after (invoke a w))) = false /\
  same_output w (after (invoke a w)).
Proof.
  intros Hstarted Ha. destruct a; try discriminate; cbn [invoke].
  - rewrite release_eq. split; [exact Hstarted | repeat split].
  - unfold onSegmentAppended. cbv zeta.
    rewrite onPollGapJump_not_started by exact Hstarted.
    split; [exact Hstarted | repeat split].
  - unfold onSeeking. cbv zeta.
    rewrite onPollGapJump_not_started by exact Hstarted.
    split; [exact Hstarted | repeat split].
  - rewrite onPollGapJump_not_started by exact Hstarted.
    split; [exact Hstarted | repeat split].
  - split; [exact Hstarted | repeat split].
  - split; [exact Hstarted | repeat split].
Qed.

(** X14. Until [onStarted] is called the controller does nothing to the
    outside: whatever else is called and whatever the browser does, it assigns
    no [currentTime], raises no event, logs nothing, and counts no gap. *)
Theorem X14_nothing_before_onStarted (w : world) (acts : list call) :
  started_ (this w) = false ->
  Forall (fun a => is_OnStarted a = false) acts ->
  same_output w (run_calls acts w).
Proof.
  intros Hstarted Hacts. revert w Hstarted.
  induction Hacts as [| a acts Ha _ IH]; intros w Hstarted;
    [apply same_output_refl |].
  destruct (invoke_not_started a w Hstarted Ha) as [Hstarted' Hsame].
  simpl. eapply same_output_trans; [exact Hsame |]. apply IH, Hstarted'.
Qed.

(** ** After [onSeeking], before [onSegmentAppended] *)

Lemma onPollGapJump_unbuffered (w : world) :
  hadSegmentAppended_ (this w) = false ->
  hadSegmentAppended_ (this (after (onPollGapJump_ w))) = false /\
  exists lines,
    info (after (onPollGapJump_ w)) = info w ++ lines /\
    Forall (fun line => before_start line = false) lines.
Proof.
  intros Hhad.
  assert (Hnil : forall w' : world,
            hadSegmentAppended_ (this w') = false -> info w' = info w ->
            hadSegmentAppended_ (this w') = false /\
            exists lines,
              info w' = info w ++ lines /\
              Forall (fun line => before_start line = false) lines).
  { intros w' ? Hinfo. split; [assumption |]. exists [].
    rewrite app_nil_r. split; [exact Hinfo | constructor]. }
  destruct (onPollGapJump_polls w) as
    [ ? | ? ? | ? ? | ? ? ? | ? ? ? ? ? ? | w' ? ? ? ? ? Hpoll
    | w' c ? ? ? ? ? Hpoll Hjumps];
    try (now apply Hnil).
  - stall_shape Hpoll. now apply Hnil.
  - stall_shape Hpoll.
    destruct Hjumps as
      [ ? | ? ? | ? ? ? | ? ? ? | ? ? ? ? ? | ? ? ? ? ?
      | gapIndex jumpTo line ? Hseg ? ? ? ? Hline ];
      try (now apply Hnil).
    simpl in Hseg, Hline.
    destruct (gapIndex =? 0) eqn:Hzero.
    { apply Nat.eqb_eq in Hzero. specialize (Hseg Hzero). congruence. }
    destruct Hline as (gapStart & _ & ->).
    assert (Hout :
      hadSegmentAppended_
        (this (jumped (set_video v (update (set_stallDetector_ d) (noticed w)))
                 jumpTo
                 (JumpOverGap (PrimFloat.sub jumpTo (currentTime v)) gapStart
                    jumpTo))) = false).
    { unfold jumped. simpl. at_start; exact Hhad. }
    destruct (onEvent_ _); (split; [exact Hout |]);
      eexists [_]; (split; [reflexivity |]); repeat constructor.
Qed.

Lemma invoke_unbuffered (a : call) (w : world) :
  hadSegmentAppended_ (this w) = false \/ a = OnSeeking ->
  is_OnSegmentAppended a = false ->
  hadSegmentAppended_ (this (after (invoke a w))) = false /\
  exists lines,
    info (after (invoke a w)) = info w ++ lines /\
    Forall (fun line => before_start line = false) lines.
Proof.
  intros Hhad Ha.
  assert (Hnil : forall w' : world,
            hadSegmentAppended_ (this w') = false -> info w' = info w ->
            hadSegmentAppended_ (this w') = false /\
            exists lines,
              info w' = info w ++ lines /\
              Forall (fun line => before_start line = false) lines).
  { intros w' ? Hinfo. split; [assumption |]. exists [].
    rewrite app_nil_r. split; [exact Hinfo | constructor]. }
  destruct a; try discriminate; cbn [invoke].
  - destruct Hhad as [Hhad | ?]; [| discriminate].
    rewrite release_eq. now apply Hnil.
  - destruct Hhad as [Hhad | ?]; [| discriminate].
    unfold onStarted. cbv zeta.
    destruct (negb _); [now apply Hnil |].
    destruct (_ && _), (gapJumpTimer_ _);
      match goal with
      | |- context [onPollGapJump_ ?w0] =>
          change (info w) with (info w0); apply onPollGapJump_unbuffered
      end;
      exact Hhad.
  - unfold onSeeking. cbv zeta.
    match goal with
    | |- context [onPollGapJump_ ?w0] =>
        change (info w) with (info w0); apply onPollGapJump_unbuffered
    end.
    reflexivity.
  - destruct Hhad as [Hhad | ?]; [| discriminate].
    now apply onPollGapJump_unbuffered.
  - destruct Hhad as [Hhad | ?]; [| discriminate]. now apply Hnil.
  - destruct Hhad as [Hhad | ?]; [| discriminate]. now apply Hnil.
Qed.

Lemma run_calls_unbuffered (acts : list call) (w : world) :
  hadSegmentAppended_ (this w) = false ->
  Forall (fun a => is_OnSegmentAppended a = false) acts ->
  exists lines,
    info (run_calls acts w) = info w ++ lines /\
    Forall (fun line => before_start line = false) lines.
Proof.
  intros Hhad Hacts. revert w Hhad.
  induction Hacts as [| a acts Ha _ IH]; intros w Hhad.
  - exists []. rewrite app_nil_r. split; [reflexivity | constructor].
  - destruct (invoke_unbuffered a w (or_introl Hhad) Ha)
      as (Hhad' & lines & Hinfo & Hlines).
    destruct (IH _ Hhad') as (lines' & Hinfo' & Hlines').
    exists (lines ++ lines'). simpl. rewrite Hinfo', Hinfo, app_assoc.
    split; [reflexivity | now apply Forall_app].
Qed.

(** X15. A seek may land before everything that is buffered, which is no gap.
    From a call of [onSeeking] until the next call of [onSegmentAppended],
    whatever else is called and whatever the browser does, the controller
    makes no jump to the first buffered range: none of its messages is the
    one of a gap before the start. *)
Theorem X15_no_jump_to_the_first_range_after_a_seek
    (w : world) (acts : list call) :
  Forall (fun a => is_OnSegmentAppended a = false) acts ->
  exists lines,
    info (run_calls (OnSeeking :: acts) w) = info w ++ lines /\
    Forall (fun line => before_start line = false) lines.
Proof.
  intros Hacts.
  destruct (invoke_unbuffered OnSeeking w (or_intror eq_refl) eq_refl)
    as (Hhad & lines & Hinfo & Hlines).
  destruct (run_calls_unbuffered acts _ Hhad Hacts) as (lines' & Hinfo' & Hlines').
  exists (lines ++ lines'). cbn [run_calls]. rewrite Hinfo', Hinfo, app_assoc.
  split; [reflexivity | now apply Forall_app].
Qed.

(** ** After [release] *)

Lemma release_released (w : world) : released (after (release w)).
Proof. rewrite release_eq. repeat split. Qed.

Lemma release_again (w : world) :
  released w -> release w = Returns w.
Proof.
  intros (Hev & Hvideo & Htimeline & Hmanager & Hdetector & Htimer).
  rewrite release_eq. f_equal.
  destruct w as [[] ? ? ? ? ?]. simpl in *. now subst.
Qed.

Lemma invoke_released (a : call) (w : world) :
  released w ->
  released (after (invoke a w)) /\ same_output w (after (invoke a w)) /\
  (reads_video a = true -> exists w', invoke a w = Throws w').
Proof.
  intros Hreleased.
  pose proof Hreleased as (Hev & Hvideo & Htimeline & Hmanager & Hdetector & Htimer).
  destruct a; cbn [invoke].
  - rewrite release_again by exact Hreleased.
    split; [exact Hreleased |]. split; [repeat split | discriminate].
  - unfold onSegmentAppended. cbv zeta.
    rewrite onPollGapJump_released by exact Hvideo.
    split; [exact Hreleased |]. split; [repeat split | eauto].
  - unfold onStarted. cbv zeta. simpl. rewrite Hvideo. simpl.
    split; [exact Hreleased |]. split; [repeat split | eauto].
  - unfold onSeeking. cbv zeta.
    rewrite onPollGapJump_released by exact Hvideo.
    split; [exact Hreleased |]. split; [repeat split | eauto].
  - rewrite onPollGapJump_released by exact Hvideo.
    split; [exact Hreleased |]. split; [repeat split | eauto].
  - split; [exact Hreleased |]. split; [repeat split | discriminate].
  - split; [exact Hreleased |]. split; [repeat split | discriminate].
Qed.

Lemma run_calls_released (acts : list call) (w : world) :
  released w -> released (run_calls acts w) /\ same_output w (run_calls acts w).
Proof.
  revert w. induction acts as [| a acts IH]; intros w Hreleased.
  - split; [exact Hreleased | repeat split].
  - destruct (invoke_released a w Hreleased) as (Hreleased' & Hsame & _).
    destruct (IH _ Hreleased') as (Hreleased'' & Hsame').
    split; [exact Hreleased'' |].
    eapply same_output_trans; [exact Hsame | exact Hsame'].
Qed.

(** X16. [release()] never throws and may be called twice.  After it,
    whatever is called and whatever the browser does, the controller assigns no
    [currentTime], raises no event, logs nothing and counts no gap; it has no
    stall detector and no timer; and every call that reads the media element
    ([onSegmentAppended], [onStarted], [onSeeking], a poll) throws. *)
Theorem X16_nothing_after_release (w : world) (acts : list call) :
  let w0 := after (release w) in
  let w' := run_calls acts w0 in
  release w = Returns w0 /\ release w0 = Returns w0 /\
  same_output w w' /\
  stallDetector_ (this w') = None /\ gapJumpTimer_ (this w') = None /\
  forall a, reads_video a = true -> exists w'', invoke a w' = Throws w''.
Proof.
  cbv zeta.
  pose proof (release_released w) as Hreleased.
  destruct (run_calls_released acts _ Hreleased) as (Hreleased' & Hsame).
  split; [now rewrite release_eq |].
  split; [now apply release_again |].
  split.
  { eapply same_output_trans; [| exact Hsame]. rewrite release_eq.
    repeat split. }
  split; [apply Hreleased' |]. split; [apply Hreleased' |].
  intros a Ha. now apply invoke_released.
Qed.

(** ** Before [release] *)

Lemma onPollGapJump_alive (w : world) :
  (forall b time threshold gapIndex,
     getGapIndex b time threshold = Some gapIndex -> gapIndex < length b) ->
  alive w ->
  exists w', onPollGapJump_ w = Returns w' /\ alive w'.
Proof.
  intros Hvalid Halive.
  pose proof Halive as (Hvideo & Htimeline & Hev).
  destruct (onPollGapJump_polls w) as
    [ ? | ? ? | ? ? | ? ? ? | ? ? ? ? ? ? | w' ? ? ? ? ? Hpoll
    | w' c ? ? ? ? ? Hpoll Hjumps];
    try (eexists; split; [reflexivity | exact Halive]).
  - congruence.
  - stall_shape Hpoll. eexists; split; [reflexivity | exact Halive].
  - stall_shape Hpoll.
    destruct Hjumps as
      [ ? | ? ? | gapIndex Hgap Hrange | ? ? Hnone' | ? ? ? ? ? | ? ? ? ? ?
      | gapIndex jumpTo line ? Hseg ? ? ? ? Hline ];
      try (eexists; split; [reflexivity | exact Halive]).
    + apply Hvalid in Hgap. simpl in *. lia.
    + simpl in *. congruence.
    + simpl onEvent_. rewrite Hev.
      eexists; split; [reflexivity |].
      unfold alive, jumped. simpl. at_start; repeat split; assumption.
Qed.

Lemma invoke_alive (a : call) (w : world) :
  (forall b time threshold gapIndex,
     getGapIndex b time threshold = Some gapIndex -> gapIndex < length b) ->
  alive w -> is_Release a = false ->
  exists w', invoke a w = Returns w' /\ alive w'.
Proof.
  intros Hvalid Halive Ha.
  pose proof Halive as (Hvideo & Htimeline & Hev).
  destruct a; try discriminate; cbn [invoke].
  - apply onPollGapJump_alive; [exact Hvalid | exact Halive].
  - unfold onStarted. cbv zeta. simpl. rewrite Hvideo. simpl.
    apply onPollGapJump_alive; [exact Hvalid |].
    destruct (_ && _), (gapJumpTimer_ _); exact Halive.
  - apply onPollGapJump_alive; [exact Hvalid | exact Halive].
  - apply onPollGapJump_alive; [exact Hvalid | exact Halive].
  - eexists; split; [reflexivity | exact Halive].
  - eexists; split; [reflexivity | exact Halive].
Qed.

(** X17. A controller that was not released throws nothing, provided that
    [getGapIndex] answers with the index of a buffered range: from the
    construction on, every call of a sequence without [release] returns. *)
Theorem X17_no_exception_before_release
    (video : HTMLMediaElement) (timeline : number)
    (config : StreamingConfiguration) (stallDetector : option StallDetector)
    (acts : list call) :
  (forall b time threshold gapIndex,
     getGapIndex b time threshold = Some gapIndex -> gapIndex < length b) ->
  Forall (fun a => is_Release a = false) acts ->
  completes acts (constructor video timeline config stallDetector) = true.
Proof.
  intros Hvalid Hacts.
  assert (Halive : alive (constructor video timeline config stallDetector))
    by (repeat split).
  revert Halive. generalize (constructor video timeline config stallDetector).
  induction Hacts as [| a acts Ha _ IH]; intros w Halive; [reflexivity |].
  destruct (invoke_alive a w Hvalid Halive Ha) as (w' & Hperform & Halive').
  simpl. rewrite Hperform. apply IH, Halive'.
Qed.

(** ** A paused media element *)

Lemma invoke_paused (a : call) (w : world) :
  paused (video w) = true -> autoplay (video w) = false ->
  keeps (fun v => paused v && negb (autoplay v)) a = true ->
  paused (video (after (invoke a w))) = true /\
  autoplay (video (after (invoke a w))) = false /\
  same_output w (after (invoke a w)).
Proof.
  intros Hpaused Hautoplay Ha.
  assert (Hpoll : forall w0 : world,
            paused (video w0) = true -> autoplay (video w0) = false ->
            paused (video (after (onPollGapJump_ w0))) = true /\
            autoplay (video (after (onPollGapJump_ w0))) = false /\
            same_output w0 (after (onPollGapJump_ w0))).
  { intros w0 Hp Ha0.
    destruct (onPollGapJump_paused w0 Hp Ha0) as [-> | ->];
      (split; [exact Hp |]); (split; [exact Ha0 |]); repeat split. }
  destruct a; cbn [invoke].
  - rewrite release_eq. split; [exact Hpaused |]. split; [exact Hautoplay |].
    repeat split.
  - apply (Hpoll (update (set_hadSegmentAppended_ true) w) Hpaused Hautoplay).
  - unfold onStarted. cbv zeta.
    destruct (negb _).
    { split; [exact Hpaused |]. split; [exact Hautoplay |]. repeat split. }
    destruct (_ && _), (gapJumpTimer_ _);
      match goal with
      | |- context [onPollGapJump_ ?w0] => apply (Hpoll w0 Hpaused Hautoplay)
      end.
  - unfold onSeeking. cbv zeta.
    match goal with
    | |- context [onPollGapJump_ ?w0] => apply (Hpoll w0 Hpaused Hautoplay)
    end.
  - apply (Hpoll w Hpaused Hautoplay).
  - simpl in *. apply andb_true_iff in Ha as [Hp Ha%negb_true_iff].
    split; [exact Hp |]. split; [exact Ha |]. repeat split.
  - split; [exact Hpaused |]. split; [exact Hautoplay |]. repeat split.
Qed.

(** X18. A media element that is paused and does not play automatically is
    left where it is: as long as it stays so, whatever is called, the
    controller assigns no [currentTime], raises no event, logs nothing and
    counts no gap. *)
Theorem X18_paused_without_autoplay_is_left_alone
    (w : world) (acts : list call) :
  paused (video w) = true -> autoplay (video w) = false ->
  Forall (fun a => keeps (fun v => paused v && negb (autoplay v)) a = true)
    acts ->
  same_output w (run_calls acts w).
Proof.
  intros Hpaused Hautoplay Hacts. revert w Hpaused Hautoplay.
  induction Hacts as [| a acts Ha _ IH]; intros w Hpaused Hautoplay;
    [repeat split |].
  destruct (invoke_paused a w Hpaused Hautoplay Ha)
    as (Hpaused' & Hautoplay' & Hsame).
  simpl. eapply same_output_trans; [exact Hsame |]. now apply IH.
Qed.

(** ** A seek that was not announced *)

Lemma invoke_seeking (a : call) (w : world) :
  seeking (video w) = true -> seekingEventReceived_ (this w) = false ->
  is_OnSeeking a = false -> is_OnStarted a = false ->
  keeps seeking a = true ->
  seeking (video (after (invoke a w))) = true /\
  seekingEventReceived_ (this (after (invoke a w))) = false /\
  same_output w (after (invoke a w)).
Proof.
  intros Hseeking Hreceived Ha Ha' Ha''.
  destruct a; try discriminate; cbn [invoke].
  - rewrite release_eq. split; [exact Hseeking |].
    split; [exact Hreceived | repeat split].
  - unfold onSegmentAppended. cbv zeta.
    rewrite onPollGapJump_seeking by assumption.
    split; [exact Hseeking |]. split; [exact Hreceived | repeat split].
  - rewrite onPollGapJump_seeking by assumption.
    split; [exact Hseeking |]. split; [exact Hreceived | repeat split].
  - split; [exact Ha'' |]. split; [exact Hreceived | repeat split].
  - split; [exact Hseeking |]. split; [exact Hreceived | repeat split].
Qed.

(** X19. No jump during a seek that the controller was not told of: while the
    media element is seeking and neither [onSeeking] nor [onStarted] has been
    called for that seek, whatever else is called, the controller assigns no
    [currentTime], raises no event, logs nothing and counts no gap. *)
Theorem X19_no_jump_during_an_unannounced_seek
    (w : world) (acts : list call) :
  seeking (video w) = true -> seekingEventReceived_ (this w) = false ->
  Forall
    (fun a =>
       is_OnSeeking a = false /\ is_OnStarted a = false /\
       keeps seeking a = true)
    acts ->
  same_output w (run_calls acts w).
Proof.
  intros Hseeking Hreceived Hacts. revert w Hseeking Hreceived.
  induction Hacts as [| a acts (Ha & Ha' & Ha'') _ IH];
    intros w Hseeking Hreceived; [repeat split |].
  destruct (invoke_seeking a w Hseeking Hreceived Ha Ha' Ha'')
    as (Hseeking' & Hreceived' & Hsame).
  simpl. eapply same_output_trans; [exact Hsame |]. now apply IH.
Qed.

(** ** The jumps *)

Lemma poll_stallDetector_watched (w : world) (acted : bool) (w' : world) :
  poll_stallDetector_ w = (acted, w') -> video w' = watched w.
Proof.
  unfold poll_stallDetector_, watched.
  destruct (stallDetector_ (this w)) as [d |].
  - destruct (StallDetector_poll d (video w)) as [[? ?] ?].
    intros [= _ <-]. reflexivity.
  - intros [= _ <-]. reflexivity.
Qed.

Lemma no_jump {A : Type} (l : list A) (x : A) : l = l ++ [x] -> False.
Proof.
  intros H. apply (f_equal length) in H. rewrite length_app in H. simpl in H. lia.
Qed.

Lemma onPollGapJump_limits (w : world) :
  same_output w (after (onPollGapJump_ w)) \/
  exists jumpTo line,
    seeks (after (onPollGapJump_ w)) = seeks w ++ [jumpTo] /\
    info (after (onPollGapJump_ w)) = info w ++ [line] /\
    jumpTo_of line = jumpTo /\
    getGapsJumped (after (onPollGapJump_ w)) = S (getGapsJumped w) /\
    dispatched (after (onPollGapJump_ w))
    = dispatched w ++ (if onEvent_ (this w) then [GapJumped] else []) /\
    PrimFloat.leb (seekRangeEnd w) jumpTo = false /\
    PrimFloat.ltb (jumpSize_of line) BROWSER_GAP_TOLERANCE = false /\
    readyState (video w) <> 0.
Proof.
  destruct (onPollGapJump_polls w) as
    [ ? | ? ? | ? ? | ? ? ? | ? ? ? ? ? ? | w' ? ? ? ? ? Hpoll
    | w' c ? Hready ? ? ? Hpoll Hjumps];
    try solve [left; repeat split].
  - stall_shape Hpoll. left; repeat split.
  - stall_shape Hpoll.
    destruct Hjumps as
      [ ? | ? ? | ? ? ? | ? ? ? | ? ? ? ? ? | ? ? ? ? ?
      | gapIndex jumpTo line ? Hseg ? ? Hend Hsmall Hline ];
      try solve [left; repeat split].
    right. exists jumpTo, line.
    assert (Hsays :
      jumpTo_of line = jumpTo /\
      jumpSize_of line = PrimFloat.sub jumpTo (currentTime v)).
    { simpl in Hline. destruct (gapIndex =? 0).
      - subst line. now split.
      - destruct Hline as (gapStart & _ & ->). now split. }
    destruct Hsays as [Hto Hsize]. rewrite Hsize.
    simpl in Hend, Hsmall.
    unfold jumped, getGapsJumped. simpl.
    destruct (onEvent_ (this w)); simpl;
      repeat (split; [first [reflexivity | assumption] |]); assumption.
Qed.

(** X20. A call makes at most one jump, whichever it is, and a jump is kept
    within its limits: the counter of the gaps goes up by one, [onEvent] is
    called once, one message is logged, and it names the time that is assigned
    to [currentTime]; that time is not at or beyond the end of the seek range
    ([jumpTo >= seekEnd] is false), the size of the jump is not below
    [BROWSER_GAP_TOLERANCE], and the media element had data ([readyState] was
    not 0). *)
Theorem X20_a_jump_is_within_its_limits (a : call) (w : world) :
  let w' := after (invoke a w) in
  same_output w w' \/
  exists jumpTo line,
    seeks w' = seeks w ++ [jumpTo] /\
    info w' = info w ++ [line] /\
    jumpTo_of line = jumpTo /\
    getGapsJumped w' = S (getGapsJumped w) /\
    dispatched w'
    = dispatched w ++ (if onEvent_ (this w) then [GapJumped] else []) /\
    PrimFloat.leb (seekRangeEnd w) jumpTo = false /\
    PrimFloat.ltb (jumpSize_of line) BROWSER_GAP_TOLERANCE = false /\
    readyState (video w) <> 0.
Proof.
  cbv zeta. destruct a; cbn [invoke].
  - rewrite release_eq. left; repeat split.
  - exact (onPollGapJump_limits (update (set_hadSegmentAppended_ true) w)).
  - unfold onStarted. cbv zeta.
    destruct (negb _); [left; repeat split |].
    destruct (_ && _), (gapJumpTimer_ _);
      match goal with
      | |- context [onPollGapJump_ ?w0] => exact (onPollGapJump_limits w0)
      end.
  - unfold onSeeking. cbv zeta.
    match goal with
    | |- context [onPollGapJump_ ?w0] => exact (onPollGapJump_limits w0)
    end.
  - exact (onPollGapJump_limits w).
  - left; repeat split.
  - left; repeat split.
Qed.

Lemma onPollGapJump_target (w : world) (jumpTo : number) :
  seeks (after (onPollGapJump_ w)) = seeks w ++ [jumpTo] ->
  exists gapIndex start,
    getGapIndex (buffered (watched w)) (currentTime (watched w))
      (gapDetectionThreshold (config_ (this w))) = Some gapIndex /\
    TimeRanges_start (buffered (watched w)) gapIndex = Some start /\
    jumpTo
    = (if isLegacyEdge || isXboxOne || isTizen
       then
         PrimFloat.div
           (Math_ceil
              (PrimFloat.mul
                 (PrimFloat.add start (gapPadding (config_ (this w))))
                 100%float))
           100%float
       else start) /\
    video (after (onPollGapJump_ w)) = set_currentTime jumpTo (watched w).
Proof.
  intros Hseeks.
  destruct (onPollGapJump_polls w) as
    [ ? | ? ? | ? ? | ? ? ? | ? ? ? ? ? ? | w' ? ? ? ? ? Hpoll
    | w' c ? Hready ? ? ? Hpoll Hjumps];
    try (now apply no_jump in Hseeks).
  - stall_shape Hpoll. now apply no_jump in Hseeks.
  - pose proof (poll_stallDetector_watched _ _ _ Hpoll) as Hwatched.
    change (watched (noticed w)) with (watched w) in Hwatched.
    stall_shape Hpoll. simpl in Hwatched. subst v.
    destruct Hjumps as
      [ ? | ? ? | ? ? ? | ? ? ? | ? ? ? ? ? | ? ? ? ? ?
      | gapIndex jumpTo' line Hgap Hseg Htarget ? Hend Hsmall Hline ];
      try (now apply no_jump in Hseeks).
    assert (jumpTo' = jumpTo) as ->.
    { destruct (onEvent_ _); simpl in Hseeks;
        apply app_inv_head in Hseeks; congruence. }
    unfold target in Htarget. simpl in Htarget, Hgap.
    destruct (TimeRanges_start (buffered (watched w)) gapIndex) as [start |]
      eqn:Hstart; [| discriminate].
    simpl in Htarget. injection Htarget as Htarget.
    exists gapIndex, start.
    split; [exact Hgap |]. split; [exact Hstart |].
    split; [now symmetry |].
    destruct (onEvent_ _); reflexivity.
Qed.

(** X21. Where a jump goes, whichever call makes it: to the start of the
    buffered range that [getGapIndex] names for the media element as the stall
    detector leaves it; on Legacy Edge, Xbox One and Tizen that start has the
    padding of the configuration added and is rounded up to hundredths. *)
Theorem X21_a_jump_goes_to_the_start_of_a_buffered_range
    (a : call) (w : world) (jumpTo : number) :
  seeks (after (invoke a w)) = seeks w ++ [jumpTo] ->
  exists gapIndex start,
    getGapIndex (buffered (watched w)) (currentTime (watched w))
      (gapDetectionThreshold (config_ (this w))) = Some gapIndex /\
    TimeRanges_start (buffered (watched w)) gapIndex = Some start /\
    jumpTo
    = (if isLegacyEdge || isXboxOne || isTizen
       then
         PrimFloat.div
           (Math_ceil
              (PrimFloat.mul
                 (PrimFloat.add start (gapPadding (config_ (this w))))
                 100%float))
           100%float
       else start) /\
    video (after (invoke a w)) = set_currentTime jumpTo (watched w).
Proof.
  destruct a; cbn [invoke].
  - rewrite release_eq. intros H. now apply no_jump in H.
  - exact (onPollGapJump_target (update (set_hadSegmentAppended_ true) w) jumpTo).
  - unfold onStarted. cbv zeta.
    destruct (negb _); [intros H; now apply no_jump in H |].
    destruct (_ && _), (gapJumpTimer_ _);
      match goal with
      | |- context [onPollGapJump_ ?w0] => exact (onPollGapJump_target w0 jumpTo)
      end.
  - unfold onSeeking. cbv zeta.
    match goal with
    | |- context [onPollGapJump_ ?w0] => exact (onPollGapJump_target w0 jumpTo)
    end.
  - exact (onPollGapJump_target w jumpTo).
  - intros H. now apply no_jump in H.
  - intros H. now apply no_jump in H.
Qed.

Lemma onPollGapJump_from_start (w : world) (jumpTo : number) :
  paused (video w) = true -> stallDetector_ (this w) = None ->
  seeks (after (onPollGapJump_ w)) = seeks w ++ [jumpTo] ->
  startTime_ (this (after (onPollGapJump_ w))) = jumpTo.
Proof.
  intros Hpaused Hdetector Hseeks.
  destruct (onPollGapJump_polls w) as
    [ ? | ? ? | ? ? | ? ? ? | ? ? ? ? ? ? | w' ? ? ? ? ? Hpoll
    | w' c ? Hready ? ? Hstart Hpoll Hjumps];
    try (now apply no_jump in Hseeks).
  - stall_shape Hpoll. now apply no_jump in Hseeks.
  - stall_shape Hpoll. destruct (Hnone Hdetector) as (-> & -> & _).
    destruct (Hstart Hpaused) as [_ Hat].
    destruct Hjumps as
      [ ? | ? ? | ? ? ? | ? ? ? | ? ? ? ? ? | ? ? ? ? ?
      | gapIndex jumpTo' line Hgap Hseg Htarget ? Hend Hsmall Hline ];
      try (now apply no_jump in Hseeks).
    assert (jumpTo' = jumpTo) as ->.
    { destruct (onEvent_ _); simpl in Hseeks;
        apply app_inv_head in Hseeks; congruence. }
    assert (Hout :
      startTime_
        (this (jumped (set_video (video (noticed w))
                         (update (set_stallDetector_ None) (noticed w)))
                 jumpTo line)) = jumpTo).
    { unfold jumped. simpl. rewrite Hat. reflexivity. }
    destruct (onEvent_ _); exact Hout.
Qed.


(** ** One jump at a time *)

Lemma onPollGapJump_starts_a_seek (w : world) (jumpTo : number) :
  (forall t v, seeking (set_currentTime t v) = true) ->
  seeking (video w) = false ->
  seeks (after (onPollGapJump_ w)) = seeks w ++ [jumpTo] ->
  seeking (video (after (onPollGapJump_ w))) = true /\
  seekingEventReceived_ (this (after (onPollGapJump_ w))) = false.
Proof.
  intros Hbrowser Hseeking Hseeks.
  destruct (onPollGapJump_polls w) as
    [ ? | ? ? | ? ? | ? ? ? | ? ? ? ? ? ? | w' ? ? ? ? ? Hpoll
    | w' c ? Hready ? ? Hstart Hpoll Hjumps];
    try (now apply no_jump in Hseeks).
  - stall_shape Hpoll. now apply no_jump in Hseeks.
  - stall_shape Hpoll.
    destruct Hjumps as
      [ ? | ? ? | ? ? ? | ? ? ? | ? ? ? ? ? | ? ? ? ? ?
      | gapIndex jumpTo' line Hgap Hseg Htarget ? Hend Hsmall Hline ];
      try (now apply no_jump in Hseeks).
    assert (Hout :
      seeking
        (video (jumped (set_video v (update (set_stallDetector_ d) (noticed w)))
                  jumpTo' line)) = true /\
      seekingEventReceived_
        (this (jumped (set_video v (update (set_stallDetector_ d) (noticed w)))
                 jumpTo' line)) = false).
    { unfold jumped. simpl. split; [apply Hbrowser |].
      at_start; exact Hseeking. }
    destruct (onEvent_ _); exact Hout.
Qed.

(** X23. One jump at a time.  In a browser, an assignment to [currentTime]
    starts a seek.  After a jump that was made while the media element was not
    seeking, the controller makes no other jump, raises no event and logs
    nothing for as long as that seek lasts and neither [onSeeking] nor
    [onStarted] is called. *)
Theorem X23_after_a_jump_the_next_waits_for_onSeeking
    (a : call) (w : world) (jumpTo : number) (acts : list call) :
  (forall t v, seeking (set_currentTime t v) = true) ->
  seeking (video w) = false ->
  seeks (after (invoke a w)) = seeks w ++ [jumpTo] ->
  Forall
    (fun a =>
       is_OnSeeking a = false /\ is_OnStarted a = false /\
       keeps seeking a = true)
    acts ->
  same_output (after (invoke a w)) (run_calls acts (after (invoke a w))).
Proof.
  intros Hbrowser Hseeking Hseeks Hacts.
  assert (Hseek :
    seeking (video (after (invoke a w))) = true /\
    seekingEventReceived_ (this (after (invoke a w))) = false).
  { revert Hseeks. destruct a; cbn [invoke].
    - rewrite release_eq. intros H. now apply no_jump in H.
    - exact (onPollGapJump_starts_a_seek
               (update (set_hadSegmentAppended_ true) w) jumpTo Hbrowser
               Hseeking).
    - unfold onStarted. cbv zeta.
      destruct (negb _); [intros H; now apply no_jump in H |].
      destruct (_ && _), (gapJumpTimer_ _);
        match goal with
        | |- context [onPollGapJump_ ?w0] =>
            exact (onPollGapJump_starts_a_seek w0 jumpTo Hbrowser Hseeking)
        end.
    - unfold onSeeking. cbv zeta.
      match goal with
      | |- context [onPollGapJump_ ?w0] =>
          exact (onPollGapJump_starts_a_seek w0 jumpTo Hbrowser Hseeking)
      end.
    - exact (onPollGapJump_starts_a_seek w jumpTo Hbrowser Hseeking).
    - intros H. now apply no_jump in H.
    - intros H. now apply no_jump in H. }
  destruct Hseek as [Hseek Hreceived].
  clear Hseeks Hseeking. revert Hseek Hreceived.
  generalize (after (invoke a w)). clear a w.
  induction Hacts as [| a acts (Ha & Ha' & Ha'') _ IH];
    intros w Hseeking Hreceived; [repeat split |].
  destruct (invoke_seeking a w Hseeking Hreceived Ha Ha' Ha'')
    as (Hseeking' & Hreceived' & Hsame).
  simpl. eapply same_output_trans; [exact Hsame |]. now apply IH.
Qed.

End GapJumping.

(** ** The sample platform *)

Lemma sample_gap_lt (previous : option number) (b : TimeRanges) (i : nat)
    (time threshold : number) (gapIndex : nat) :
  sample_gap previous b i time threshold = Some gapIndex ->
  gapIndex < i + length b.
Proof.
  revert previous i. induction b as [| [s e] b IH]; intros previous i; simpl.
  - discriminate.
  - destruct (_ && _).
    + intros [= <-]. lia.
    + intros Hgap. apply IH in Hgap. lia.
Qed.

Lemma sample_getGapIndex_valid (b : TimeRanges) (time threshold : number)
    (gapIndex : nat) :
  @getGapIndex sample_platform b time threshold = Some gapIndex ->
  gapIndex < length b.
Proof. apply sample_gap_lt. Qed.

(** The sample controller, once started, jumps over the gap from 10 to 12. *)
Example sample_jump :
  let w := run_calls [OnStarted 0%float] sample_world in
  seeks w = [12%float] /\
  info w = [JumpOverGap 2%float 10%float 12%float] /\
  dispatched w = [GapJumped] /\
  getGapsJumped w = 1 /\
  currentTime (video w) = 12%float.
Proof. vm_compute. repeat split. Qed.

(** After a seek to a place before everything buffered, the jump to the first
    range waits for [onSegmentAppended]. *)
Example sample_unbuffered_seek :
  let w := run_calls [OnStarted 0%float; Browser sample_unbuffered; OnSeeking; Poll]
             sample_world in
  seeks w = [12%float] /\
  seeks (run_calls [OnSegmentAppended] w) = [12%float; 2%float] /\
  info (run_calls [OnSegmentAppended] w)
  = [JumpOverGap 2%float 10%float 12%float;
     JumpBeforeStart 2%float 2%float].
Proof. vm_compute. repeat split. Qed.

Lemma X14_nothing_before_onStarted_witness :
  same_output sample_world
    (run_calls [Poll; OnSegmentAppended; OnSeeking; Browser sample_video; Poll]
       sample_world).
Proof.
  apply (@X14_nothing_before_onStarted sample_platform);
    [reflexivity | repeat constructor].
Defined.

Lemma X15_no_jump_to_the_first_range_after_a_seek_witness :
  exists lines,
    info
      (run_calls [OnSeeking; Poll; OnStarted 0%float; Poll]
         (run_calls [OnStarted 0%float; Browser sample_unbuffered] sample_world))
    = info (run_calls [OnStarted 0%float; Browser sample_unbuffered] sample_world)
      ++ lines /\
    Forall (fun line => before_start line = false) lines.
Proof.
  apply (@X15_no_jump_to_the_first_range_after_a_seek sample_platform).
  repeat constructor.
Defined.

Lemma X17_no_exception_before_release_witness :
  completes
    [OnStarted 0%float; Poll; Browser sample_unbuffered; OnSeeking;
     OnSegmentAppended]
    sample_world = true.
Proof.
  apply (@X17_no_exception_before_release sample_platform);
    [exact sample_getGapIndex_valid | repeat constructor].
Defined.

Lemma X18_paused_without_autoplay_is_left_alone_witness :
  same_output sample_paused_world
    (run_calls [Poll; OnSeeking; OnSegmentAppended; Timeline 200%float; Poll]
       sample_paused_world).
Proof.
  apply (@X18_paused_without_autoplay_is_left_alone sample_platform);
    [reflexivity | reflexivity | repeat constructor].
Defined.

Lemma X19_no_jump_during_an_unannounced_seek_witness :
  same_output sample_seeking_world
    (run_calls [Poll; OnSegmentAppended; Poll] sample_seeking_world).
Proof.
  apply (@X19_no_jump_during_an_unannounced_seek sample_platform);
    [reflexivity | reflexivity | repeat constructor].
Defined.

Lemma X21_a_jump_goes_to_the_start_of_a_buffered_range_witness :
  exists gapIndex start,
    @getGapIndex sample_platform (buffered (watched sample_world))
      (currentTime (watched sample_world))
      (gapDetectionThreshold (config_ (this sample_world))) = Some gapIndex /\
    TimeRanges_start (buffered (watched sample_world)) gapIndex = Some start /\
    12%float
    = (if @isLegacyEdge sample_platform || @isXboxOne sample_platform
          || @isTizen sample_platform
       then
         PrimFloat.div
           (@Math_ceil sample_platform
              (PrimFloat.mul
                 (PrimFloat.add start (gapPadding (config_ (this sample_world))))
                 100%float))
           100%float
       else start) /\
    video (after (invoke (OnStarted 0%float) sample_world))
    = @set_currentTime sample_platform 12%float (watched sample_world).
Proof.
  apply (@X21_a_jump_goes_to_the_start_of_a_buffered_range sample_platform
           (OnStarted 0%float) sample_world 12%float).
  reflexivity.
Defined.


Lemma X23_after_a_jump_the_next_waits_for_onSeeking_witness :
  same_output (after (invoke (OnStarted 0%float) sample_world))
    (run_calls [Poll; OnSegmentAppended; Timeline 50%float; Poll]
       (after (invoke (OnStarted 0%float) sample_world))).
Proof.
  apply (@X23_after_a_jump_the_next_waits_for_onSeeking sample_platform
           (OnStarted 0%float) sample_world 12%float);
    [intros; reflexivity | reflexivity | reflexivity | repeat constructor].
Defined.
